(** * Discourse Hooks DB: the multi-version extraction and consolidation pipeline

    A shallow embedding of [index.js] (class [DiscourseHooksDB] and the worker
    thread logic) and the properties of its version order, normaliser,
    per-version fold, scheduler, cross-version merge, argument consolidation
    and report.

    Conventions of the embedding.
    - JavaScript strings are [string]s of 8-bit code units; numbers that the
      program only uses as integers (line numbers, counters, version
      components) are [Z].  Double arithmetic is exact on integers below
      2^53, which is the range the embedding speaks about.
    - A JavaScript [Map] or [Set] keeps insertion order and the program depends
      on it ([Array.from], [forEach]); they are association lists and
      duplicate-free lists in insertion order.
    - Arrays that are shared between objects and mutated in place (the
      [arguments] array of an occurrence, of its location and of its raw
      history entry) live in an explicit store and are named by address. *)

From Stdlib Require Import ZArith List String Ascii Bool Lia Permutation Sorted.
Import ListNotations.
Open Scope string_scope.
Open Scope Z_scope.

(** ** Characters and strings *)

Module Js.

Definition code (c : ascii) : N := N_of_ascii c.

Definition in_range (lo hi : N) (c : ascii) : bool :=
  (N.leb lo (code c)) && (N.leb (code c) hi).

(** [\d] *)
Definition is_digit (c : ascii) : bool := in_range 48 57 c.

(** [[a-zA-Z_]] *)
Definition is_ident_start (c : ascii) : bool :=
  in_range 97 122 c || in_range 65 90 c || Ascii.eqb c "_".

(** [\w], which is also [[a-zA-Z0-9_]] *)
Definition is_word (c : ascii) : bool := is_ident_start c || is_digit c.

(** [\s], and the characters [trim] strips, among 8-bit code units:
    TAB, LF, VT, FF, CR, SPACE and NBSP. *)
Definition is_space (c : ascii) : bool :=
  in_range 9 13 c || N.eqb (code c) 32 || N.eqb (code c) 160.

Fixpoint forall_chars (p : ascii -> bool) (s : string) : bool :=
  match s with
  | EmptyString => true
  | String c r => p c && forall_chars p r
  end.

Fixpoint exists_char (p : ascii -> bool) (s : string) : bool :=
  match s with
  | EmptyString => false
  | String c r => p c || exists_char p r
  end.

(** [s.trimStart()] *)
Fixpoint trimStart (s : string) : string :=
  match s with
  | EmptyString => EmptyString
  | String c r => if is_space c then trimStart r else s
  end.

(** [s.trimEnd()] *)
Fixpoint trimEnd (s : string) : string :=
  match s with
  | EmptyString => EmptyString
  | String c r =>
      match trimEnd r with
      | EmptyString => if is_space c then EmptyString else String c EmptyString
      | r' => String c r'
      end
  end.

(** [s.trim()] *)
Definition trim (s : string) : string := trimEnd (trimStart s).

(** [s.startsWith(p)] is [String.prefix p s]. *)
Definition startsWith (s p : string) : bool := String.prefix p s.

Fixpoint last_char (s : string) : option ascii :=
  match s with
  | EmptyString => None
  | String c EmptyString => Some c
  | String _ r => last_char r
  end.

(** [s.endsWith(c)] for a one-character [c] *)
Definition endsWithChar (s : string) (c : ascii) : bool :=
  match last_char s with
  | Some d => Ascii.eqb d c
  | None => false
  end.

(** [s.slice(0, -1)] *)
Fixpoint drop_last (s : string) : string :=
  match s with
  | EmptyString => EmptyString
  | String _ EmptyString => EmptyString
  | String c r => String c (drop_last r)
  end.

(** [s.slice(1, -1)] *)
Definition slice_1_m1 (s : string) : string :=
  match s with
  | EmptyString => EmptyString
  | String _ r => drop_last r
  end.

(** [l.join(sep)] *)
Fixpoint join (sep : string) (l : list string) : string :=
  match l with
  | [] => EmptyString
  | [x] => x
  | x :: r => x ++ sep ++ join sep r
  end.

(** [s.replace(c, "")] with a one-character string pattern: only the first
    occurrence is replaced. *)
Fixpoint replace_first_char (c : ascii) (s : string) : string :=
  match s with
  | EmptyString => EmptyString
  | String d r => if Ascii.eqb d c then r else String d (replace_first_char c r)
  end.

(** [s.split(c)] with a one-character separator *)
Fixpoint split_char (c : ascii) (s : string) : list string :=
  match s with
  | EmptyString => [EmptyString]
  | String d r =>
      if Ascii.eqb d c then EmptyString :: split_char c r
      else match split_char c r with
           | [] => [String d EmptyString]
           | h :: t => String d h :: t
           end
  end.

(** [s.includes(p)] *)
Fixpoint includes (s p : string) : bool :=
  String.prefix p s ||
  match s with
  | EmptyString => false
  | String _ r => includes r p
  end.

(** [l.includes(x)] on an array of numbers *)
Definition includesZ (l : list Z) (x : Z) : bool := existsb (Z.eqb x) l.

(** [l.includes(x)] on an array of strings, also [Set.prototype.has] *)
Definition includesS (l : list string) (x : string) : bool :=
  existsb (String.eqb x) l.

(** [Array.prototype.sort(cmp)] is stable; for a comparator given as the
    test [cmp(x, y) <= 0] it is this insertion sort. *)
Section Sort.
Context {A : Type} (le : A -> A -> bool).

Fixpoint insert (x : A) (l : list A) : list A :=
  match l with
  | [] => [x]
  | y :: r => if le x y then x :: y :: r else y :: insert x r
  end.

Fixpoint sort (l : list A) : list A :=
  match l with
  | [] => []
  | x :: r => insert x (sort r)
  end.
End Sort.

(** [l.sort((a, b) => a - b)] *)
Definition sortZ (l : list Z) : list Z := sort Z.leb l.

(** [l.sort()] on strings: the default order compares code units. *)
Definition sortS (l : list string) : list string := sort String.leb l.

End Js.

(** ** Version Catalog *)

(** *** Numbers *)

(** The numbers of [compareVersions] are whole or infinite.  A whole number
    is the integer it is; [infinity] and [- infinity] stand for [Infinity]
    and [-Infinity], which are larger in size than every double.  NaN is
    [None] at the places where it can arise. *)
Definition infinity : Z := 2 ^ 1024.

(** The double nearest to the integer [z], a tie going to the even
    significand.  An integer of at most 53 bits is a double.  A longer one
    keeps its 53 leading bits [q], rounded by the bits [r] it loses, and
    what reaches [2 ^ 1024] is infinite. *)
Definition toDouble (z : Z) : Z :=
  let m := Z.abs z in
  let e := Z.log2 m - 52 in
  if e <=? 0 then z
  else
    let q := Z.shiftr m e in
    let r := m - Z.shiftl q e in
    let half := Z.shiftl 1 (e - 1) in
    let q' := if (half <? r) || ((r =? half) && Z.odd q) then q + 1 else q in
    Z.sgn z * Z.min (Z.shiftl q' e) infinity.

(** [x - y]; [None] is NaN, the difference of an infinite number and
    itself. *)
Definition minus (x y : Z) : option Z :=
  if Z.abs x =? infinity then (if x =? y then None else Some x)
  else if Z.abs y =? infinity then Some (- y)
  else Some (toDouble (x - y)).

(** The integer that a run of decimal digits spells; the empty run spells
    0. *)
Fixpoint digits_value (acc : Z) (s : string) : option Z :=
  match s with
  | EmptyString => Some acc
  | String d r =>
      if Js.is_digit d
      then digits_value (10 * acc + (Z.of_N (Js.code d) - 48)) r
      else None
  end.

(** [Number(s)], on the strings the catalog produces: a run of decimal
    digits is read as the double nearest to the integer it spells (the empty
    string is 0).  Any other string is outside the embedding ([None]). *)
Definition Number (s : string) : option Z :=
  option_map toDouble (digits_value 0 s).

(** [const parseVersion = (v) => v.replace("v", "").split(".").map(Number)] *)
Definition parseVersion (v : string) : list (option Z) :=
  map Number (Js.split_char "." (Js.replace_first_char "v" v)).

(** What [const [aMajor, aMinor, aPatch] = parseVersion(a)] binds to a
    name: the number at its index, or [undefined] when the array is
    shorter. *)
Inductive Part : Type :=
  | undefined
  | part (n : Z).

(** [None] when the string at the index is outside the embedding of
    [Number]. *)
Definition partAt (parts : list (option Z)) (i : nat) : option Part :=
  match nth_error parts i with
  | Some (Some n) => Some (part n)
  | Some None => None
  | None => Some undefined
  end.

(** [x !== y] *)
Definition differ (x y : Part) : bool :=
  match x, y with
  | part a, part b => negb (a =? b)
  | undefined, undefined => false
  | _, _ => true
  end.

(** [x - y]; with [undefined] on a side it is NaN. *)
Definition difference (x y : Part) : option Z :=
  match x, y with
  | part a, part b => minus a b
  | _, _ => None
  end.

(** [compareVersions(a, b)]; [None] when the result is NaN, and when a
    component that the comparison reads is outside the embedding of
    [Number]. *)
Definition compareVersions (a b : string) : option Z :=
  if String.eqb a "main" && String.eqb b "main" then Some 0
  else if String.eqb a "main" then Some 1
  else if String.eqb b "main" then Some (-1)
  else
    let pa := parseVersion a in
    let pb := parseVersion b in
    match partAt pa 0, partAt pb 0 with
    | Some aMajor, Some bMajor =>
        if differ aMajor bMajor then difference aMajor bMajor
        else
          match partAt pa 1, partAt pb 1 with
          | Some aMinor, Some bMinor =>
              if differ aMinor bMinor then difference aMinor bMinor
              else
                match partAt pa 2, partAt pb 2 with
                | Some aPatch, Some bPatch => difference aPatch bPatch
                | _, _ => None
                end
          | _, _ => None
          end
    | _, _ => None
    end.

(** The comparator as [Array.prototype.sort] sees it: a result that is not a
    number counts as 0. *)
Definition compareVersionsZ (a b : string) : Z :=
  match compareVersions a b with
  | Some z => z
  | None => 0
  end.

(** [tag.match(/^v\d+\.\d+\.\d+$/)], the filter of [getDiscourseVersions] *)
Definition is_digits1 (s : string) : bool :=
  negb (String.eqb s EmptyString) && Js.forall_chars Js.is_digit s.

Definition valid_tag (s : string) : bool :=
  match s with
  | String c0 r =>
      Ascii.eqb c0 "v"
      && match Js.split_char "." r with
         | [a; b; c] => is_digits1 a && is_digits1 b && is_digits1 c
         | _ => false
         end
  | EmptyString => false
  end.

(** The identifiers [getDiscourseVersions] returns: the filtered tags and
    the sentinel ["main"] it pushes last. *)
Definition valid_version (s : string) : bool :=
  String.eqb s "main" || valid_tag s.




(** A version of the data model: the sentinel, or a triple (major, minor,
    patch). *)
Inductive Version : Type :=
  | VMain
  | VTag (major minor patch : Z).

(** What [compareVersions] reads in an identifier: the sentinel, or the
    three numbers of [parseVersion]. *)
Definition version_of (s : string) : option Version :=
  if String.eqb s "main" then Some VMain
  else match parseVersion s with
       | [Some a; Some b; Some c] => Some (VTag a b c)
       | _ => None
       end.

(** In the words of the description.  The integer that the digits of [s]
    spell, each digit at its power of ten. *)
Fixpoint decimalOf (s : string) : Z :=
  match s with
  | EmptyString => 0
  | String c r =>
      (Z.of_N (N_of_ascii c) - 48) * 10 ^ Z.of_nat (String.length r) + decimalOf r
  end.

(** In the words of the description.  The version that an identifier
    denotes: [main] is the sentinel, and the tag written [v], major, a dot,
    minor, a dot and patch, each a run of digits, is the triple of the
    integers they spell. *)
Inductive denotes : string -> Version -> Prop :=
  | denotes_main : denotes "main" VMain
  | denotes_tag (major minor patch : string) :
      is_digits1 major = true ->
      is_digits1 minor = true ->
      is_digits1 patch = true ->
      denotes (String "v" (major ++ String "." (minor ++ String "." patch)))
        (VTag (decimalOf major) (decimalOf minor) (decimalOf patch)).



(** [compareVersions] read on what the identifiers denote. *)
Definition compareDenoted (x y : Version) : Z :=
  match x, y with
  | VMain, VMain => 0
  | VMain, VTag _ _ _ => 1
  | VTag _ _ _, VMain => -1
  | VTag a1 a2 a3, VTag b1 b2 b3 =>
      if negb (a1 =? b1) then a1 - b1
      else if negb (a2 =? b2) then a2 - b2
      else a3 - b3
  end.

(** ** Data model *)

(** The four hook kinds; the program writes them as strings. *)
Inductive HookType : Type :=
  | plugin_outlet
  | value_transformer
  | app_event_trigger
  | behavior_transformer.

Definition type_name (t : HookType) : string :=
  match t with
  | plugin_outlet => "plugin_outlet"
  | value_transformer => "value_transformer"
  | app_event_trigger => "app_event_trigger"
  | behavior_transformer => "behavior_transformer"
  end.

Definition HookType_eqb (a b : HookType) : bool :=
  match a, b with
  | plugin_outlet, plugin_outlet
  | value_transformer, value_transformer
  | app_event_trigger, app_event_trigger
  | behavior_transformer, behavior_transformer => true
  | _, _ => false
  end.

(** [type === "value_transformer" || type === "app_event_trigger"] *)
Definition tracksArguments (t : HookType) : bool :=
  HookType_eqb t value_transformer || HookType_eqb t app_event_trigger.

(** A raw occurrence as [findHooks] pushes it.  The single-line scan leaves
    [arguments] undefined. *)
Module FoundHook.
Record t : Type := mk {
  name : string;
  type : HookType;
  file : string;
  lines : list Z;
  arguments : option (list string)
}.
End FoundHook.

(** A record of a worker's message: a value of the worker's [hookMap]. *)
Module WorkerHook.
Record t : Type := mk {
  name : string;
  type : HookType;
  file : string;
  lines : list Z;
  arguments : list string;
  version : string
}.
End WorkerHook.

(** The [arguments] field is an array object.  During the merge it is an
    address into the store ([A := nat]); once the merge is over nothing
    mutates these arrays any more and the field is read as the array's
    contents ([A := list string]). *)
Module Location.
Record t (A : Type) : Type := mk {
  version : string;
  file : string;
  lines : list Z;
  arguments : A
}.
Arguments mk {A}.
Arguments version {A}.
Arguments file {A}.
Arguments lines {A}.
Arguments arguments {A}.
End Location.

Module HistoryEntry.
Record t (A : Type) : Type := mk {
  arguments : A;
  firstSeenVersion : string;
  versions : list string
}.
Arguments mk {A}.
Arguments arguments {A}.
Arguments firstSeenVersion {A}.
Arguments versions {A}.
End HistoryEntry.

(** A JavaScript [Map] with string keys, in insertion order. *)
Module JsMap.
Definition t (V : Type) : Type := list (string * V).

Section Ops.
Context {V : Type}.

Fixpoint get (m : t V) (k : string) : option V :=
  match m with
  | [] => None
  | (k', v) :: r => if String.eqb k' k then Some v else get r k
  end.

Definition has (m : t V) (k : string) : bool :=
  match get m k with Some _ => true | None => false end.

(** [m.set(k, v)]: an existing key keeps its position, a new key goes
    last. *)
Fixpoint set (m : t V) (k : string) (v : V) : t V :=
  match m with
  | [] => [(k, v)]
  | (k', v') :: r =>
      if String.eqb k' k then (k', v) :: r else (k', v') :: set r k v
  end.

(** [Array.from(m.values())] *)
Definition values (m : t V) : list V := map snd m.

Definition keys (m : t V) : list string := map fst m.
End Ops.
End JsMap.

Module HookData.
Record t (A : Type) : Type := mk {
  name : string;
  type : HookType;
  firstVersion : string;
  locations : list (Location.t A);
  argumentHistory : JsMap.t (HistoryEntry.t A)
}.
Arguments mk {A}.
Arguments name {A}.
Arguments type {A}.
Arguments firstVersion {A}.
Arguments locations {A}.
Arguments argumentHistory {A}.
End HookData.

(** ** [JSON.stringify] of an array of strings *)

Definition dquote : ascii := ascii_of_N 34.

Definition hex_digit (n : N) : ascii :=
  ascii_of_N (if N.ltb n 10 then 48 + n else 87 + n).

(** QuoteJSONString, one code unit *)
Definition json_escape (c : ascii) : string :=
  let n := Js.code c in
  if N.eqb n 8 then "\b"
  else if N.eqb n 9 then "\t"
  else if N.eqb n 10 then "\n"
  else if N.eqb n 12 then "\f"
  else if N.eqb n 13 then "\r"
  else if N.eqb n 34 then String "\" (String dquote EmptyString)
  else if N.eqb n 92 then "\\"
  else if N.ltb n 32 then
    "\u00" ++ String (hex_digit (N.div n 16)) (String (hex_digit (N.modulo n 16)) EmptyString)
  else String c EmptyString.

Fixpoint json_escape_all (s : string) : string :=
  match s with
  | EmptyString => EmptyString
  | String c r => json_escape c ++ json_escape_all r
  end.

Definition json_quote (s : string) : string :=
  String dquote (json_escape_all s ++ String dquote EmptyString).

Definition JSON_stringify (l : list string) : string :=
  "[" ++ Js.join "," (map json_quote l) ++ "]".

(** Reading one escaped code unit back, at the head of a string.  A quote
    is not the image of any code unit. *)
Definition hex_value (c : ascii) : N :=
  let n := Js.code c in
  if N.leb 97 n then n - 87 else n - 48.

Definition json_unescape (s : string) : option (ascii * string) :=
  match s with
  | EmptyString => None
  | String c r =>
      if Ascii.eqb c "\" then
        match r with
        | EmptyString => None
        | String d r' =>
            if Ascii.eqb d "b" then Some (ascii_of_N 8, r')
            else if Ascii.eqb d "t" then Some (ascii_of_N 9, r')
            else if Ascii.eqb d "n" then Some (ascii_of_N 10, r')
            else if Ascii.eqb d "f" then Some (ascii_of_N 12, r')
            else if Ascii.eqb d "r" then Some (ascii_of_N 13, r')
            else if Ascii.eqb d "u" then
              match r' with
              | String _ (String _ (String h1 (String h2 r''))) =>
                  Some (ascii_of_N (16 * hex_value h1 + hex_value h2), r'')
              | _ => None
              end
            else Some (d, r')
        end
      else if Ascii.eqb c dquote then None
      else Some (c, r)
  end.

Open Scope list_scope.

(** [newLines.forEach(line => { if (!lines.includes(line)) lines.push(line) })],
    the loop the worker and the merger share. *)
Definition pushNewLines (existing newLines : list Z) : list Z :=
  fold_left
    (fun acc line => if Js.includesZ acc line then acc else acc ++ [line])
    newLines existing.

(** ** Hook Extractor: [getMatchLines] *)

Fixpoint countNewlines (s : string) : nat :=
  match s with
  | EmptyString => 0%nat
  | String c r =>
      if Ascii.eqb c (ascii_of_N 10) then S (countNewlines r)
      else countNewlines r
  end.

(** [s.split("\n").length] *)
Definition splitLength (s : string) : nat := S (countNewlines s).

(** [getMatchLines(content, match)], with [index = match.index] and
    [matchedText = match[0]] *)
Definition getMatchLines (content : string) (index : nat) (matchedText : string)
  : list Z :=
  let startLine := Z.of_nat (splitLength (String.substring 0 index content)) in
  let matchLines := splitLength matchedText in
  map (fun i => startLine + Z.of_nat i) (seq 0 matchLines).

(** ** Worker: the per-version fold of [processVersion] *)

Definition hookKey (hook : FoundHook.t) : string :=
  (FoundHook.name hook ++ "|" ++ type_name (FoundHook.type hook) ++ "|"
   ++ FoundHook.file hook)%string.

(** [hook.arguments || []]: an array, also an empty one, is truthy. *)
Definition argumentsOrEmpty (a : option (list string)) : list string :=
  match a with
  | Some args => args
  | None => []
  end.

(** The body of [foundHooks.forEach(hook => ...)] *)
Definition foldHook (version : string) (hookMap : JsMap.t WorkerHook.t)
  (hook : FoundHook.t) : JsMap.t WorkerHook.t :=
  let key := hookKey hook in
  match JsMap.get hookMap key with
  | None =>
      JsMap.set hookMap key
        (WorkerHook.mk (FoundHook.name hook) (FoundHook.type hook)
           (FoundHook.file hook) (FoundHook.lines hook)
           (argumentsOrEmpty (FoundHook.arguments hook)) version)
  | Some existing =>
      JsMap.set hookMap key
        (WorkerHook.mk (WorkerHook.name existing) (WorkerHook.type existing)
           (WorkerHook.file existing)
           (Js.sortZ (pushNewLines (WorkerHook.lines existing)
                        (FoundHook.lines hook)))
           (WorkerHook.arguments existing) (WorkerHook.version existing))
  end.

Definition hookMapOf (version : string) (foundHooks : list FoundHook.t)
  : JsMap.t WorkerHook.t :=
  fold_left (foldHook version) foundHooks [].

(** [const hooks = Array.from(hookMap.values())] *)
Definition aggregateHooks (version : string) (foundHooks : list FoundHook.t)
  : list WorkerHook.t :=
  JsMap.values (hookMapOf version foundHooks).

(** ** Cross-Version Merger: the merge loop of [run] *)

Module Merge.

(** The coordinating process's state during the merge: [this.hooksDb] and the
    store of argument arrays. *)
Record State : Type := mkState {
  hooksDb : JsMap.t (HookData.t nat);
  store : list (list string)
}.

Definition initial : State := mkState [] [].

Definition deref (st : list (list string)) (a : nat) : list string :=
  nth a st [].

Fixpoint store_set (st : list (list string)) (a : nat) (v : list string)
  : list (list string) :=
  match st, a with
  | [], _ => []
  | _ :: r, O => v :: r
  | x :: r, S a' => x :: store_set r a' v
  end.

(** The [existingArgs] set holds exactly the elements of the array at every
    iteration, so membership in the set is membership in the array. *)
Definition pushNewArgs (existing newArgs : list string) : list string :=
  fold_left
    (fun acc arg => if Js.includesS acc arg then acc else acc ++ [arg])
    newArgs existing.

Definition sameLocation (hook : WorkerHook.t) (loc : Location.t nat) : bool :=
  String.eqb (Location.version loc) (WorkerHook.version hook)
  && String.eqb (Location.file loc) (WorkerHook.file hook).

(** The lines of the location [find] returned, after the merge of the
    hook's lines. *)
Definition mergedLocation (hook : WorkerHook.t) (loc : Location.t nat)
  : Location.t nat :=
  Location.mk (Location.version loc) (Location.file loc)
    (Js.sortZ (pushNewLines (Location.lines loc) (WorkerHook.lines hook)))
    (Location.arguments loc).

(** In-place update of the first location that [find] selects. *)
Fixpoint updateFound (hook : WorkerHook.t) (locs : list (Location.t nat))
  : list (Location.t nat) :=
  match locs with
  | [] => []
  | loc :: r =>
      if sameLocation hook loc then mergedLocation hook loc :: r
      else loc :: updateFound hook r
  end.

(** The body of the inner [forEach]: one hook record of one worker result. *)
Definition mergeHook (st : State) (hook : WorkerHook.t) : State :=
  (* the array object [hook.arguments] *)
  let a := List.length (store st) in
  let store1 := store st ++ [WorkerHook.arguments hook] in
  let db1 :=
    if JsMap.has (hooksDb st) (WorkerHook.name hook) then hooksDb st
    else JsMap.set (hooksDb st) (WorkerHook.name hook)
           (HookData.mk (WorkerHook.name hook) (WorkerHook.type hook)
              (WorkerHook.version hook) [] []) in
  match JsMap.get db1 (WorkerHook.name hook) with
  | None => mkState db1 store1
  | Some hookData =>
      let '(locations2, store2) :=
        match find (sameLocation hook) (HookData.locations hookData) with
        | None =>
            (HookData.locations hookData ++
               [Location.mk (WorkerHook.version hook) (WorkerHook.file hook)
                  (WorkerHook.lines hook) a],
             store1)
        | Some locationEntry =>
            (updateFound hook (HookData.locations hookData),
             if tracksArguments (WorkerHook.type hook)
             then store_set store1 (Location.arguments locationEntry)
                    (Js.sortS
                       (pushNewArgs
                          (deref store1 (Location.arguments locationEntry))
                          (deref store1 a)))
             else store1)
        end in
      let argKey := JSON_stringify (deref store2 a) in
      let history1 :=
        if JsMap.has (HookData.argumentHistory hookData) argKey
        then HookData.argumentHistory hookData
        else JsMap.set (HookData.argumentHistory hookData) argKey
               (HistoryEntry.mk a (WorkerHook.version hook) []) in
      let history2 :=
        match JsMap.get history1 argKey with
        | None => history1
        | Some e =>
            JsMap.set history1 argKey
              (HistoryEntry.mk (HistoryEntry.arguments e)
                 (HistoryEntry.firstSeenVersion e)
                 (HistoryEntry.versions e ++ [WorkerHook.version hook]))
        end in
      mkState
        (JsMap.set db1 (WorkerHook.name hook)
           (HookData.mk (HookData.name hookData) (HookData.type hookData)
              (HookData.firstVersion hookData) locations2 history2))
        store2
  end.

(** The parts of [mergeHook]'s result: the hook's record before the merge
    of its locations (the one found, or the one just created), its locations
    and the store after it. *)
Definition priorHook (st : State) (hook : WorkerHook.t) : HookData.t nat :=
  match JsMap.get (hooksDb st) (WorkerHook.name hook) with
  | Some hookData => hookData
  | None =>
      HookData.mk (WorkerHook.name hook) (WorkerHook.type hook)
        (WorkerHook.version hook) [] []
  end.

Definition mergedLocations (st : State) (hook : WorkerHook.t)
  : list (Location.t nat) :=
  let locs := HookData.locations (priorHook st hook) in
  match find (sameLocation hook) locs with
  | None =>
      locs ++ [Location.mk (WorkerHook.version hook) (WorkerHook.file hook)
                 (WorkerHook.lines hook) (List.length (store st))]
  | Some _ => updateFound hook locs
  end.

Definition mergedStore (st : State) (hook : WorkerHook.t) : list (list string) :=
  let store1 := store st ++ [WorkerHook.arguments hook] in
  match find (sameLocation hook) (HookData.locations (priorHook st hook)) with
  | None => store1
  | Some locationEntry =>
      if tracksArguments (WorkerHook.type hook)
      then store_set store1 (Location.arguments locationEntry)
             (Js.sortS
                (pushNewArgs
                   (deref store1 (Location.arguments locationEntry))
                   (deref store1 (List.length (store st)))))
      else store1
  end.

(** [results.forEach(hooks => hooks.forEach(hook => ...))] *)
Definition mergeResults (results : list (list WorkerHook.t)) : State :=
  fold_left (fun st hooks => fold_left mergeHook hooks st) results initial.

(** Reading the arrays once the merge is over. *)
Definition readLocation (st : list (list string)) (loc : Location.t nat)
  : Location.t (list string) :=
  Location.mk (Location.version loc) (Location.file loc) (Location.lines loc)
    (deref st (Location.arguments loc)).

Definition readEntry (st : list (list string)) (e : HistoryEntry.t nat)
  : HistoryEntry.t (list string) :=
  HistoryEntry.mk (deref st (HistoryEntry.arguments e))
    (HistoryEntry.firstSeenVersion e) (HistoryEntry.versions e).

Definition readHook (st : list (list string)) (h : HookData.t nat)
  : HookData.t (list string) :=
  HookData.mk (HookData.name h) (HookData.type h) (HookData.firstVersion h)
    (map (readLocation st) (HookData.locations h))
    (map (fun kv => (fst kv, readEntry st (snd kv))) (HookData.argumentHistory h)).

Definition read (st : State) : JsMap.t (HookData.t (list string)) :=
  map (fun kv => (fst kv, readHook (store st) (snd kv))) (hooksDb st).

End Merge.

(** The merged index, as the consolidator and the report read it. *)
Definition HooksDb : Type := JsMap.t (HookData.t (list string)).

Definition mergedIndex (results : list (list WorkerHook.t)) : HooksDb :=
  Merge.read (Merge.mergeResults results).

(** ** Argument Consolidator *)

Definition reservedNames : list string :=
  ["string"; "number"; "boolean"; "null"; "array"; "object"; "this"].

(** The test of [isPlainVariableName]: the whole of [arg] is a letter or
    underscore followed by letters, digits and underscores. *)
Definition isIdentifier (arg : string) : bool :=
  match arg with
  | EmptyString => false
  | String c r => Js.is_ident_start c && Js.forall_chars Js.is_word r
  end.

Definition isPlainVariableName (arg : string) : bool :=
  isIdentifier arg && negb (Js.includesS reservedNames arg).

(** The longest run of [[a-zA-Z0-9_]] at the head of [s], and what follows. *)
Fixpoint wordRun (s : string) : string * string :=
  match s with
  | EmptyString => (EmptyString, EmptyString)
  | String c r =>
      if Js.is_word c
      then let '(w, rest) := wordRun r in (String c w, rest)
      else (EmptyString, s)
  end.

(** An identifier (a letter or underscore, then word characters) matched
    greedily at the head of [s]. *)
Definition identifierAt (s : string) : option (string * string) :=
  match s with
  | EmptyString => None
  | String c r =>
      if Js.is_ident_start c
      then let '(w, rest) := wordRun r in Some (String c w, rest)
      else None
  end.

(** [methodMatch]: a dot, an identifier (group 1) and an empty pair of
    parentheses, anywhere in [arg]; group 1 of the leftmost match.  The run
    of word characters is greedy, and a shorter run is followed by a word
    character, never by a parenthesis. *)
Fixpoint methodMatch (s : string) : option string :=
  match s with
  | EmptyString => None
  | String c r =>
      if Ascii.eqb c "."
      then match identifierAt r with
           | Some (id, rest) =>
               if String.prefix "()" rest then Some id else methodMatch r
           | None => methodMatch r
           end
      else methodMatch r
  end.

(** [memberMatch]: a dot and an identifier (group 1) that ends [arg];
    group 1 of the leftmost match. *)
Fixpoint memberMatch (s : string) : option string :=
  match s with
  | EmptyString => None
  | String c r =>
      if Ascii.eqb c "."
      then match identifierAt r with
           | Some (id, EmptyString) => Some id
           | _ => memberMatch r
           end
      else memberMatch r
  end.

Definition extractMethodOrMemberName (arg : string) : option string :=
  match methodMatch arg with
  | Some m => Some m
  | None => memberMatch arg
  end.

(** The first loop of [chooseBestArgumentName]. *)
Fixpoint firstPlainName (argumentGroup : list string) : option string :=
  match argumentGroup with
  | [] => None
  | arg :: r => if isPlainVariableName arg then Some arg else firstPlainName r
  end.

(** The second loop.  An extracted name has at least one character, so
    [if (extracted)] only tests for [null]. *)
Fixpoint firstExtractedName (argumentGroup : list string) : option string :=
  match argumentGroup with
  | [] => None
  | arg :: r =>
      match extractMethodOrMemberName arg with
      | Some extracted => Some extracted
      | None => firstExtractedName r
      end
  end.

Definition chooseBestArgumentName (argumentGroup : list string) : string :=
  match firstPlainName argumentGroup with
  | Some arg => arg
  | None =>
      match firstExtractedName argumentGroup with
      | Some extracted => extracted
      | None => "value"
      end
  end.

(** [allArgumentArrays] of [consolidateArgumentsForVersion] *)
Definition allArgumentArrays (hookData : HookData.t (list string))
  (version : string) : list (list string) :=
  filter (fun args => negb (Nat.eqb (List.length args) 0))
    (map Location.arguments
       (filter (fun loc => String.eqb (Location.version loc) version)
          (HookData.locations hookData))).

(** [Math.max(...lengths)] on a non-empty array of lengths *)
Definition maxLength (arrays : list (list string)) : nat :=
  fold_right Nat.max 0%nat (map (@List.length string) arrays).

(** [allArgumentArrays.filter(args => i < args.length).map(args => args[i])] *)
Definition argumentsAtPosition (arrays : list (list string)) (i : nat)
  : list string :=
  map (fun args => nth i args EmptyString)
    (filter (fun args => Nat.ltb i (List.length args)) arrays).

Definition consolidateArgumentsForVersion
  (hookData : HookData.t (list string)) (version : string) : list string :=
  let arrays := allArgumentArrays hookData version in
  match arrays with
  | [] => []
  | _ =>
      map (fun i => chooseBestArgumentName (argumentsAtPosition arrays i))
        (seq 0 (maxLength arrays))
  end.

(** [set.add(x)] on a [Set] in insertion order *)
Definition setAdd (s : list string) (x : string) : list string :=
  if Js.includesS s x then s else s ++ [x].

(** [allVersions] of [consolidateArgumentHistory] *)
Definition allVersionsOf (hookData : HookData.t (list string)) : list string :=
  fold_left
    (fun acc history => fold_left setAdd (HistoryEntry.versions history) acc)
    (JsMap.values (HookData.argumentHistory hookData)) [].

(** The body of [Array.from(allVersions).forEach(version => ...)] *)
Definition consolidateVersion (hookData : HookData.t (list string))
  (consolidatedHistory : JsMap.t (HistoryEntry.t (list string)))
  (version : string) : JsMap.t (HistoryEntry.t (list string)) :=
  let consolidatedArgs := consolidateArgumentsForVersion hookData version in
  let argKey := JSON_stringify consolidatedArgs in
  let history1 :=
    if JsMap.has consolidatedHistory argKey then consolidatedHistory
    else JsMap.set consolidatedHistory argKey
           (HistoryEntry.mk consolidatedArgs version []) in
  match JsMap.get history1 argKey with
  | None => history1
  | Some e =>
      if Js.includesS (HistoryEntry.versions e) version then history1
      else JsMap.set history1 argKey
             (HistoryEntry.mk (HistoryEntry.arguments e)
                (HistoryEntry.firstSeenVersion e)
                (HistoryEntry.versions e ++ [version]))
  end.

(** The body of [this.hooksDb.forEach(hookData => ...)] *)
Definition consolidateHook (hookData : HookData.t (list string))
  : HookData.t (list string) :=
  if negb (tracksArguments (HookData.type hookData)) then hookData
  else
    HookData.mk (HookData.name hookData) (HookData.type hookData)
      (HookData.firstVersion hookData) (HookData.locations hookData)
      (fold_left (consolidateVersion hookData) (allVersionsOf hookData) []).

Definition consolidateArgumentHistory (db : HooksDb) : HooksDb :=
  map (fun kv => (fst kv, consolidateHook (snd kv))) db.

(** ** Report Assembler: [generateReport] *)

Module ReportEntry.
Record t : Type := mk {
  argumentSignature : list string;
  firstSeenVersion : string;
  versions : list string;
  changeCount : Z
}.
End ReportEntry.

Module ReportHook.
Record t : Type := mk {
  name : string;
  type : HookType;
  firstVersion : string;
  locations : list (Location.t (list string));
  argumentHistory : list ReportEntry.t;
  hasArgumentChanges : bool;
  argumentChangeCount : Z
}.
End ReportHook.

Module Summary.
Record t : Type := mk {
  totalArgumentChanges : Z;
  hooksWithMostChanges : list (string * HookType * Z);
  retiredHooksList : list (string * HookType * option string)
}.
End Summary.

(** The artifact without [lastUpdated], the freshness timestamp. *)
Module Report.
Record t : Type := mk {
  totalHooks : Z;
  hooksByType : JsMap.t Z;
  hooksWithArgumentChanges : Z;
  latestVersion : option string;
  hooksInLatestVersion : Z;
  latestVersionHooksByType : JsMap.t Z;
  retiredHooks : Z;
  hooks : list ReportHook.t;
  summary : Summary.t
}.
End Report.

Definition reportEntry (data : HistoryEntry.t (list string)) : ReportEntry.t :=
  ReportEntry.mk (HistoryEntry.arguments data)
    (HistoryEntry.firstSeenVersion data) (HistoryEntry.versions data)
    (Z.of_nat (List.length (HistoryEntry.versions data))).

Definition reportHook (hook : HookData.t (list string)) : ReportHook.t :=
  let argumentHistoryArray :=
    map reportEntry (JsMap.values (HookData.argumentHistory hook)) in
  ReportHook.mk (HookData.name hook) (HookData.type hook)
    (HookData.firstVersion hook) (HookData.locations hook)
    argumentHistoryArray
    (Nat.ltb 1 (List.length argumentHistoryArray))
    (Z.of_nat (List.length argumentHistoryArray) - 1).

(** [versions.sort((a, b) => this.compareVersions(a, b))] *)
Definition sortVersions (l : list string) : list string :=
  Js.sort (fun a b => compareVersionsZ a b <=? 0) l.

(** [l[l.length - 1]], also [l.pop()]: [undefined] on an empty array *)
Definition lastOf (l : list string) : option string :=
  match l with
  | [] => None
  | x :: r => Some (last r x)
  end.

Definition allLocationVersions (hooks : list ReportHook.t) : list string :=
  fold_left
    (fun acc hook =>
       fold_left setAdd (map Location.version (ReportHook.locations hook)) acc)
    hooks [].

(** [loc.version === latestVersion] *)
Definition isVersion (latestVersion : option string) (v : string) : bool :=
  match latestVersion with
  | Some l => String.eqb v l
  | None => false
  end.

(** [hook.locations.some(loc => loc.version === latestVersion)] *)
Definition inLatestVersion (latestVersion : option string) (hook : ReportHook.t)
  : bool :=
  existsb (fun loc => isVersion latestVersion (Location.version loc))
    (ReportHook.locations hook).

(** [obj[type] = (obj[type] || 0) + 1] *)
Definition countType (obj : JsMap.t Z) (type : HookType) : JsMap.t Z :=
  JsMap.set obj (type_name type)
    (match JsMap.get obj (type_name type) with
     | Some n => n + 1
     | None => 1
     end).

Definition generateReport (db : HooksDb) : Report.t :=
  let hooks := map reportHook (JsMap.values db) in
  let sortedVersions := sortVersions (allLocationVersions hooks) in
  let latestVersion := lastOf sortedVersions in
  let hooksInLatestVersion := filter (inLatestVersion latestVersion) hooks in
  let retiredHooks :=
    filter (fun hook => negb (inLatestVersion latestVersion hook)) hooks in
  let latestVersionHooksByType :=
    fold_left (fun obj hook => countType obj (ReportHook.type hook))
      hooksInLatestVersion [] in
  Report.mk
    (Z.of_nat (List.length db))
    (fold_left (fun obj hook => countType obj (HookData.type hook))
       (JsMap.values db) [])
    (Z.of_nat
       (List.length (filter ReportHook.hasArgumentChanges hooksInLatestVersion)))
    latestVersion
    (Z.of_nat (List.length hooksInLatestVersion))
    latestVersionHooksByType
    (Z.of_nat (List.length retiredHooks))
    hooks
    (Summary.mk
       (fold_left (fun sum hook => sum + ReportHook.argumentChangeCount hook)
          hooksInLatestVersion 0)
       (map (fun h => (ReportHook.name h, ReportHook.type h,
                       ReportHook.argumentChangeCount h))
          (firstn 10
             (Js.sort
                (fun a b => ReportHook.argumentChangeCount b
                            - ReportHook.argumentChangeCount a <=? 0)
                (filter (fun h => 0 <? ReportHook.argumentChangeCount h)
                   hooksInLatestVersion))))
       (map (fun h => (ReportHook.name h, ReportHook.type h,
                       lastOf (sortVersions
                                 (map Location.version (ReportHook.locations h)))))
          (firstn 10 retiredHooks))).

(** The coordinating process after the workers: merge, consolidate, report. *)
Definition runPipeline (results : list (list WorkerHook.t)) : Report.t :=
  generateReport (consolidateArgumentHistory (mergedIndex results)).

(** ** Parallel Scheduler: [processVersionsInParallel] *)

Module Scheduler.

(** What a worker's [message] event carries: the object with [hooks] and
    [timing] that [processVersion] posts at its end, or anything else; the
    [catch] of [processVersion] posts the empty array, which has neither
    field. *)
Inductive Data : Type :=
  | HooksAndTiming (hooks : list WorkerHook.t)
  | EmptyArray.

(** The events of a worker; a worker is named by the index of its version. *)
Inductive Event : Type :=
  | OnMessage (worker : nat) (data : Data)
  | OnError (worker : nat).

(** How one version's work ends. *)
Inductive Outcome : Type :=
  | Extracted (hooks : list WorkerHook.t)
  | CaughtFailure
  | UncaughtError.

(** The event a worker raises in the coordinating process: [processVersion]
    posts its hooks, its [catch] posts [[]], and an error that escapes the
    worker raises [error]. *)
Definition report (worker : nat) (o : Outcome) : Event :=
  match o with
  | Extracted hooks => OnMessage worker (HooksAndTiming hooks)
  | CaughtFailure => OnMessage worker EmptyArray
  | UncaughtError => OnError worker
  end.

Definition workerOf (ev : Event) : nat :=
  match ev with
  | OnMessage worker _ => worker
  | OnError worker => worker
  end.

(** The reports the [message] handler does not count. *)
Definition uncounted (ev : Event) : nat :=
  match ev with
  | OnMessage _ EmptyArray => 1%nat
  | _ => 0%nat
  end.

(** The closure's variables and whether [resolve(results)] has been called. *)
Record State : Type := mkState {
  results : list (list WorkerHook.t);
  completed : nat;
  versionIndex : nat;
  workers : list nat;
  resolved : bool
}.

Section Run.
(** [versions.length] *)
Variable n : nat.

Definition createWorker (st : State) : State :=
  if Nat.leb n (versionIndex st) then st
  else mkState (results st) (completed st) (S (versionIndex st))
         (workers st ++ [versionIndex st]) (resolved st).

(** [workers.splice(workers.indexOf(worker), 1)]: an index of -1 removes
    the last element. *)
Fixpoint spliceWorker (worker : nat) (ws : list nat) : list nat :=
  match ws with
  | [] => []
  | w :: r =>
      if Nat.eqb w worker then r
      else match r with
           | [] => []
           | _ => w :: spliceWorker worker r
           end
  end.

(** The end both handlers share. *)
Definition finish (worker : nat) (st : State) : State :=
  let st1 := mkState (results st) (completed st) (versionIndex st)
               (spliceWorker worker (workers st)) (resolved st) in
  if Nat.eqb (completed st1) n
  then mkState (results st1) (completed st1) (versionIndex st1)
         (workers st1) true
  else createWorker st1.

Definition handle (st : State) (ev : Event) : State :=
  match ev with
  | OnMessage worker (HooksAndTiming hooks) =>
      finish worker
        (mkState (results st ++ [hooks]) (S (completed st))
           (versionIndex st) (workers st) (resolved st))
  | OnMessage worker EmptyArray => finish worker st
  | OnError worker =>
      finish worker
        (mkState (results st) (S (completed st)) (versionIndex st)
           (workers st) (resolved st))
  end.

(** [for (let i = 0; i < maxWorkers && i < versions.length; i++) createWorker()] *)
Definition start (maxWorkers : nat) : State :=
  Nat.iter (Nat.min maxWorkers n) createWorker (mkState [] 0 0 [] false).

(** A schedule: every event is raised by a worker that is running. *)
Fixpoint validSchedule (st : State) (evs : list Event) : bool :=
  match evs with
  | [] => true
  | ev :: r =>
      existsb (Nat.eqb (workerOf ev)) (workers st)
      && validSchedule (handle st ev) r
  end.

(** The account of the versions: counted, running, unclaimed, and reported
    without being counted. *)
Definition balance (dropped : nat) (st : State) : Prop :=
  (versionIndex st <= n)%nat
  /\ (completed st + List.length (workers st) + (n - versionIndex st)
      + dropped = n)%nat.

Definition runSchedule (maxWorkers : nat) (evs : list Event) : State :=
  fold_left handle evs (start maxWorkers).
End Run.

End Scheduler.

(** ** Argument Normalizer *)

Definition isQuote (c : ascii) : bool :=
  Ascii.eqb c dquote || Ascii.eqb c "'".

Definition isOpen (c : ascii) : bool :=
  Ascii.eqb c "{" || Ascii.eqb c "[" || Ascii.eqb c "(".

Definition isClose (c : ascii) : bool :=
  Ascii.eqb c "}" || Ascii.eqb c "]" || Ascii.eqb c ")".

(** [extractPropertyName(propString)]: the whole string is word characters,
    or it starts with word characters (group 1), optional white space and a
    colon. *)
Definition extractPropertyName (propString : string) : option string :=
  match wordRun propString with
  | (EmptyString, _) => None
  | (w, EmptyString) => Some w
  | (w, rest) =>
      match Js.trimStart rest with
      | String c _ => if Ascii.eqb c ":" then Some w else None
      | EmptyString => None
      end
  end.

(** The variables of the scanning loop of [normalizeAppEventArg]; [prev] is
    [objectContent[i - 1]]. *)
Record Scan : Type := mkScan {
  propNames : list string;
  current : string;
  depth : Z;
  inString : bool;
  stringChar : ascii;
  prev : option ascii
}.

(** [if (current.trim()) { const propName = ...; if (propName) push }] *)
Definition pushProperty (propNames : list string) (current : string)
  : list string :=
  match Js.trim current with
  | EmptyString => propNames
  | trimmed =>
      match extractPropertyName trimmed with
      | Some propName => propNames ++ [propName]
      | None => propNames
      end
  end.

Definition appendChar (s : string) (c : ascii) : string :=
  (s ++ String c EmptyString)%string.

(** One iteration of the loop over [objectContent]. *)
Definition scanChar (st : Scan) (char : ascii) : Scan :=
  let escaped := match prev st with
                 | Some p => Ascii.eqb p "\"
                 | None => false
                 end in
  if negb (inString st) && isQuote char then
    mkScan (propNames st) (appendChar (current st) char) (depth st)
      true char (Some char)
  else if inString st && Ascii.eqb char (stringChar st) && negb escaped then
    mkScan (propNames st) (appendChar (current st) char) (depth st)
      false (stringChar st) (Some char)
  else if negb (inString st) && isOpen char then
    mkScan (propNames st) (appendChar (current st) char) (depth st + 1)
      false (stringChar st) (Some char)
  else if negb (inString st) && isClose char then
    mkScan (propNames st) (appendChar (current st) char) (depth st - 1)
      false (stringChar st) (Some char)
  else if negb (inString st) && Ascii.eqb char "," && (depth st =? 0) then
    mkScan (pushProperty (propNames st) (current st)) EmptyString (depth st)
      false (stringChar st) (Some char)
  else
    mkScan (propNames st) (appendChar (current st) char) (depth st)
      (inString st) (stringChar st) (Some char).

Fixpoint scanObject (st : Scan) (objectContent : string) : Scan :=
  match objectContent with
  | EmptyString => st
  | String char r => scanObject (scanChar st char) r
  end.

(** [propNames] after the loop and the last property *)
Definition objectPropNames (objectContent : string) : list string :=
  let st := scanObject (mkScan [] EmptyString 0 false "000" None) objectContent in
  pushProperty (propNames st) (current st).

(** A line terminator among 8-bit code units: what [.] does not match. *)
Definition isLineTerminator (c : ascii) : bool :=
  N.eqb (Js.code c) 10 || N.eqb (Js.code c) 13.

(** The test for a quoted string: a quote first, a quote last, and no line
    terminator between them. *)
Definition isQuotedString (s : string) : bool :=
  match s with
  | String c (String d r) =>
      isQuote c
      && match Js.last_char (String d r) with
         | Some e => isQuote e
         | None => false
         end
      && negb (Js.exists_char isLineTerminator (Js.drop_last (String d r)))
  | _ => false
  end.

Definition normalizeAppEventArg (arg : string) : string :=
  let trimmed := Js.trim arg in
  if Js.startsWith trimmed "{" && Js.endsWithChar trimmed "}" then
    match objectPropNames (Js.slice_1_m1 trimmed) with
    | [] => "object"
    | propNames => ("{" ++ Js.join "," (Js.sortS propNames) ++ "}")%string
    end
  else if isQuotedString trimmed then "string"
  else if is_digits1 trimmed then "number"
  else if String.eqb trimmed "true" || String.eqb trimmed "false" then "boolean"
  else if Js.startsWith trimmed "[" && Js.endsWithChar trimmed "]" then "array"
  else if String.eqb trimmed "null" then "null"
  else trimmed.

(** The longest prefix of [s] whose characters satisfy [p], and the rest. *)
Fixpoint span (p : ascii -> bool) (s : string) : string * string :=
  match s with
  | EmptyString => (EmptyString, EmptyString)
  | String c r =>
      if p c then let '(a, b) := span p r in (String c a, b)
      else (EmptyString, s)
  end.

Fixpoint dropPrefix (p s : string) : option string :=
  match p, s with
  | EmptyString, _ => Some s
  | String a p', String b s' => if Ascii.eqb a b then dropPrefix p' s' else None
  | _, EmptyString => None
  end.

(** [s.replace(re, f)] for a global pattern: [matchAt] gives, for a match
    at the head of the string, its replacement and what follows the match.
    Matches are not empty, so [fuel] above the length is never exhausted. *)
Fixpoint replaceAll (fuel : nat) (matchAt : string -> option (string * string))
  (s : string) : string :=
  match fuel with
  | O => s
  | S fuel' =>
      match matchAt s with
      | Some (replacement, rest) =>
          (replacement ++ replaceAll fuel' matchAt rest)%string
      | None =>
          match s with
          | EmptyString => EmptyString
          | String c r => String c (replaceAll fuel' matchAt r)
          end
      end
  end.

Definition notBrace (c : ascii) : bool := negb (Ascii.eqb c "}").

(** [content.split(/\s+/)]; [afterSpace] says that the previous character
    belongs to a separator. *)
Fixpoint splitSpacesFrom (afterSpace : bool) (s : string) : list string :=
  match s with
  | EmptyString => [EmptyString]
  | String c r =>
      if Js.is_space c then
        if afterSpace then splitSpacesFrom true r
        else EmptyString :: splitSpacesFrom true r
      else match splitSpacesFrom false r with
           | [] => [String c EmptyString]
           | h :: t => String c h :: t
           end
  end.

Definition splitSpaces (s : string) : list string := splitSpacesFrom false s.

(** [pair.split("=")[0]] *)
Definition keyOfPair (pair : string) : string :=
  hd EmptyString (Js.split_char "=" pair).

(** The first pattern of [normalizeArgument], at the head of [s]: the text
    [{{hash], white space, group 1 made of characters other than a closing
    brace, and [}}].  When only white space precedes the closing braces the
    white-space run gives its last character to group 1. *)
Definition matchHash (s : string) : option (string * string) :=
  match dropPrefix "{{hash" s with
  | None => None
  | Some afterHash =>
      let '(body, rest) := span notBrace afterHash in
      match dropPrefix "}}" rest with
      | None => None
      | Some after =>
          let '(spaces, content) := span Js.is_space body in
          let group1 :=
            match spaces, content with
            | EmptyString, _ => None
            | _, String _ _ => Some content
            | String _ (String _ _), EmptyString =>
                match Js.last_char spaces with
                | Some c => Some (String c EmptyString)
                | None => None
                end
            | _, _ => None
            end in
          match group1 with
          | None => None
          | Some content' =>
              Some (("{{hash " ++
                     Js.join " " (map keyOfPair (splitSpaces content')) ++ "}}")%string,
                    after)
          end
      end
  end.

(** [content.match(/^[@\w.]+$/)] *)
Definition isValuePath (content : string) : bool :=
  negb (String.eqb content EmptyString)
  && Js.forall_chars
       (fun c => Ascii.eqb c "@" || Js.is_word c || Ascii.eqb c ".") content.

(** The second pattern: [{{], group 1 made of characters other than a closing
    brace, [}}]. *)
Definition matchMustache (s : string) : option (string * string) :=
  match dropPrefix "{{" s with
  | None => None
  | Some afterOpen =>
      match span notBrace afterOpen with
      | (EmptyString, _) => None
      | (content, rest) =>
          match dropPrefix "}}" rest with
          | None => None
          | Some after =>
              if Js.includes content "hash"
              then Some (("{{" ++ content ++ "}}")%string, after)
              else if isValuePath content then Some ("{{value}}", after)
              else Some (("{{" ++ content ++ "}}")%string, after)
          end
      end
  end.

(** The third pattern: [@], a word (group 1), [=], a quote (group 2),
    characters that are not quotes, and the same quote again. *)
Definition matchAttribute (s : string) : option (string * string) :=
  match s with
  | String c r =>
      if Ascii.eqb c "@" then
        match wordRun r with
        | (EmptyString, _) => None
        | (word, String e (String q r')) =>
            if Ascii.eqb e "=" && isQuote q then
              let '(_, rest) := span (fun c => negb (isQuote c)) r' in
              match rest with
              | String q' after =>
                  if Ascii.eqb q' q
                  then Some (("@" ++ word ++ "="
                              ++ String q ("string" ++ String q EmptyString))%string,
                             after)
                  else None
              | EmptyString => None
              end
            else None
        | _ => None
        end
      else None
  | EmptyString => None
  end.

Definition normalizeArgument (arg : string) : string :=
  let fuel s := S (String.length s) in
  let normalized1 := replaceAll (fuel arg) matchHash arg in
  let normalized2 := replaceAll (fuel normalized1) matchMustache normalized1 in
  replaceAll (fuel normalized2) matchAttribute normalized2.

(** ** The consolidation rule in the words of its description *)



(** *** The priorities in the words of the description *)











(** The example of the description: hook [X] at [v1], two call sites. *)
Definition exampleTwoFiles : list (list WorkerHook.t) :=
  [ aggregateHooks "v1.0.0"
      [ FoundHook.mk "X" value_transformer "a.js" [3] (Some ["topic"; "user"]);
        FoundHook.mk "X" value_transformer "b.js" [7] (Some ["topic"]) ] ].




(** ** Well-formed occurrences *)

(** A line set as the extractor builds it: strictly ascending. *)
Fixpoint strictlyAscending (l : list Z) : bool :=
  match l with
  | [] => true
  | x :: r =>
      match r with
      | [] => true
      | y :: _ => (x <? y) && strictlyAscending r
      end
  end.

(** The key of a worker's record, as [hookKey] builds it for an occurrence. *)
Definition recordKey (r : WorkerHook.t) : string :=
  (WorkerHook.name r ++ "|" ++ type_name (WorkerHook.type r) ++ "|"
   ++ WorkerHook.file r)%string.

(** ** The statistics of the report in the words of their description *)

(** The hook has a location at the latest version. *)
Definition presentIn (latestVersion : option string)
  (hook : HookData.t (list string)) : bool :=
  existsb (fun loc => isVersion latestVersion (Location.version loc))
    (HookData.locations hook).

(** The hook has more than one history entry. *)
Definition changed (hook : HookData.t (list string)) : bool :=
  Nat.ltb 1 (List.length (HookData.argumentHistory hook)).

(** The number of entries after the first. *)
Definition changesOf (hook : HookData.t (list string)) : Z :=
  Z.of_nat (List.length (HookData.argumentHistory hook)) - 1.

Definition sumZ (l : list Z) : Z := fold_right Z.add 0 l.

(** A hook whose signature changed and that is gone from the latest
    version, next to a hook that is still there. *)
Definition exampleRetired : list (list WorkerHook.t) :=
  [ [ WorkerHook.mk "old" value_transformer "a.js" [1] ["topic"] "v1.0.0" ];
    [ WorkerHook.mk "old" value_transformer "a.js" [1] ["topic"; "user"] "v2.0.0" ];
    [ WorkerHook.mk "new" value_transformer "b.js" [1] ["post"] "v3.0.0" ] ].

(** ** Histories *)

(** All version memberships of a history, entry after entry. *)
Definition memberships {A : Type} (history : JsMap.t (HistoryEntry.t A))
  : list string :=
  flat_map (fun kv => HistoryEntry.versions (snd kv)) history.



(** One hook, two versions; the worker of the later version finishes
    first. *)
Definition exampleOutOfOrder : list (list WorkerHook.t) :=
  [ [ WorkerHook.mk "X" value_transformer "a.js" [1] ["topic"] "v2.0.0" ];
    [ WorkerHook.mk "X" value_transformer "a.js" [1] ["topic"] "v1.0.0" ] ].

(** The same results in version order. *)
Definition exampleInOrder : list (list WorkerHook.t) :=
  [ [ WorkerHook.mk "X" value_transformer "a.js" [1] ["topic"] "v1.0.0" ];
    [ WorkerHook.mk "X" value_transformer "a.js" [1] ["topic"] "v2.0.0" ] ].

(** Workers finishing in version order; the raw arguments of the first
    version come back in the third. *)
Definition exampleRecurring : list (list WorkerHook.t) :=
  [ [ WorkerHook.mk "X" value_transformer "a.js" [1] ["string"] "v1.0.0" ];
    [ WorkerHook.mk "X" value_transformer "a.js" [1] ["x.topic"] "v2.0.0" ];
    [ WorkerHook.mk "X" value_transformer "a.js" [1] ["string"] "v3.0.0";
      WorkerHook.mk "X" value_transformer "b.js" [1] ["topic"] "v3.0.0" ] ].

(** The history entries of a hook: signature, first seen, members. *)
Definition historyOf (db : HooksDb) (name : string)
  : list (list string * string * list string) :=
  match JsMap.get db name with
  | Some hookData =>
      map (fun e => (HistoryEntry.arguments e, HistoryEntry.firstSeenVersion e,
                     HistoryEntry.versions e))
        (JsMap.values (HookData.argumentHistory hookData))
  | None => []
  end.

(** The least element of a non-empty list of versions under
    [compareVersions]. *)
Fixpoint minVersion (first : string) (rest : list string) : string :=
  match rest with
  | [] => first
  | v :: r =>
      let m := minVersion v r in
      if compareVersionsZ first m <=? 0 then first else m
  end.

Definition earliest (versions : list string) : option string :=
  match versions with
  | [] => None
  | v :: r => Some (minVersion v r)
  end.

(** ** Object literals *)

(** The scanner's view of a piece of text: outside any string at some depth,
    or inside a string opened by [quote], the previous character being a
    backslash or not. *)
Inductive Lex : Type :=
  | Outside
  | Inside (quote : ascii) (escaped : bool).

(** The text of one property: scanned from depth [depth] it meets no comma
    at depth 0 outside a string, and it ends outside any string at depth 0. *)
Fixpoint closedFrom (depth : Z) (lex : Lex) (p : string) : bool :=
  match p with
  | EmptyString =>
      (depth =? 0) && match lex with Outside => true | Inside _ _ => false end
  | String c r =>
      match lex with
      | Outside =>
          if isQuote c then closedFrom depth (Inside c false) r
          else if isOpen c then closedFrom (depth + 1) Outside r
          else if isClose c then closedFrom (depth - 1) Outside r
          else if Ascii.eqb c "," && (depth =? 0) then false
          else closedFrom depth Outside r
      | Inside quote escaped =>
          if Ascii.eqb c quote && negb escaped then closedFrom depth Outside r
          else closedFrom depth (Inside quote (Ascii.eqb c "\")) r
      end
  end.

Definition closedProperty (p : string) : bool := closedFrom 0 Outside p.

(** A handlebars hash with the given pairs of key and value, in source
    order. *)
Definition hashKey (k : string) : bool :=
  negb (String.eqb k EmptyString) && Js.forall_chars Js.is_word k.



Definition hashPair (kv : string * string) : string :=
  (fst kv ++ String "=" (snd kv))%string.




(** A list of strings in the order of [sort()]. *)
Fixpoint ascendingS (l : list string) : bool :=
  match l with
  | [] => true
  | x :: r =>
      match r with
      | [] => true
      | y :: _ => String.leb x y && ascendingS r
      end
  end.


(** ** The merge in the words of its description *)

(** All hook records in arrival order. *)
Definition occurrences (results : list (list WorkerHook.t)) : list WorkerHook.t :=
  List.concat results.

Definition sameLocationV (hook : WorkerHook.t) (loc : Location.t (list string))
  : bool :=
  String.eqb (Location.version loc) (WorkerHook.version hook)
  && String.eqb (Location.file loc) (WorkerHook.file hook).

(** Union of the lines, re-sorted; union of the arguments, re-sorted, for
    the two types that track arguments. *)
Definition mergedLocationV (hook : WorkerHook.t) (loc : Location.t (list string))
  : Location.t (list string) :=
  Location.mk (Location.version loc) (Location.file loc)
    (Js.sortZ (pushNewLines (Location.lines loc) (WorkerHook.lines hook)))
    (if tracksArguments (WorkerHook.type hook)
     then Js.sortS (Merge.pushNewArgs (Location.arguments loc)
                      (WorkerHook.arguments hook))
     else Location.arguments loc).

Fixpoint updateFoundV (hook : WorkerHook.t)
  (locs : list (Location.t (list string))) : list (Location.t (list string)) :=
  match locs with
  | [] => []
  | loc :: r =>
      if sameLocationV hook loc then mergedLocationV hook loc :: r
      else loc :: updateFoundV hook r
  end.

(** Find or create the location by (version, file). *)
Definition foldLocation (locs : list (Location.t (list string)))
  (hook : WorkerHook.t) : list (Location.t (list string)) :=
  match find (sameLocationV hook) locs with
  | None =>
      locs ++ [Location.mk (WorkerHook.version hook) (WorkerHook.file hook)
                 (WorkerHook.lines hook) (WorkerHook.arguments hook)]
  | Some _ => updateFoundV hook locs
  end.

(** The locations that a sequence of records of one hook folds into. *)
Definition locationsOf (occs : list WorkerHook.t)
  : list (Location.t (list string)) :=
  fold_left foldLocation occs [].

Definition named (name : string) (hook : WorkerHook.t) : bool :=
  String.eqb (WorkerHook.name hook) name.

Definition atVersion (version : string) (hook : WorkerHook.t) : bool :=
  String.eqb (WorkerHook.version hook) version.

Definition locatedAt {A : Type} (version : string) (loc : Location.t A) : bool :=
  String.eqb (Location.version loc) version.

(** The addresses of all locations of the index. *)
Definition allAddresses (db : JsMap.t (HookData.t nat)) : list nat :=
  flat_map (fun kv => map Location.arguments (HookData.locations (snd kv))) db.

(** No two worker results speak of the same version: every worker has a
    version of its own. *)
Fixpoint separateVersions (results : list (list WorkerHook.t)) : bool :=
  match results with
  | [] => true
  | hooks :: rest =>
      forallb
        (fun hooks' =>
           forallb
             (fun hook =>
                forallb
                  (fun hook' =>
                     negb (String.eqb (WorkerHook.version hook)
                             (WorkerHook.version hook')))
                  hooks')
             hooks)
        rest
      && separateVersions rest
  end.

(** What the merge keeps true, after the records [l] in arrival order: the
    keys of the index are the names met; no two locations share an argument
    array; a hook's locations, read through the store, are the fold of its
    records; its first version and its type are those of its first record. *)
Definition mergeInvariant (l : list WorkerHook.t) (st : Merge.State) : Prop :=
  NoDup (JsMap.keys (Merge.hooksDb st))
  /\ (forall n, In n (JsMap.keys (Merge.hooksDb st))
                <-> exists o, In o l /\ WorkerHook.name o = n)
  /\ NoDup (allAddresses (Merge.hooksDb st))
  /\ (forall a, In a (allAddresses (Merge.hooksDb st))
                -> (a < List.length (Merge.store st))%nat)
  /\ (forall n hd,
        JsMap.get (Merge.hooksDb st) n = Some hd ->
        HookData.name hd = n
        /\ map (Merge.readLocation (Merge.store st)) (HookData.locations hd)
           = locationsOf (filter (named n) l)
        /\ exists first,
             find (named n) l = Some first
             /\ HookData.firstVersion hd = WorkerHook.version first
             /\ HookData.type hd = WorkerHook.type first).

(** ** Inputs of the examples *)

(** Hook [X] with its two call sites of one version as two locations. *)
Definition exampleHook : HookData.t (list string) :=
  HookData.mk "X" value_transformer "v1.0.0"
    [ Location.mk "v1.0.0" "a.js" [3] ["topic"; "user"];
      Location.mk "v1.0.0" "b.js" [7] ["topic"] ]
    [].


(** One version, and its worker reports a caught failure. *)
Definition failingSchedule : list Scheduler.Event :=
  [ Scheduler.report 0 Scheduler.CaughtFailure ].

(** ** The scheduler as [run] calls it *)

(** [Math.min(os.cpus().length, versions.length, 10)] *)
Definition maxWorkersOf (cpus n : nat) : nat := Nat.min (Nat.min cpus n) 10.

(** The hook lists of the messages that carry hooks and timing, in the order
    of the events. *)
Definition delivered (evs : list Scheduler.Event) : list (list WorkerHook.t) :=
  flat_map
    (fun ev =>
       match ev with
       | Scheduler.OnMessage _ (Scheduler.HooksAndTiming hooks) => [hooks]
       | _ => []
       end)
    evs.

(** Three versions on two workers; the worker of the second version reports
    first. *)
Definition exampleSchedule : list Scheduler.Event :=
  [ Scheduler.report 1
      (Scheduler.Extracted
         [WorkerHook.mk "X" value_transformer "a.js" [1] ["topic"] "v2.0.0"]);
    Scheduler.report 0
      (Scheduler.Extracted
         [WorkerHook.mk "X" value_transformer "a.js" [1] ["topic"] "v1.0.0"]);
    Scheduler.report 2 Scheduler.UncaughtError ].

(** The slots: at most [m] workers, each on a version of its own that has
    been handed out. *)
Definition slots (n m : nat) (st : Scheduler.State) : Prop :=
  (List.length (Scheduler.workers st) <= m)%nat
  /\ NoDup (Scheduler.workers st)
  /\ Forall (fun w => (w < Scheduler.versionIndex st)%nat) (Scheduler.workers st)
  /\ (Scheduler.versionIndex st <= n)%nat.

(** ** The tables and lists of the report in the words of their description *)

(** The number of hooks of one type. *)
Definition hooksOfType (t : HookType) (hooks : list (HookData.t (list string)))
  : Z :=
  Z.of_nat (List.length (filter (fun h => HookType_eqb (HookData.type h) t) hooks)).

(** A count as a table of the report holds it: a type without hooks has no
    entry. *)
Definition tableEntry (c : Z) : option Z := if c =? 0 then None else Some c.

(** Every location of the index is at a version the catalog can return. *)
Definition versionsValid (db : HooksDb) : bool :=
  forallb
    (fun hook =>
       forallb (fun loc => valid_version (Location.version loc))
         (HookData.locations hook))
    (JsMap.values db).

(** [u] is not later than [v]: the comparator, as [sort] reads it, does
    not put [u] after [v]. *)
Definition notLater (u v : string) : Prop := compareVersionsZ u v <= 0.

(** [v] is the latest of [versions]. *)
Definition latestOf (versions : list string) (v : string) : Prop :=
  In v versions /\ forall u, In u versions -> notLater u v.

Definition versionsOfHook (hook : HookData.t (list string)) : list string :=
  map Location.version (HookData.locations hook).

Definition versionsOfIndex (db : HooksDb) : list string :=
  flat_map versionsOfHook (JsMap.values db).

(** ** The merged index in the words of its description *)

(** The place of a location and the place a record speaks of: a version and
    a file. *)
Definition placeOf {A : Type} (loc : Location.t A) : string * string :=
  (Location.version loc, Location.file loc).

Definition placeOfRecord (o : WorkerHook.t) : string * string :=
  (WorkerHook.version o, WorkerHook.file o).

(** The update of a raw history by one record: the last statements of the
    merge loop's body. *)
Definition recordHistory {A : Type} (history : JsMap.t (HistoryEntry.t A))
  (argKey : string) (args : A) (version : string) : JsMap.t (HistoryEntry.t A) :=
  let history1 :=
    if JsMap.has history argKey then history
    else JsMap.set history argKey (HistoryEntry.mk args version []) in
  match JsMap.get history1 argKey with
  | None => history1
  | Some e =>
      JsMap.set history1 argKey
        (HistoryEntry.mk (HistoryEntry.arguments e)
           (HistoryEntry.firstSeenVersion e)
           (HistoryEntry.versions e ++ [version]))
  end.

(** A hook of the report as the pipeline builds it: it has a location and a
    history entry, every entry starts its versions with its first seen
    version, and the versions of the history are those of the locations. *)
Definition wellFormedHook (h : ReportHook.t) : Prop :=
  ReportHook.locations h <> []
  /\ ReportHook.argumentHistory h <> []
  /\ 0 <= ReportHook.argumentChangeCount h
  /\ Forall
       (fun e =>
          1 <= ReportEntry.changeCount e
          /\ exists rest,
               ReportEntry.versions e = ReportEntry.firstSeenVersion e :: rest)
       (ReportHook.argumentHistory h)
  /\ forall v,
       (exists e, In e (ReportHook.argumentHistory h)
                  /\ In v (ReportEntry.versions e))
       <-> In v (map Location.version (ReportHook.locations h)).

(** Hook [X] of the example with two call sites, as the merge leaves it. *)
Definition exampleMerged : HookData.t (list string) :=
  Eval vm_compute in
    match JsMap.get (mergedIndex exampleTwoFiles) "X" with
    | Some hook => hook
    | None => exampleHook
    end.

(** What the fold of the records of one hook keeps true. *)
Definition placesInvariant (occs : list WorkerHook.t)
  (locs : list (Location.t (list string))) : Prop :=
  NoDup (map placeOf locs)
  /\ (forall p, In p (map placeOf locs)
                <-> exists o, In o occs /\ placeOfRecord o = p)
  /\ (forall loc x,
        In loc locs ->
        (In x (Location.lines loc)
         <-> exists o, In o occs /\ placeOfRecord o = placeOf loc
                       /\ In x (WorkerHook.lines o)))
  /\ (Forall (fun o => StronglySorted Z.lt (WorkerHook.lines o)) occs ->
      Forall (fun loc => StronglySorted Z.lt (Location.lines loc)) locs).

(** What the merge keeps true of the raw histories, after the records [l]. *)
Definition historyInvariant (l : list WorkerHook.t) (db : JsMap.t (HookData.t nat))
  : Prop :=
  forall n hd,
    JsMap.get db n = Some hd ->
    HookData.argumentHistory hd <> []
    /\ (forall k e, In (k, e) (HookData.argumentHistory hd) ->
          exists rest,
            HistoryEntry.versions e = HistoryEntry.firstSeenVersion e :: rest)
    /\ (forall v, In v (memberships (HookData.argumentHistory hd))
                  <-> exists o, In o l /\ WorkerHook.name o = n
                                /\ WorkerHook.version o = v).

(** ** Version Catalog: [getDiscourseVersions] *)

Definition newline : ascii := ascii_of_N 10.

Definition tab : ascii := ascii_of_N 9.

(** The text after the first occurrence of [sep] in [s], if there is one. *)
Fixpoint afterFirst (sep s : string) : option string :=
  match dropPrefix sep s with
  | Some r => Some r
  | None =>
      match s with
      | EmptyString => None
      | String _ r => afterFirst sep r
      end
  end.

(** The text before the first occurrence of [sep] in [s]; all of [s] when
    there is none. *)
Fixpoint beforeFirst (sep s : string) : string :=
  match dropPrefix sep s with
  | Some _ => EmptyString
  | None =>
      match s with
      | EmptyString => EmptyString
      | String c r => String c (beforeFirst sep r)
      end
  end.

(** [s.split(sep)[1]] for a separator that is not empty: the text between
    the first two occurrences of [sep], [undefined] without an occurrence. *)
Definition splitSecond (sep s : string) : option string :=
  option_map (beforeFirst sep) (afterFirst sep s).

(** [getDiscourseVersions()], the output of [git ls-remote --tags] being
    [tags]; [None] when [execSync] throws, which the [catch] turns into the
    empty list. *)
Definition getDiscourseVersions (tags : option string) : list string :=
  match tags with
  | None => []
  | Some tags =>
      let lines :=
        filter
          (fun line =>
             Js.includes line "refs/tags/v" && negb (Js.includes line "^{}"))
          (Js.split_char newline tags) in
      let names := map (splitSecond "refs/tags/") lines in
      let versions :=
        flat_map
          (fun tag =>
             match tag with
             | Some tag => if valid_tag tag then [tag] else []
             | None => []
             end)
          names in
      sortVersions versions ++ ["main"]
  end.

(** One line of the listing: an object name in hexadecimal, a tab and the
    full name of the reference. *)
Definition is_hex (c : ascii) : bool :=
  Js.is_digit c || Js.in_range 97 102 c.

Definition refLine (ref : string * string) : string :=
  (fst ref ++ String tab ("refs/tags/" ++ snd ref))%string.

Definition listing (refs : list (string * string)) : string :=
  Js.join (String newline EmptyString) (map refLine refs).

(** A reference as the listing names it: the object name is hexadecimal and
    the tag name has no line feed and no [refs/tags/] inside. *)
Definition plainRef (ref : string * string) : bool :=
  Js.forall_chars is_hex (fst ref)
  && negb (Js.exists_char (Ascii.eqb newline) (snd ref))
  && negb (Js.includes (snd ref) "refs/tags/").

(** The versions one line of the listing contributes. *)
Definition versionOfLine (line : string) : list string :=
  if Js.includes line "refs/tags/v" && negb (Js.includes line "^{}")
  then match splitSecond "refs/tags/" line with
       | Some tag => if valid_tag tag then [tag] else []
       | None => []
       end
  else [].


(** The characters of a tag name that the filter lets through. *)
Definition tagChar (c : ascii) : bool :=
  Ascii.eqb c "v" || Js.is_digit c || Ascii.eqb c ".".

(** ** Argument lists: [parseArguments] and [parseAppEventArgs] *)

(** The variables of the loop that both functions run over [cleaned];
    [prev] is [cleaned[i - 1]]. *)
Module ArgScan.
Record t : Type := mk {
  args : list string;
  current : string;
  depth : Z;
  inString : bool;
  stringChar : ascii;
  prev : option ascii
}.
End ArgScan.

(** [cleaned.replace(/^,\s*/, "")]: a comma at the start goes, with the
    white space after it. *)
Definition dropLeadingComma (s : string) : string :=
  match s with
  | String c r => if Ascii.eqb c "," then Js.trimStart r else s
  | EmptyString => EmptyString
  end.

(** The two functions are the same text up to the normaliser they call on
    an argument ([this.normalizeArgument], [this.normalizeAppEventArg]) and
    the sort at the end of [parseAppEventArgs]. *)
Section ArgumentList.
Variable normalize : string -> string.

(** [if (current.trim()) { args.push(normalize(current.trim())); }] *)
Definition pushArgument (args : list string) (current : string) : list string :=
  match Js.trim current with
  | EmptyString => args
  | trimmed => args ++ [normalize trimmed]
  end.

(** One iteration of the loop. *)
Definition scanArgChar (st : ArgScan.t) (char : ascii) : ArgScan.t :=
  let escaped := match ArgScan.prev st with
                 | Some p => Ascii.eqb p "\"
                 | None => false
                 end in
  if negb (ArgScan.inString st) && isQuote char then
    ArgScan.mk (ArgScan.args st) (appendChar (ArgScan.current st) char)
      (ArgScan.depth st) true char (Some char)
  else if ArgScan.inString st && Ascii.eqb char (ArgScan.stringChar st)
          && negb escaped then
    ArgScan.mk (ArgScan.args st) (appendChar (ArgScan.current st) char)
      (ArgScan.depth st) false (ArgScan.stringChar st) (Some char)
  else if negb (ArgScan.inString st) && isOpen char then
    ArgScan.mk (ArgScan.args st) (appendChar (ArgScan.current st) char)
      (ArgScan.depth st + 1) false (ArgScan.stringChar st) (Some char)
  else if negb (ArgScan.inString st) && isClose char then
    ArgScan.mk (ArgScan.args st) (appendChar (ArgScan.current st) char)
      (ArgScan.depth st - 1) false (ArgScan.stringChar st) (Some char)
  else if negb (ArgScan.inString st) && Ascii.eqb char ","
          && (ArgScan.depth st =? 0) then
    ArgScan.mk (pushArgument (ArgScan.args st) (ArgScan.current st)) EmptyString
      (ArgScan.depth st) false (ArgScan.stringChar st) (Some char)
  else
    ArgScan.mk (ArgScan.args st) (appendChar (ArgScan.current st) char)
      (ArgScan.depth st) (ArgScan.inString st) (ArgScan.stringChar st)
      (Some char).

Fixpoint scanArgs (st : ArgScan.t) (cleaned : string) : ArgScan.t :=
  match cleaned with
  | EmptyString => st
  | String char r => scanArgs (scanArgChar st char) r
  end.

(** The function from its first test to the last argument's push. *)
Definition parseArgumentList (argString : string) : list string :=
  if String.eqb (Js.trim argString) EmptyString then []
  else
    let cleaned := dropLeadingComma (Js.trim argString) in
    if String.eqb cleaned EmptyString then []
    else
      let st := scanArgs (ArgScan.mk [] EmptyString 0 false "000" None) cleaned in
      pushArgument (ArgScan.args st) (ArgScan.current st).
End ArgumentList.

Definition parseAppEventArgs (argString : string) : list string :=
  Js.sortS (parseArgumentList normalizeAppEventArg argString).

Definition parseArguments (argString : string) : list string :=
  parseArgumentList normalizeArgument argString.

(** The scanner's view of the text read so far. *)
Definition lexOfArgs (st : ArgScan.t) : Lex :=
  if ArgScan.inString st
  then Inside (ArgScan.stringChar st)
         (match ArgScan.prev st with
          | Some p => Ascii.eqb p "\"
          | None => false
          end)
  else Outside.

(** The arguments that a list of texts between top-level commas holds: the
    texts trimmed, without the blank ones. *)
Definition argumentsOf (texts : list string) : list string :=
  filter (fun t => negb (String.eqb t EmptyString)) (map Js.trim texts).

(** A text the normalisers of [parseArguments] leave as it is: no brace and
    no [@]. *)
Definition plainArgument (t : string) : bool :=
  negb (Js.exists_char (fun c => Ascii.eqb c "{" || Ascii.eqb c "@") t).

(** A list of texts with its first, or its last, text changed. *)
Definition mapFirst (f : string -> string) (l : list string) : list string :=
  match l with
  | [] => []
  | x :: r => f x :: r
  end.

Fixpoint mapLast (f : string -> string) (l : list string) : list string :=
  match l with
  | [] => []
  | [x] => [f x]
  | x :: r => x :: mapLast f r
  end.

(** ** Searching with a pattern *)

(** [s.match(re)] for a pattern without the [g] flag: the leftmost match.
    [matchAt] gives the match at the head of a text, if there is one. *)
Fixpoint firstMatch {R : Type} (matchAt : string -> option R) (s : string)
  : option R :=
  match matchAt s with
  | Some m => Some m
  | None =>
      match s with
      | EmptyString => None
      | String _ r => firstMatch matchAt r
      end
  end.

(** [while ((match = re.exec(content)) !== null)] for a pattern with the
    [g] flag: the matches from left to right, each search starting where
    the match before ended.  [matchAt] gives, for a match at the head of a
    text, its groups and what follows the match; the patterns of the
    program match at least one character.  [index] is the position of [s]
    in the content and [skip] the number of characters of [s] that belong
    to the match before.  A match is reported with [match.index], [match[0]]
    and its groups. *)
Fixpoint execAll {R : Type} (matchAt : string -> option (R * string))
  (index skip : nat) (s : string) : list (nat * string * R) :=
  match s with
  | EmptyString => []
  | String _ r =>
      match skip with
      | S k => execAll matchAt (S index) k r
      | O =>
          match matchAt s with
          | Some (groups, rest) =>
              let len := (String.length s - String.length rest)%nat in
              (index, String.substring 0 len s, groups)
              :: execAll matchAt (S index) (len - 1) r
          | None => execAll matchAt (S index) O r
          end
      end
  end.

(** ** Outlet arguments: [parsePluginOutletArgs], [parsePluginOutletHelperArgs] *)

(** A letter as a pattern with the [i] flag reads it. *)
Definition lower (c : ascii) : ascii :=
  if Js.in_range 65 90 c then ascii_of_N (Js.code c + 32) else c.

(** A literal of lower-case letters at the head of [s], with the [i] flag. *)
Fixpoint dropPrefixCI (p s : string) : option string :=
  match p, s with
  | EmptyString, _ => Some s
  | String a p', String b s' =>
      if Ascii.eqb a (lower b) then dropPrefixCI p' s' else None
  | _, EmptyString => None
  end.

(** [\s+] and then group 1, one character or more that [inside] accepts,
    at the head of [s].  The white space is taken greedily; when no
    character of the group follows it, it gives its last character to the
    group. *)
Definition spacesThenGroup (inside : ascii -> bool) (s : string) : option string :=
  let '(spaces, rest) := span Js.is_space s in
  match spaces with
  | EmptyString => None
  | String _ more =>
      match span inside rest with
      | (EmptyString, _) =>
          match more, Js.last_char spaces with
          | String _ _, Some c =>
              if inside c then Some (String c EmptyString) else None
          | _, _ => None
          end
      | (content, _) => Some content
      end
  end.

(** The pattern of the hash, at the head of [s]: an optional [lazy], [hash],
    white space and group 1.  [ci] is the [i] flag. *)
Definition matchHashContentAt (ci : bool) (inside : ascii -> bool) (s : string)
  : option string :=
  let drop := if ci then dropPrefixCI else dropPrefix in
  let withoutLazy :=
    match drop "hash" s with
    | Some r => spacesThenGroup inside r
    | None => None
    end in
  match drop "lazy" s with
  | Some r =>
      match drop "hash" r with
      | Some r' =>
          match spacesThenGroup inside r' with
          | Some content => Some content
          | None => withoutLazy
          end
      | None => withoutLazy
      end
  | None => withoutLazy
  end.

(** [argRegex], at the head of [s]: a word (group 1), white space and [=].
    The word is taken greedily; a shorter word is followed by a word
    character, never by white space or [=]. *)
Definition matchArgNameAt (s : string) : option (string * string) :=
  match wordRun s with
  | (EmptyString, _) => None
  | (word, rest) =>
      match Js.trimStart rest with
      | String c after => if Ascii.eqb c "=" then Some (word, after) else None
      | EmptyString => None
      end
  end.

(** The loop over [argRegex.exec(hashContent)] *)
Definition argNames (hashContent : string) : list string :=
  map snd (execAll matchArgNameAt 0 0 hashContent).

(** The pattern of the attribute, at the head of [s]: an at sign,
    [outletArgs] or [args], an equals sign between optional white space, two
    opening braces, group 1 made of characters other than a closing brace,
    and two closing braces. *)
Definition matchOutletArgsAt (s : string) : option string :=
  match s with
  | String c r =>
      if Ascii.eqb c "@" then
        let value (r1 : string) : option string :=
          match dropPrefix "=" (Js.trimStart r1) with
          | Some r2 =>
              match dropPrefix "{{" (Js.trimStart r2) with
              | Some r3 =>
                  match span notBrace r3 with
                  | (EmptyString, _) => None
                  | (content, rest) =>
                      match dropPrefix "}}" rest with
                      | Some _ => Some content
                      | None => None
                      end
                  end
              | None => None
              end
          | None => None
          end in
        match dropPrefix "outletArgs" r with
        | Some r1 =>
            match value r1 with
            | Some content => Some content
            | None =>
                match dropPrefix "args" r with
                | Some r1' => value r1'
                | None => None
                end
            end
        | None =>
            match dropPrefix "args" r with
            | Some r1 => value r1
            | None => None
            end
        end
      else None
  | EmptyString => None
  end.

Definition parsePluginOutletArgs (componentString : string) : list string :=
  match firstMatch matchOutletArgsAt componentString with
  | None => []
  | Some outletArgsContent =>
      match firstMatch (matchHashContentAt true notBrace) outletArgsContent with
      | Some hashContent => Js.sortS (argNames hashContent)
      | None => []
      end
  end.

Definition notParen (c : ascii) : bool := negb (Ascii.eqb c ")").

(** The pattern of the helper's [args], at the head of [s]: [args], an
    equals sign between optional white space, an opening parenthesis, group
    1 made of characters other than a closing parenthesis, and a closing
    parenthesis. *)
Definition matchHelperArgsAt (s : string) : option string :=
  match dropPrefix "args" s with
  | Some r1 =>
      match dropPrefix "=" (Js.trimStart r1) with
      | Some r2 =>
          match dropPrefix "(" (Js.trimStart r2) with
          | Some r3 =>
              match span notParen r3 with
              | (EmptyString, _) => None
              | (content, rest) =>
                  match dropPrefix ")" rest with
                  | Some _ => Some content
                  | None => None
                  end
              end
          | None => None
          end
      | None => None
      end
  | None => None
  end.

Definition parsePluginOutletHelperArgs (helperString : string) : list string :=
  match firstMatch matchHelperArgsAt helperString with
  | None => []
  | Some argsContent =>
      match firstMatch (matchHashContentAt false notParen) argsContent with
      | Some hashContent => Js.sortS (argNames hashContent)
      | None => []
      end
  end.

(** *** Outlets written with a hash *)

(** A value of a hash pair: no white space and no equals sign. *)
Definition pairValue (v : string) : bool :=
  Js.forall_chars (fun c => negb (Js.is_space c) && negb (Ascii.eqb c "=")) v.

(** A pair of a hash: a key made of word characters, and a value. *)
Definition plainPair (kv : string * string) : bool :=
  hashKey (fst kv) && pairValue (snd kv).

(** The pairs of a hash, in source order, as they are written. *)
Definition pairsText (pairs : list (string * string)) : string :=
  Js.join " " (map hashPair pairs).

(** An outlet component with its name and the pairs of its [@outletArgs]
    hash. *)
Definition outletComponent (name : string) (pairs : list (string * string))
  : string :=
  ("<PluginOutlet @name=" ++ String dquote (name ++ String dquote
     (" @outletArgs={{hash " ++ pairsText pairs ++ "}} />")))%string.

(** An outlet helper with its name and the pairs of its [args] hash. *)
Definition outletHelper (name : string) (pairs : list (string * string))
  : string :=
  ("{{plugin-outlet name=" ++ String dquote (name ++ String dquote
     (" args=(hash " ++ pairsText pairs ++ ")}}")))%string.

(** What may follow a value: nothing, or a space and the next key. *)
Definition afterValue (t : string) : Prop :=
  t = "" \/ exists d r, t = String " " (String d r) /\ Js.is_word d = true.

(** ** Hook Extractor: the patterns *)

Definition notQuote (c : ascii) : bool := negb (isQuote c).

(** A quote, group 1 made of characters that are not quotes, and a quote,
    at the head of [s]: the name and what follows the closing quote.  The
    name is taken greedily, so it ends at the first quote; the two quotes
    need not be the same. *)
Definition quotedName (s : string) : option (string * string) :=
  match s with
  | String q r =>
      if isQuote q then
        match span notQuote r with
        | (String c name, String _ after) => Some (String c name, after)
        | _ => None
        end
      else None
  | EmptyString => None
  end.

(** [\s+] at the head of [s] *)
Definition spaces1 (s : string) : option string :=
  match s with
  | String c r => if Js.is_space c then Some (Js.trimStart r) else None
  | EmptyString => None
  end.

(** The patterns of the three calls, at the head of [s]: the function,
    an opening parenthesis between optional white space, the quoted name
    (group 1), group 2 made of characters other than a closing parenthesis,
    and a closing parenthesis. *)
Definition matchCallAt (fn : string) (s : string)
  : option (string * string * string) :=
  match dropPrefix fn s with
  | Some r1 =>
      match dropPrefix "(" (Js.trimStart r1) with
      | Some r2 =>
          match quotedName (Js.trimStart r2) with
          | Some (name, r3) =>
              let '(args, r4) := span notParen r3 in
              match dropPrefix ")" r4 with
              | Some after => Some (name, args, after)
              | None => None
              end
          | None => None
          end
      | None => None
      end
  | None => None
  end.

(** [pluginOutletRegex], at the head of [s] *)
Definition matchOutletAt (s : string) : option (string * string) :=
  match dropPrefix "<PluginOutlet" s with
  | Some r1 =>
      match spaces1 r1 with
      | Some r2 =>
          match dropPrefix "@name" r2 with
          | Some r3 =>
              match dropPrefix "=" (Js.trimStart r3) with
              | Some r4 =>
                  match quotedName (Js.trimStart r4) with
                  | Some (name, r5) =>
                      let '(_, r6) := span (fun c => negb (Ascii.eqb c ">")) r5 in
                      match dropPrefix ">" r6 with
                      | Some after => Some (name, after)
                      | None => None
                      end
                  | None => None
                  end
              | None => None
              end
          | None => None
          end
      | None => None
      end
  | None => None
  end.

(** [pluginOutletHelperRegex], at the head of [s] *)
Definition matchHelperAt (s : string) : option (string * string) :=
  match dropPrefix "{{plugin-outlet" s with
  | Some r1 =>
      match spaces1 r1 with
      | Some r2 =>
          match dropPrefix "name" r2 with
          | Some r3 =>
              match dropPrefix "=" (Js.trimStart r3) with
              | Some r4 =>
                  match quotedName (Js.trimStart r4) with
                  | Some (name, r5) =>
                      let '(_, r6) := span notBrace r5 in
                      match dropPrefix "}}" r6 with
                      | Some after => Some (name, after)
                      | None => None
                      end
                  | None => None
                  end
              | None => None
              end
          | None => None
          end
      | None => None
      end
  | None => None
  end.

(** [findMultiLineHooks(content, filePath, dir, hooks)]: the occurrences it
    pushes, in the order of its five loops; [file] is
    [path.relative(dir, filePath)]. *)
Definition findMultiLineHooks (content file : string) : list FoundHook.t :=
  map (fun '(index, matched, (name, args)) =>
         FoundHook.mk name value_transformer file
           (getMatchLines content index matched)
           (Some (parseArguments args)))
    (execAll (matchCallAt "applyValueTransformer") 0 0 content)
  ++ map (fun '(index, matched, (name, args)) =>
            FoundHook.mk name app_event_trigger file
              (getMatchLines content index matched)
              (Some (parseAppEventArgs args)))
       (execAll (matchCallAt "appEvents.trigger") 0 0 content)
  ++ map (fun '(index, matched, (name, _)) =>
            FoundHook.mk name behavior_transformer file
              (getMatchLines content index matched)
              (Some []))
       (execAll (matchCallAt "applyBehaviorTransformer") 0 0 content)
  ++ map (fun '(index, matched, name) =>
            FoundHook.mk name plugin_outlet file
              (getMatchLines content index matched)
              (Some (parsePluginOutletArgs matched)))
       (execAll matchOutletAt 0 0 content)
  ++ map (fun '(index, matched, name) =>
            FoundHook.mk name plugin_outlet file
              (getMatchLines content index matched)
              (Some (parsePluginOutletHelperArgs matched)))
       (execAll matchHelperAt 0 0 content).

(** ** Hook Extractor: the single-line scan of [findHooks] *)

(** The five [searchPatterns], at the head of [s]: group 1. *)
Definition matchOutletLineAt (s : string) : option string :=
  match dropPrefix "<PluginOutlet" s with
  | Some r1 =>
      match spaces1 r1 with
      | Some r2 =>
          match dropPrefix "@name=" r2 with
          | Some r3 => option_map fst (quotedName r3)
          | None => None
          end
      | None => None
      end
  | None => None
  end.

Definition matchHelperLineAt (s : string) : option string :=
  match dropPrefix "{{plugin-outlet" s with
  | Some r1 =>
      match spaces1 r1 with
      | Some r2 =>
          match dropPrefix "name=" r2 with
          | Some r3 => option_map fst (quotedName r3)
          | None => None
          end
      | None => None
      end
  | None => None
  end.

Definition matchCallLineAt (fn : string) (s : string) : option string :=
  match dropPrefix fn s with
  | Some r1 =>
      match dropPrefix "(" r1 with
      | Some r2 => option_map fst (quotedName r2)
      | None => None
      end
  | None => None
  end.

Definition searchPatterns : list ((string -> option string) * HookType) :=
  [ (matchOutletLineAt, plugin_outlet);
    (matchHelperLineAt, plugin_outlet);
    (matchCallLineAt "applyValueTransformer", value_transformer);
    (matchCallLineAt "appEvents.trigger", app_event_trigger);
    (matchCallLineAt "applyBehaviorTransformer", behavior_transformer) ].

(** [String(n)] for a natural number *)
Fixpoint decimalFrom (fuel n : nat) (acc : string) : string :=
  match fuel with
  | O => acc
  | S fuel' =>
      let acc' := String (ascii_of_nat (48 + Nat.modulo n 10)) acc in
      if Nat.eqb (Nat.div n 10) 0 then acc'
      else decimalFrom fuel' (Nat.div n 10) acc'
  end.

Definition decimal (n : nat) : string := decimalFrom (S n) n EmptyString.

(** The body of [searchPatterns.forEach] for one line: [index] is the
    line's index in [content.split("\n")]. *)
Definition scanLineWith (file : string) (index : nat) (line : string)
  (hooks : list FoundHook.t) (entry : (string -> option string) * HookType)
  : list FoundHook.t :=
  let '(pattern, type) := entry in
  match firstMatch pattern line with
  | Some group1 =>
      hooks ++
      [FoundHook.mk
         (if String.eqb group1 EmptyString
          then (type_name type ++ "_" ++ decimal (List.length hooks))%string
          else group1)
         type file [Z.of_nat index + 1] None]
  | None => hooks
  end.

Definition scanLine (file : string) (hooks : list FoundHook.t)
  (indexed : nat * string) : list FoundHook.t :=
  fold_left (scanLineWith file (fst indexed) (snd indexed)) searchPatterns hooks.

(** [lines.forEach((line, index) => ...)] *)
Definition scanLines (file content : string) (hooks : list FoundHook.t)
  : list FoundHook.t :=
  let lines := Js.split_char newline content in
  fold_left (scanLine file) (combine (seq 0 (List.length lines)) lines) hooks.

(** ** Hook Extractor: the walk and [findHooks] *)

(** What [walkDirectory] reads of the file system: the entries of a
    directory in the order of [readdirSync], each a file with its content or
    a directory.  [item] is the name of the entry as [readdirSync] gives it:
    not empty, without a slash, and neither [.] nor [..]. *)
#[warnings="-register-all"]
Inductive Entry : Type :=
  | File (item : string) (content : string)
  | Directory (item : string) (items : list Entry).

(** [path.join] and [path.normalize] of Node on POSIX. *)
Module Path.

(** The segments of a path, resolved from left to right.  An empty segment
    and [.] are dropped.  [..] removes the segment before it; with no
    segment to remove, or [..] before it, it is kept in a relative path and
    dropped in an absolute one.  [kept] holds the segments kept so far, the
    last one first. *)
Fixpoint resolveSegments (isAbsolute : bool) (kept segments : list string)
  : list string :=
  match segments with
  | [] => rev kept
  | segment :: more =>
      if String.eqb segment "" || String.eqb segment "."
      then resolveSegments isAbsolute kept more
      else if String.eqb segment ".." then
        match kept with
        | last :: before =>
            if String.eqb last ".."
            then resolveSegments isAbsolute
                   (if isAbsolute then kept else segment :: kept) more
            else resolveSegments isAbsolute before more
        | [] =>
            resolveSegments isAbsolute
              (if isAbsolute then kept else [segment]) more
        end
      else resolveSegments isAbsolute (segment :: kept) more
  end.

(** [path.normalize(path)]: repeated slashes become one, [.] and [..] are
    resolved, a slash at the end is kept. *)
Definition normalize (path : string) : string :=
  match path with
  | EmptyString => "."
  | String first _ =>
      let isAbsolute := Ascii.eqb first "/" in
      let trailingSeparator := Js.endsWithChar path "/" in
      let resolved :=
        Js.join "/" (resolveSegments isAbsolute [] (Js.split_char "/" path)) in
      match resolved with
      | EmptyString =>
          if isAbsolute then "/" else if trailingSeparator then "./" else "."
      | _ =>
          ((if isAbsolute then "/" else "") ++ resolved
           ++ (if trailingSeparator then "/" else ""))%string
      end
  end.

(** [path.join(a, b)]: the arguments that are not empty, joined by a slash
    and normalised. *)
Definition join (a b : string) : string :=
  match a, b with
  | EmptyString, EmptyString => "."
  | EmptyString, _ => normalize b
  | _, EmptyString => normalize a
  | _, _ => normalize (a ++ "/" ++ b)
  end.

End Path.

(** [path.join(dir, item)] *)
Definition pathJoin (dir item : string) : string := Path.join dir item.

(** [path.relative(dir, ...)] of the path of the entry [item] of the
    directory at [relative] below [dir]: the names of the entries from [dir]
    down to [item], joined by slashes. *)
Definition relativeJoin (relative item : string) : string :=
  match relative with
  | EmptyString => item
  | _ => (relative ++ "/" ++ item)%string
  end.

(** The calls of [callback] that [walkDirectory(dir, callback)] makes for
    one entry of [dir], in order: the path [fullPath] of a file, with its
    path relative to the directory the walk started from and its content. *)
Fixpoint walkEntry (dir relative : string) (e : Entry)
  : list (string * string * string) :=
  match e with
  | File item content =>
      [(pathJoin dir item, relativeJoin relative item, content)]
  | Directory item items =>
      flat_map (walkEntry (pathJoin dir item) (relativeJoin relative item)) items
  end.

(** [walkDirectory(dir, callback)]; [None] is a directory that does not
    exist. *)
Definition walkDirectory (dir : string) (root : option (list Entry))
  : list (string * string * string) :=
  match root with
  | None => []
  | Some items => flat_map (walkEntry dir EmptyString) items
  end.

Section FindHooks.
(** [path.extname], the library's *)
Variable extname : string -> string.

Definition shouldAnalyzeFile (filePath : string) : bool :=
  Js.includesS [".js"; ".hbs"; ".gjs"; ".ts"] (extname filePath)
  && negb (Js.includes filePath "node_modules")
  && negb (Js.includes filePath ".git")
  && negb (Js.includes filePath "test")
  && negb (Js.includes filePath "spec").

(** The callback of [findHooks] for one file *)
Definition findHooksInFile (hooks : list FoundHook.t)
  (visited : string * string * string) : list FoundHook.t :=
  let '(filePath, file, content) := visited in
  if shouldAnalyzeFile filePath
  then scanLines file content (hooks ++ findMultiLineHooks content file)
  else hooks.

Definition findHooks (dir : string) (root : option (list Entry))
  : list FoundHook.t :=
  fold_left findHooksInFile (walkDirectory dir root) [].
End FindHooks.

(** [path.extname] on a path that does not end with a slash: the text from
    the last dot of the last component, unless that component has no dot,
    starts with its only dot, or is [..]. *)
Definition posixExtname (p : string) : string :=
  let base := last (Js.split_char "/" p) EmptyString in
  if String.eqb base ".." then EmptyString
  else
    match rev (Js.split_char "." base) with
    | ext :: stem1 :: stems =>
        if String.eqb (Js.join "." (rev (stem1 :: stems))) EmptyString
        then EmptyString
        else String "." ext
    | _ => EmptyString
    end.

(** The worker's analysis of one version whose snapshot is [root]. *)
Definition processVersion (extname : string -> string) (workDir version : string)
  (root : option (list Entry)) : list WorkerHook.t :=
  aggregateHooks version (findHooks extname (pathJoin workDir version) root).

(** A small snapshot. *)
Definition exampleSnapshot : list Entry :=
  [ Directory "app"
      [ File "topic.hbs"
          ("<div>" ++ String newline
             ("  <PluginOutlet @name=" ++ String dquote ("topic-footer" ++ String dquote
                (String newline
                   ("    @outletArgs={{hash topic=@topic user=this.user}} />" ++ String newline
                      "</div>")))));
        File "events.js"
          ("this.appEvents.trigger('post:created', post, { b: 1, a: 2 });" ++ String newline
             "applyValueTransformer('post-class', value, { post });");
        Directory "tests" [ File "x.js" "applyValueTransformer('hidden', v);" ];
        File "notes.md" "applyValueTransformer('ignored', v);" ] ].


(** An occurrence as the extractor pushes it: a name that is not empty and
    has no quote, lines that are not empty, start at 1 or later and are
    strictly ascending; a behaviour transformer has no arguments, and the
    arguments of an event or an outlet are sorted. *)
Definition wellFormedOccurrence (h : FoundHook.t) : Prop :=
  FoundHook.name h <> EmptyString
  /\ Js.forall_chars notQuote (FoundHook.name h) = true
  /\ FoundHook.lines h <> []
  /\ strictlyAscending (FoundHook.lines h) = true
  /\ Forall (fun line => 1 <= line) (FoundHook.lines h)
  /\ match FoundHook.arguments h with
     | Some args =>
         (FoundHook.type h = behavior_transformer -> args = [])
         /\ (FoundHook.type h <> value_transformer -> ascendingS args = true)
     | None => True
     end.

(** The words that keep a file from the analysis when its path has one. *)
Definition excludedWords : list string := ["node_modules"; ".git"; "test"; "spec"].

(** A name as [readdirSync] gives it: not empty, without a slash, and
    neither [.] nor [..]. *)
Definition plainName (item : string) : bool :=
  negb (String.eqb item "")
  && Js.forall_chars (fun c => negb (Ascii.eqb c "/")) item
  && negb (String.eqb item ".")
  && negb (String.eqb item "..").

(** The path of a directory as [path.join] returns it: plain names behind
    slashes, with or without a slash at the start; not the root alone. *)
Definition normalDir (dir : string) : bool :=
  match Js.split_char "/" dir with
  | first :: names =>
      forallb plainName names
      && (plainName first
          || (String.eqb first ""
              && match names with [] => false | _ => true end))
  | [] => false
  end.

(** The names of a snapshot are names of directory entries. *)
Fixpoint plainEntry (e : Entry) : bool :=
  match e with
  | File item _ => plainName item
  | Directory item items => plainName item && forallb plainEntry items
  end.

(** An occurrence of a file that the walk visited and the filter let
    through. *)
Definition foundIn (extname : string -> string)
  (walked : list (string * string * string)) (h : FoundHook.t) : Prop :=
  wellFormedOccurrence h
  /\ exists filePath content,
       In (filePath, FoundHook.file h, content) walked
       /\ shouldAnalyzeFile extname filePath = true.

(** A record of a worker's message as the analysis of a snapshot builds
    it. *)
Definition wellFormedRecord (version : string) (r : WorkerHook.t) : Prop :=
  WorkerHook.version r = version
  /\ WorkerHook.name r <> EmptyString
  /\ WorkerHook.lines r <> []
  /\ strictlyAscending (WorkerHook.lines r) = true
  /\ (WorkerHook.type r = behavior_transformer -> WorkerHook.arguments r = []).

(** ** Viewer: [compareVersions], [createLineRanges] *)

Module Range.
Record t : Type := mk {
  start : Z;
  (* [end] in the source *)
  end_ : Z
}.
End Range.

Module Viewer.

(** [const parseVersion = (v) => v.replace(/^v/, "").split(".").map(Number)]:
    the pattern is anchored, only a leading [v] is removed. *)
Definition parseVersion (v : string) : list (option Z) :=
  map Number
    (Js.split_char "."
       (match v with
        | String c r => if Ascii.eqb c "v" then r else v
        | EmptyString => v
        end)).

Definition compareVersions (a b : string) : option Z :=
  if String.eqb a "main" && String.eqb b "main" then Some 0
  else if String.eqb a "main" then Some 1
  else if String.eqb b "main" then Some (-1)
  else
    let pa := parseVersion a in
    let pb := parseVersion b in
    match partAt pa 0, partAt pb 0 with
    | Some aMajor, Some bMajor =>
        if differ aMajor bMajor then difference aMajor bMajor
        else
          match partAt pa 1, partAt pb 1 with
          | Some aMinor, Some bMinor =>
              if differ aMinor bMinor then difference aMinor bMinor
              else
                match partAt pa 2, partAt pb 2 with
                | Some aPatch, Some bPatch => difference aPatch bPatch
                | _, _ => None
                end
          | _, _ => None
          end
    | _, _ => None
    end.

(** The loop of [createLineRanges] over [sortedLines[1..]] and the push
    after it.  The lines are the line numbers of a file, whole numbers
    below [2 ^ 53], for which [rangeEnd + 1] is the sum of the integers;
    from [2 ^ 53] on the sum of the program is rounded. *)
Fixpoint rangesFrom (ranges : list Range.t) (rangeStart rangeEnd : Z)
  (rest : list Z) : list Range.t :=
  match rest with
  | [] => ranges ++ [Range.mk rangeStart rangeEnd]
  | currentLine :: more =>
      if currentLine =? rangeEnd + 1
      then rangesFrom ranges rangeStart currentLine more
      else rangesFrom (ranges ++ [Range.mk rangeStart rangeEnd])
             currentLine currentLine more
  end.

Definition createLineRanges (sortedLines : list Z) : list Range.t :=
  match sortedLines with
  | [] => []
  | first :: rest => rangesFrom [] first first rest
  end.

End Viewer.

(** The lines a range stands for: [start], [start + 1], ..., [end]. *)
Definition linesOf (range : Range.t) : list Z :=
  map (fun i => Range.start range + Z.of_nat i)
    (seq 0 (Z.to_nat (Range.end_ range - Range.start range + 1))).

(** No range starts on the line after the end of the range before it. *)
Fixpoint separated (ranges : list Range.t) : bool :=
  match ranges with
  | a :: (b :: _) as rest =>
      negb (Range.start b =? Range.end_ a + 1) && separated rest
  | _ => true
  end.

(** * Properties *)

(** ** Insertion-ordered maps *)

Section JsMapFacts.
Context {V : Type}.
Implicit Types (m : JsMap.t V) (k : string) (v : V).

Lemma get_set_same m k v : JsMap.get (JsMap.set m k v) k = Some v.
Proof.
  induction m as [|[k' v'] r IH]; simpl.
  - now rewrite String.eqb_refl.
  - destruct (String.eqb k' k) eqn:E; simpl; rewrite E; auto.
Qed.

Lemma get_set_other m k k' v :
  k <> k' -> JsMap.get (JsMap.set m k v) k' = JsMap.get m k'.
Proof.
  intros N. induction m as [|[k0 v0] r IH]; simpl.
  - apply String.eqb_neq in N. now rewrite N.
  - destruct (String.eqb k0 k) eqn:E; simpl.
    + apply String.eqb_eq in E. subst k0.
      apply String.eqb_neq in N. now rewrite N.
    + now rewrite IH.
Qed.

Lemma get_In m k v : JsMap.get m k = Some v -> In (k, v) m.
Proof.
  induction m as [|[k' v'] r IH]; simpl; [discriminate|].
  destruct (String.eqb k' k) eqn:E.
  - apply String.eqb_eq in E. intros [= ->]. left. now subst.
  - auto.
Qed.

Lemma get_None_keys m k : JsMap.get m k = None <-> ~ In k (JsMap.keys m).
Proof.
  induction m as [|[k' v'] r IH]; simpl; [tauto|].
  destruct (String.eqb_spec k' k) as [->|N].
  - split; [discriminate|tauto].
  - rewrite IH. tauto.
Qed.

Lemma In_get m k v :
  NoDup (JsMap.keys m) -> In (k, v) m -> JsMap.get m k = Some v.
Proof.
  induction m as [|[k' v'] r IH]; simpl; [tauto|].
  intros ND. inversion ND as [|? ? Hn ND']; subst.
  intros [[= -> ->]|H].
  - now rewrite String.eqb_refl.
  - destruct (String.eqb_spec k' k) as [->|N]; [|auto].
    exfalso. apply Hn. change k with (fst (k, v)). now apply in_map.
Qed.

Lemma keys_set_present m k v :
  In k (JsMap.keys m) -> JsMap.keys (JsMap.set m k v) = JsMap.keys m.
Proof.
  induction m as [|[k' v'] r IH]; simpl; [tauto|].
  destruct (String.eqb_spec k' k) as [->|N]; simpl; [reflexivity|].
  intros [E|H]; [congruence|]. now rewrite IH.
Qed.

Lemma keys_set_absent m k v :
  ~ In k (JsMap.keys m) -> JsMap.keys (JsMap.set m k v) = JsMap.keys m ++ [k].
Proof.
  induction m as [|[k' v'] r IH]; simpl; [reflexivity|].
  destruct (String.eqb_spec k' k) as [->|N]; simpl; [tauto|].
  intros H. rewrite IH; tauto.
Qed.

Lemma NoDup_keys_set m k v :
  NoDup (JsMap.keys m) -> NoDup (JsMap.keys (JsMap.set m k v)).
Proof.
  intros ND. destruct (in_dec string_dec k (JsMap.keys m)) as [I|I].
  - now rewrite keys_set_present.
  - rewrite keys_set_absent by assumption.
    apply NoDup_app; [assumption|repeat constructor; simpl; tauto|].
    intros x Hx [<-|[]]. tauto.
Qed.

Lemma In_values_get m v :
  NoDup (JsMap.keys m) ->
  In v (JsMap.values m) -> exists k, JsMap.get m k = Some v.
Proof.
  intros ND H. apply in_map_iff in H as ([k v'] & <- & H).
  exists k. now apply In_get.
Qed.
End JsMapFacts.

(** ** Sorting and the line sets *)

Section SortFacts.
Context {A : Type} (le : A -> A -> bool).

Lemma insert_perm (x : A) (l : list A) :
  Permutation (Js.insert le x l) (x :: l).
Proof.
  induction l as [|y r IH]; simpl; [reflexivity|].
  destruct (le x y); [reflexivity|].
  rewrite IH. apply perm_swap.
Qed.

Lemma sort_perm (l : list A) : Permutation (Js.sort le l) l.
Proof.
  induction l as [|x r IH]; simpl; [reflexivity|].
  rewrite insert_perm. now constructor.
Qed.
End SortFacts.

Lemma strictlyAscending_sorted (l : list Z) :
  strictlyAscending l = true <-> StronglySorted Z.lt l.
Proof.
  induction l as [|x r IH]; [split; [constructor|reflexivity]|].
  destruct r as [|y r'].
  - split; [repeat constructor|reflexivity].
  - change (strictlyAscending (x :: y :: r'))
      with ((x <? y) && strictlyAscending (y :: r')).
    rewrite andb_true_iff, Z.ltb_lt, IH. split.
    + intros [L S]. constructor; [assumption|].
      constructor; [assumption|].
      inversion S as [|? ? _ F]; subst.
      eapply Forall_impl; [|exact F]. intros; simpl in *; lia.
    + intros S. inversion S as [|? ? S' F]; subst.
      split; [now inversion F|assumption].
Qed.

Lemma insertZ_strict (x : Z) (l : list Z) :
  StronglySorted Z.lt l -> ~ In x l ->
  StronglySorted Z.lt (Js.insert Z.leb x l).
Proof.
  induction l as [|y r IH]; simpl; intros S N.
  - repeat constructor.
  - inversion S as [|? ? S' F]; subst.
    destruct (Z.leb_spec x y).
    + assert (x <> y) by (intros ->; apply N; now left).
      assert (x < y) by lia.
      constructor; [assumption|]. constructor; [assumption|].
      eapply Forall_impl; [|exact F]. intros; simpl in *; lia.
    + constructor; [apply IH; [assumption|intros Hx; apply N; now right]|].
      apply Forall_forall. intros z Hz.
      apply (Permutation_in _ (insert_perm Z.leb x r)) in Hz.
      destruct Hz as [<-|Hz]; [lia|].
      rewrite Forall_forall in F. now apply F.
Qed.

Lemma sortZ_strict (l : list Z) :
  NoDup l -> StronglySorted Z.lt (Js.sortZ l).
Proof.
  unfold Js.sortZ. induction l as [|x r IH]; simpl; intros ND.
  - constructor.
  - inversion ND; subst. apply insertZ_strict; [auto|].
    intros H. apply (Permutation_in _ (sort_perm Z.leb r)) in H. tauto.
Qed.

Lemma sortZ_In (l : list Z) (x : Z) : In x (Js.sortZ l) <-> In x l.
Proof.
  split; apply Permutation_in;
    [apply sort_perm | symmetry; apply sort_perm].
Qed.


Lemma StronglySorted_lt_NoDup (l : list Z) :
  StronglySorted Z.lt l -> NoDup l.
Proof.
  induction 1 as [|x r S IH F]; constructor; [|assumption].
  intros H. rewrite Forall_forall in F. specialize (F _ H). lia.
Qed.

Lemma includesZ_In (l : list Z) (x : Z) :
  Js.includesZ l x = true <-> In x l.
Proof.
  unfold Js.includesZ. rewrite existsb_exists. split.
  - intros (y & Hy & E). apply Z.eqb_eq in E. now subst.
  - intros H. exists x. split; [assumption|apply Z.eqb_refl].
Qed.

Lemma pushNewLines_In (newLines existing : list Z) (x : Z) :
  In x (pushNewLines existing newLines) <-> In x existing \/ In x newLines.
Proof.
  unfold pushNewLines. revert existing.
  induction newLines as [|y r IH]; simpl; intros existing; [tauto|].
  rewrite IH. destruct (Js.includesZ existing y) eqn:E.
  - apply includesZ_In in E. intuition (subst; auto).
  - rewrite in_app_iff. simpl. tauto.
Qed.

Lemma pushNewLines_NoDup (newLines existing : list Z) :
  NoDup existing -> NoDup (pushNewLines existing newLines).
Proof.
  unfold pushNewLines. revert existing.
  induction newLines as [|y r IH]; simpl; intros existing ND; [assumption|].
  apply IH. destruct (Js.includesZ existing y) eqn:E; [assumption|].
  apply NoDup_app; [assumption|repeat constructor; simpl; tauto|].
  intros z Hz [<-|[]]. apply includesZ_In in Hz. congruence.
Qed.


(** The line set of a record after one more occurrence. *)
Lemma mergedLines_strict (existing newLines : list Z) :
  StronglySorted Z.lt existing ->
  StronglySorted Z.lt (Js.sortZ (pushNewLines existing newLines)).
Proof.
  intros S. apply sortZ_strict, pushNewLines_NoDup.
  now apply StronglySorted_lt_NoDup.
Qed.

Lemma mergedLines_In (existing newLines : list Z) (x : Z) :
  In x (Js.sortZ (pushNewLines existing newLines))
  <-> In x existing \/ In x newLines.
Proof. now rewrite sortZ_In, pushNewLines_In. Qed.


Section JsMapShape.
Context {V : Type}.
Implicit Types (m : JsMap.t V) (k : string) (v : V).

Lemma set_absent m k v : JsMap.get m k = None -> JsMap.set m k v = m ++ [(k, v)].
Proof.
  induction m as [|[k' v'] r IH]; simpl; [reflexivity|].
  destruct (String.eqb k' k); [discriminate|]. intros H. now rewrite IH.
Qed.

Lemma set_present m k v0 v :
  JsMap.get m k = Some v0 ->
  exists before after,
    m = before ++ (k, v0) :: after
    /\ JsMap.set m k v = before ++ (k, v) :: after
    /\ JsMap.get before k = None.
Proof.
  induction m as [|[k' v'] r IH]; simpl; [discriminate|].
  destruct (String.eqb_spec k' k) as [->|N].
  - intros [= ->]. now exists [], r.
  - intros H. destruct (IH H) as (b & a & -> & E & G).
    exists ((k', v') :: b), a. simpl. rewrite E.
    apply String.eqb_neq in N. now rewrite N.
Qed.

Lemma set_absent_update m k v v' :
  JsMap.get m k = None ->
  JsMap.set (m ++ [(k, v)]) k v' = m ++ [(k, v')].
Proof.
  induction m as [|[k0 v0] r IH]; simpl.
  - now rewrite String.eqb_refl.
  - destruct (String.eqb k0 k); [discriminate|]. intros H. now rewrite IH.
Qed.

Lemma has_get m k : JsMap.has m k = true <-> exists v, JsMap.get m k = Some v.
Proof.
  unfold JsMap.has. destruct (JsMap.get m k); split; eauto; try discriminate.
  intros [? ?]. discriminate.
Qed.

Lemma has_false m k : JsMap.has m k = false <-> JsMap.get m k = None.
Proof.
  unfold JsMap.has. destruct (JsMap.get m k); split; congruence.
Qed.
End JsMapShape.


Lemma get_map_value {A B : Type} (f : A -> B) (m : JsMap.t A) (k : string) :
  JsMap.get (map (fun kv => (fst kv, f (snd kv))) m) k
  = option_map f (JsMap.get m k).
Proof.
  induction m as [|[k' v'] r IH]; simpl; [reflexivity|].
  destruct (String.eqb k' k); [reflexivity|assumption].
Qed.


(** ** Lists *)

Lemma NoDup_flat_map_disjoint {A B : Type} (f : A -> list B) (l : list A) :
  NoDup (flat_map f l) ->
  forall i j a b v,
    i <> j -> nth_error l i = Some a -> nth_error l j = Some b ->
    In v (f a) -> ~ In v (f b).
Proof.
  induction l as [|x r IH]; simpl; intros ND i j a b v Hij Hi Hj Ha Hb.
  - destruct i; discriminate.
  - apply NoDup_app_remove_l in ND as NDr.
    assert (D : forall y z, nth_error r y = Some z -> In v (f x) -> In v (f z) -> False).
    { intros y z Hy Hx Hz.
      assert (Hin : In v (flat_map f r))
        by (apply in_flat_map; exists z; split; [eapply nth_error_In; eauto|assumption]).
      clear - ND Hx Hin. induction (f x) as [|w t IHt]; simpl in *; [tauto|].
      inversion ND as [|? ? Hn ND']; subst.
      destruct Hx as [->|Hx]; [|auto].
      apply Hn. apply in_app_iff. now right. }
    destruct i as [|i], j as [|j]; simpl in *.
    + congruence.
    + injection Hi as ->. eauto.
    + injection Hj as ->. eauto.
    + eapply (IH NDr i j); eauto.
Qed.

(** ** [JSON.stringify] is injective on arrays of strings *)

Lemma string_app_assoc (a b c : string) :
  ((a ++ b) ++ c)%string = (a ++ b ++ c)%string.
Proof. induction a as [|x a IH]; simpl; [reflexivity|now rewrite IH]. Qed.

Lemma json_unescape_escape (c : ascii) (r : string) :
  json_unescape (json_escape c ++ r) = Some (c, r).
Proof.
  destruct c as [[] [] [] [] [] [] [] []]; reflexivity.
Qed.

Lemma json_unescape_quote (r : string) :
  json_unescape (String dquote r) = None.
Proof. reflexivity. Qed.

Lemma json_escape_all_inj (s1 : string) :
  forall s2 r1 r2,
    (json_escape_all s1 ++ String dquote r1)%string
    = (json_escape_all s2 ++ String dquote r2)%string ->
    s1 = s2 /\ r1 = r2.
Proof.
  induction s1 as [|c1 s1 IH]; intros [|c2 s2] r1 r2; simpl; intros E.
  - now injection E.
  - apply (f_equal json_unescape) in E.
    rewrite string_app_assoc, json_unescape_escape in E. discriminate.
  - apply (f_equal json_unescape) in E.
    rewrite string_app_assoc, json_unescape_escape in E. discriminate.
  - apply (f_equal json_unescape) in E.
    rewrite !string_app_assoc, !json_unescape_escape in E.
    injection E as -> E. destruct (IH _ _ _ E) as [-> ->]. auto.
Qed.

Lemma json_quote_inj (s1 s2 r1 r2 : string) :
  (json_quote s1 ++ r1)%string = (json_quote s2 ++ r2)%string ->
  s1 = s2 /\ r1 = r2.
Proof.
  unfold json_quote. simpl. rewrite !string_app_assoc. simpl.
  intros [= E]. now apply json_escape_all_inj.
Qed.

Lemma join_quoted_cons (x : string) (l : list string) (r : string) :
  (Js.join "," (map json_quote (x :: l)) ++ r)%string
  = (json_quote x
     ++ match l with
        | [] => r
        | _ => String "," (Js.join "," (map json_quote l) ++ r)
        end)%string.
Proof.
  destruct l as [|y l]; [reflexivity|].
  change (Js.join "," (map json_quote (x :: y :: l)))
    with (json_quote x ++ String "," (Js.join "," (map json_quote (y :: l))))%string.
  now rewrite string_app_assoc.
Qed.

Lemma join_quoted_inj (l1 : list string) :
  forall l2,
    (Js.join "," (map json_quote l1) ++ "]")%string
    = (Js.join "," (map json_quote l2) ++ "]")%string ->
    l1 = l2.
Proof.
  induction l1 as [|x1 l1 IH]; intros [|x2 l2] E.
  - reflexivity.
  - rewrite join_quoted_cons in E. discriminate.
  - rewrite join_quoted_cons in E. discriminate.
  - rewrite !join_quoted_cons in E. apply json_quote_inj in E as [-> E].
    f_equal. destruct l1 as [|y1 l1], l2 as [|y2 l2]; try discriminate.
    + reflexivity.
    + injection E as E. now apply IH.
Qed.

Lemma JSON_stringify_inj (l1 l2 : list string) :
  JSON_stringify l1 = JSON_stringify l2 -> l1 = l2.
Proof.
  unfold JSON_stringify. simpl. intros [= E]. now apply join_quoted_inj.
Qed.

(** ** Version Catalog *)

(** *** Numbers *)

Lemma infinity_large : 2 ^ 53 < infinity.
Proof. unfold infinity. apply Z.pow_lt_mono_r; lia. Qed.


(** The leading bits of an integer of more than 53 bits are not zero. *)
Lemma leading_bits_pos (m : Z) :
  0 < Z.log2 m - 52 -> 0 < Z.shiftr m (Z.log2 m - 52).
Proof.
  intros L. assert (P : 0 < m).
  { destruct (Z_lt_le_dec 0 m) as [|N]; [assumption|].
    rewrite (Z.log2_nonpos m N) in L. lia. }
  rewrite Z.shiftr_div_pow2 by lia.
  apply Z.div_str_pos. split; [apply Z.pow_pos_nonneg; lia|].
  destruct (Z.log2_spec m P) as [Lo _].
  apply Z.le_trans with (2 ^ Z.log2 m); [|exact Lo].
  apply Z.pow_le_mono_r; lia.
Qed.

Lemma rounded_pos (m : Z) :
  let e := Z.log2 m - 52 in
  let q := Z.shiftr m e in
  let r := m - Z.shiftl q e in
  let half := Z.shiftl 1 (e - 1) in
  let q' := if (half <? r) || ((r =? half) && Z.odd q) then q + 1 else q in
  0 < e -> 0 < Z.min (Z.shiftl q' e) infinity.
Proof.
  intros e q r half q' L.
  assert (Q : 0 < q) by (now apply leading_bits_pos).
  assert (Q' : 0 < q') by (subst q'; destruct (_ || _); lia).
  assert (I : 0 < infinity) by (pose proof infinity_large; lia).
  rewrite Z.shiftl_mul_pow2 by lia.
  assert (0 < 2 ^ e) by (apply Z.pow_pos_nonneg; lia).
  apply Z.min_glb_lt; [nia|exact I].
Qed.

Lemma toDouble_sgn (z : Z) : Z.sgn (toDouble z) = Z.sgn z.
Proof.
  unfold toDouble.
  destruct (Z.leb_spec (Z.log2 (Z.abs z) - 52) 0) as [_|L]; [reflexivity|].
  pose proof (rounded_pos (Z.abs z) L) as R. cbv zeta in R.
  rewrite Z.sgn_mul, Z.sgn_sgn.
  rewrite (Z.sgn_pos _ R). lia.
Qed.

Lemma toDouble_range (z : Z) : 0 <= z -> 0 <= toDouble z <= infinity.
Proof.
  intros H. pose proof infinity_large as I. unfold toDouble.
  destruct (Z.leb_spec (Z.log2 (Z.abs z) - 52) 0) as [L|L].
  - split; [exact H|].
    destruct (Z.eq_dec z 0) as [->|N]; [lia|].
    assert (z < 2 ^ 53); [|lia].
    apply Z.log2_lt_pow2; [lia|]. rewrite Z.abs_eq in L by lia. lia.
  - pose proof (rounded_pos (Z.abs z) L) as R. cbv zeta in R.
    assert (P : 0 < z).
    { destruct (Z.eq_dec z 0) as [->|N]; [|lia].
      change (Z.log2 (Z.abs 0)) with 0 in L. lia. }
    cbv zeta. rewrite (Z.sgn_pos z P), Z.mul_1_l.
    split; [apply Z.lt_le_incl, R|apply Z.le_min_r].
Qed.

(** What [sort] reads in a difference of two numbers from 0 to infinity has
    the sign of the difference of the integers. *)
Lemma minus_sgn (x y : Z) :
  0 <= x <= infinity -> 0 <= y <= infinity ->
  Z.sgn (match minus x y with Some z => z | None => 0 end) = Z.sgn (x - y).
Proof.
  intros Hx Hy. pose proof infinity_large as I. unfold minus.
  destruct (Z.eqb_spec (Z.abs x) infinity) as [Ex|Nx].
  - destruct (Z.eqb_spec x y) as [->|N].
    + now rewrite Z.sub_diag.
    + rewrite Z.abs_eq in Ex by lia.
      rewrite (Z.sgn_pos x), (Z.sgn_pos (x - y)); lia.
  - destruct (Z.eqb_spec (Z.abs y) infinity) as [Ey|Ny].
    + rewrite Z.abs_eq in Ey, Nx by lia.
      rewrite (Z.sgn_neg (- y)), (Z.sgn_neg (x - y)); lia.
    + apply toDouble_sgn.
Qed.


(** *** Runs of digits *)

Lemma digits_value_cons (acc : Z) (c : ascii) (r : string) :
  digits_value acc (String c r)
  = if Js.is_digit c
    then digits_value (10 * acc + (Z.of_N (Js.code c) - 48)) r
    else None.
Proof. reflexivity. Qed.

Lemma digit_bounds (c : ascii) :
  Js.is_digit c = true -> 0 <= Z.of_N (N_of_ascii c) - 48 <= 9.
Proof.
  unfold Js.is_digit, Js.in_range, Js.code. intros H.
  apply andb_true_iff in H as [H1 H2]. apply N.leb_le in H1, H2. lia.
Qed.

(** The loop of the digits computes the integer that they spell. *)
Lemma digits_value_decimalOf (s : string) :
  Js.forall_chars Js.is_digit s = true ->
  0 <= decimalOf s < 10 ^ Z.of_nat (String.length s)
  /\ forall acc,
       digits_value acc s
       = Some (acc * 10 ^ Z.of_nat (String.length s) + decimalOf s).
Proof.
  induction s as [|c r IH]; intros H.
  - split; [simpl; lia|]. intros acc. simpl. f_equal. lia.
  - cbn [Js.forall_chars] in H. apply andb_true_iff in H as [Hc Hr].
    destruct (IH Hr) as (Hv & Hacc).
    pose proof (digit_bounds c Hc) as Hd.
    cbn [decimalOf].
    set (d := Z.of_N (N_of_ascii c) - 48) in *.
    change (String.length (String c r)) with (S (String.length r)).
    rewrite Nat2Z.inj_succ, Z.pow_succ_r by lia.
    set (p := 10 ^ Z.of_nat (String.length r)) in *.
    split; [nia|]. intros acc. rewrite digits_value_cons, Hc.
    unfold Js.code. fold d. rewrite Hacc. f_equal. ring.
Qed.

Lemma is_digits1_digits (s : string) :
  is_digits1 s = true -> Js.forall_chars Js.is_digit s = true.
Proof. unfold is_digits1. intros H. now apply andb_true_iff in H. Qed.

Lemma Number_decimalOf (s : string) :
  Js.forall_chars Js.is_digit s = true ->
  Number s = Some (toDouble (decimalOf s)) /\ 0 <= decimalOf s.
Proof.
  intros H. destruct (digits_value_decimalOf s H) as (Hv & Hacc).
  unfold Number. rewrite Hacc. cbn [option_map]. split; [|lia].
  reflexivity.
Qed.

Lemma Number_digits (s : string) :
  is_digits1 s = true -> exists n, Number s = Some n /\ 0 <= n <= infinity.
Proof.
  intros H. destruct (Number_decimalOf s (is_digits1_digits s H)) as (E & P).
  eexists. split; [exact E|]. now apply toDouble_range.
Qed.


Lemma valid_tag_not_main (s : string) :
  valid_tag s = true -> String.eqb s "main" = false.
Proof.
  destruct s as [|c r]; simpl; [discriminate|].
  intros H. apply andb_true_iff in H as [H _].
  apply Ascii.eqb_eq in H. subst c. reflexivity.
Qed.

Lemma valid_tag_parse (s : string) :
  valid_tag s = true ->
  exists x y z,
    parseVersion s = [Some x; Some y; Some z]
    /\ 0 <= x <= infinity /\ 0 <= y <= infinity /\ 0 <= z <= infinity.
Proof.
  destruct s as [|c r]; simpl; [discriminate|].
  intros H. apply andb_true_iff in H as [Hc H].
  unfold parseVersion. simpl. rewrite Hc.
  destruct (Js.split_char "." r) as [|a [|b [|d [|? ?]]]]; try discriminate.
  apply andb_true_iff in H as [H Hd]. apply andb_true_iff in H as [Ha Hb].
  destruct (Number_digits _ Ha) as (x & Hx & Rx).
  destruct (Number_digits _ Hb) as (y & Hy & Ry).
  destruct (Number_digits _ Hd) as (z & Hz & Rz).
  exists x, y, z. simpl. rewrite Hx, Hy, Hz. auto.
Qed.

(** What the code reads in a valid identifier. *)
Lemma valid_version_cases (s : string) :
  valid_version s = true ->
  (s = "main" /\ version_of s = Some VMain) \/
  (exists x y z, String.eqb s "main" = false
                 /\ parseVersion s = [Some x; Some y; Some z]
                 /\ version_of s = Some (VTag x y z)
                 /\ 0 <= x <= infinity /\ 0 <= y <= infinity
                 /\ 0 <= z <= infinity).
Proof.
  unfold valid_version, version_of. intros H.
  destruct (String.eqb s "main") eqn:E.
  - left. apply String.eqb_eq in E. now split.
  - right. simpl in H.
    destruct (valid_tag_parse _ H) as (x & y & z & Hp & Rx & Ry & Rz).
    exists x, y, z. rewrite Hp. auto 10.
Qed.

Ltac order_cases :=
  repeat match goal with
         | |- context [?x =? ?y] => destruct (Z.eqb_spec x y); simpl
         end.

(** The comparator, as [sort] reads it, has the sign of the comparison of
    what the code reads in the two identifiers. *)
Lemma compareVersionsZ_denoted (a b : string) :
  valid_version a = true -> valid_version b = true ->
  exists va vb,
    version_of a = Some va /\ version_of b = Some vb
    /\ Z.sgn (compareVersionsZ a b) = Z.sgn (compareDenoted va vb).
Proof.
  intros Ha Hb.
  destruct (valid_version_cases a Ha)
    as [[-> Va]|(a1 & a2 & a3 & Ea & Pa & Va & Ra1 & Ra2 & Ra3)];
  destruct (valid_version_cases b Hb)
    as [[-> Vb]|(b1 & b2 & b3 & Eb & Pb & Vb & Rb1 & Rb2 & Rb3)];
  do 2 eexists; (split; [eassumption|]); (split; [eassumption|]);
  unfold compareVersionsZ, compareVersions; simpl String.eqb;
  rewrite ?Ea, ?Eb, ?Pa, ?Pb; cbn [andb]; try reflexivity.
  cbv zeta. cbn [partAt nth_error differ difference compareDenoted].
  destruct (Z.eqb_spec a1 b1) as [E1|N1]; cbn [negb].
  - destruct (Z.eqb_spec a2 b2) as [E2|N2]; cbn [negb]; now apply minus_sgn.
  - now apply minus_sgn.
Qed.

Lemma sgn_nonpos (x y : Z) : Z.sgn x = Z.sgn y -> (x <= 0 <-> y <= 0).
Proof. lia. Qed.


Lemma compareDenoted_eq (x y : Version) :
  compareDenoted x y = 0 <-> x = y.
Proof.
  destruct x, y; simpl; try (split; [lia | discriminate]); [tauto|].
  order_cases; (split; [intros; try lia; f_equal; lia | intros [= ]; lia]).
Qed.

Lemma compareDenoted_opp (x y : Version) :
  compareDenoted y x = - compareDenoted x y.
Proof.
  destruct x, y; simpl; try lia. order_cases; lia.
Qed.

Lemma compareDenoted_trans (x y z : Version) :
  compareDenoted x y <= 0 -> compareDenoted y z <= 0 -> compareDenoted x z <= 0.
Proof.
  destruct x, y, z; simpl; try lia. order_cases; lia.
Qed.

(** *** Tags *)

Lemma split_char_digits (x r : string) :
  Js.forall_chars Js.is_digit x = true ->
  Js.split_char "." (x ++ String "." r) = x :: Js.split_char "." r.
Proof.
  induction x as [|c x IH]; simpl; intros H.
  - reflexivity.
  - apply andb_true_iff in H as [Hc Hx].
    destruct (Ascii.eqb_spec c ".") as [->|_]; [discriminate|].
    now rewrite IH.
Qed.

Lemma split_char_digits_last (x : string) :
  Js.forall_chars Js.is_digit x = true ->
  Js.split_char "." x = [x].
Proof.
  induction x as [|c x IH]; simpl; intros H.
  - reflexivity.
  - apply andb_true_iff in H as [Hc Hx].
    destruct (Ascii.eqb_spec c ".") as [->|_]; [discriminate|].
    now rewrite IH.
Qed.

Lemma split_char_tag (x y z : string) :
  is_digits1 x = true -> is_digits1 y = true -> is_digits1 z = true ->
  Js.split_char "." (x ++ String "." (y ++ String "." z)) = [x; y; z].
Proof.
  intros Hx Hy Hz.
  rewrite (split_char_digits x _ (is_digits1_digits x Hx)),
    (split_char_digits y _ (is_digits1_digits y Hy)),
    (split_char_digits_last z (is_digits1_digits z Hz)).
  reflexivity.
Qed.


Lemma join_split_char (c : ascii) (s : string) :
  Js.join (String c "") (Js.split_char c s) = s.
Proof.
  induction s as [|d r IH]; [reflexivity|]. simpl.
  destruct (Ascii.eqb_spec d c) as [->|N].
  - destruct (Js.split_char c r) as [|h t] eqn:E.
    + destruct r; simpl in E; [discriminate|].
      destruct (Ascii.eqb a c); [discriminate|].
      destruct (Js.split_char c r); discriminate.
    + change (Js.join (String c "") ("" :: h :: t))
        with (String c (Js.join (String c "") (h :: t))).
      now rewrite IH.
  - destruct (Js.split_char c r) as [|h t] eqn:E.
    + destruct r; simpl in E; [discriminate|].
      destruct (Ascii.eqb a c); [discriminate|].
      destruct (Js.split_char c r); discriminate.
    + rewrite <- IH. destruct t; reflexivity.
Qed.

Lemma denotes_valid (a : string) (va : Version) :
  denotes a va -> valid_version a = true.
Proof.
  intros [|x y z Hx Hy Hz]; [reflexivity|].
  unfold valid_version. apply orb_true_iff. right.
  cbn [valid_tag]. rewrite Ascii.eqb_refl, split_char_tag by assumption.
  now rewrite Hx, Hy, Hz.
Qed.

(** The identifiers of the catalog are those that denote a version. *)
Lemma valid_version_denotes (a : string) :
  valid_version a = true <-> exists va, denotes a va.
Proof.
  split; [|intros (va & H); now apply (denotes_valid a va)].
  unfold valid_version. intros H. apply orb_true_iff in H as [H|H].
  - apply String.eqb_eq in H. subst a. exists VMain. constructor.
  - destruct a as [|c r]; [discriminate|]. cbn [valid_tag] in H.
    apply andb_true_iff in H as [Hc H]. apply Ascii.eqb_eq in Hc. subst c.
    pose proof (join_split_char "." r) as J.
    destruct (Js.split_char "." r) as [|x [|y [|z [|? ?]]]]; try discriminate.
    apply andb_true_iff in H as [H Hz]. apply andb_true_iff in H as [Hx Hy].
    rewrite <- J.
    change (Js.join "." [x; y; z]) with (x ++ String "." (y ++ String "." z))%string.
    eexists. now apply denotes_tag.
Qed.












(** ** The order of [sort()] on strings *)

Lemma string_compare_refl (a : string) : String.compare a a = Eq.
Proof.
  induction a as [|x a IH]; simpl; [reflexivity|].
  unfold Ascii.compare. now rewrite N.compare_refl.
Qed.

Lemma string_leb_refl (a : string) : String.leb a a = true.
Proof. unfold String.leb. now rewrite string_compare_refl. Qed.

Lemma string_leb_trans (a b c : string) :
  String.leb a b = true -> String.leb b c = true -> String.leb a c = true.
Proof.
  unfold String.leb. revert b c.
  induction a as [|x a IH]; intros [|y b] [|z c]; simpl; try congruence.
  unfold Ascii.compare.
  destruct (N.compare_spec (N_of_ascii x) (N_of_ascii y)) as [E1|L1|G1];
    destruct (N.compare_spec (N_of_ascii y) (N_of_ascii z)) as [E2|L2|G2];
    destruct (N.compare_spec (N_of_ascii x) (N_of_ascii z)) as [E3|L3|G3];
    try congruence; try lia.
  apply IH.
Qed.

Section SortedFacts.
Context {A : Type} (le : A -> A -> bool).
Hypothesis le_total : forall x y, le x y = true \/ le y x = true.
Hypothesis le_trans : forall x y z, le x y = true -> le y z = true -> le x z = true.
Hypothesis le_antisym : forall x y, le x y = true -> le y x = true -> x = y.

Let R (x y : A) : Prop := le x y = true.

Lemma insert_sorted (x : A) (l : list A) :
  StronglySorted R l -> StronglySorted R (Js.insert le x l).
Proof.
  induction 1 as [|y r S IH F]; simpl; [repeat constructor|].
  destruct (le x y) eqn:E.
  - constructor; [now constructor|]. constructor; [exact E|].
    eapply Forall_impl; [|exact F]. intros z Hz. eapply le_trans; eauto.
  - constructor; [assumption|].
    apply Forall_forall. intros z Hz.
    apply (Permutation_in _ (insert_perm le x r)) in Hz.
    destruct Hz as [<-|Hz].
    + destruct (le_total x y); [congruence|assumption].
    + rewrite Forall_forall in F. now apply F.
Qed.

Lemma sort_sorted (l : list A) : StronglySorted R (Js.sort le l).
Proof.
  induction l as [|x r IH]; simpl; [constructor|]. now apply insert_sorted.
Qed.

Lemma sorted_perm_eq (l l' : list A) :
  StronglySorted R l -> StronglySorted R l' -> Permutation l l' -> l = l'.
Proof.
  intros S. revert l'. induction S as [|x r S IH F]; intros l' S' P.
  - apply Permutation_nil in P. now subst.
  - destruct l' as [|y r']; [apply Permutation_sym, Permutation_nil in P; discriminate|].
    inversion S' as [|? ? S'' F']; subst.
    assert (E : x = y).
    { assert (Hx : In x (y :: r')) by (apply (Permutation_in _ P); now left).
      assert (Hy : In y (x :: r))
        by (apply (Permutation_in _ (Permutation_sym P)); now left).
      destruct Hx as [->|Hx]; [reflexivity|].
      destruct Hy as [->|Hy]; [reflexivity|].
      rewrite Forall_forall in F, F'. apply le_antisym; [now apply F|now apply F']. }
    subst y. f_equal. apply IH; [assumption|].
    now apply Permutation_cons_inv in P.
Qed.

Lemma sort_perm_eq (l l' : list A) :
  Permutation l l' -> Js.sort le l = Js.sort le l'.
Proof.
  intros P. apply sorted_perm_eq; try apply sort_sorted.
  rewrite (sort_perm le l), (sort_perm le l'). exact P.
Qed.
End SortedFacts.

Lemma sortS_perm_eq (l l' : list string) :
  Permutation l l' -> Js.sortS l = Js.sortS l'.
Proof.
  apply sort_perm_eq.
  - apply String.leb_total.
  - apply string_leb_trans.
  - apply String.leb_antisym.
Qed.

Lemma ascendingS_sorted (l : list string) :
  StronglySorted (fun x y => String.leb x y = true) l -> ascendingS l = true.
Proof.
  induction 1 as [|x r S IH F]; [reflexivity|].
  destruct r as [|y r']; [reflexivity|].
  change (String.leb x y && ascendingS (y :: r') = true).
  inversion F; subst. apply andb_true_iff. auto.
Qed.

Lemma sortS_ascending (l : list string) : ascendingS (Js.sortS l) = true.
Proof.
  apply ascendingS_sorted, sort_sorted.
  - apply String.leb_total.
  - apply string_leb_trans.
Qed.

(** ** Argument Normalizer: object literals *)

Lemma append_snoc (s r : string) (c : ascii) :
  (appendChar s c ++ r)%string = (s ++ String c r)%string.
Proof.
  unfold appendChar. induction s as [|d s IH]; simpl; [reflexivity|].
  now rewrite IH.
Qed.

Lemma append_empty_r (s : string) : (s ++ "")%string = s.
Proof. induction s as [|d s IH]; simpl; [reflexivity|now rewrite IH]. Qed.


Lemma isQuote_not_backslash (c : ascii) :
  isQuote c = true -> Ascii.eqb c "\" = false.
Proof.
  unfold isQuote. intros H. apply orb_true_iff in H as [H|H];
    apply Ascii.eqb_eq in H; subst; reflexivity.
Qed.













(** ** Argument Normalizer: handlebars hashes *)

Lemma forall_chars_app (p : ascii -> bool) (a b : string) :
  Js.forall_chars p (a ++ b)%string = Js.forall_chars p a && Js.forall_chars p b.
Proof.
  induction a as [|c a IH]; simpl; [reflexivity|]. now rewrite IH, andb_assoc.
Qed.

Lemma forall_chars_impl (p q : ascii -> bool) (s : string) :
  (forall c, p c = true -> q c = true) ->
  Js.forall_chars p s = true -> Js.forall_chars q s = true.
Proof.
  intros H. induction s as [|c s IH]; simpl; [reflexivity|].
  intros E. apply andb_true_iff in E as [E1 E2]. rewrite (H _ E1). auto.
Qed.

Lemma span_all (p : ascii -> bool) (a b : string) :
  Js.forall_chars p a = true ->
  match b with String c _ => p c = false | EmptyString => True end ->
  span p (a ++ b)%string = (a, b).
Proof.
  intros Ha Hb. induction a as [|c a IH]; simpl.
  - destruct b as [|d b]; [reflexivity|]. simpl. now rewrite Hb.
  - simpl in Ha. apply andb_true_iff in Ha as [Hc Ha]. now rewrite Hc, IH.
Qed.


Lemma split_char_first (c : ascii) (k r : string) :
  Js.forall_chars (fun d => negb (Ascii.eqb d c)) k = true ->
  Js.split_char c (k ++ String c r) = k :: Js.split_char c r.
Proof.
  induction k as [|d k IH]; simpl; intros H.
  - now rewrite Ascii.eqb_refl.
  - apply andb_true_iff in H as [Hd Hk]. apply negb_true_iff in Hd.
    now rewrite Hd, IH.
Qed.

Lemma is_word_plain (c : ascii) :
  Js.is_word c = true ->
  Js.is_space c = false /\ notBrace c = true
  /\ Ascii.eqb c "=" = false /\ Ascii.eqb c "@" = false.
Proof.
  destruct c as [[] [] [] [] [] [] [] []]; try discriminate; intros _; repeat split.
Qed.













Lemma replaceAll_matchAttribute (s : string) :
  Js.exists_char (fun c => Ascii.eqb c "@") s = false ->
  forall fuel, replaceAll fuel matchAttribute s = s.
Proof.
  induction s as [|c s IH]; intros H [|fuel]; simpl; try reflexivity.
  simpl in H. apply orb_false_iff in H as [Hc Hs]. now rewrite Hc, IH.
Qed.






(** ** Worker: the per-version fold *)

Lemma hookMapOf_snoc (version : string) (l : list FoundHook.t) (h : FoundHook.t) :
  hookMapOf version (l ++ [h]) = foldHook version (hookMapOf version l) h.
Proof. unfold hookMapOf. now rewrite fold_left_app. Qed.

Lemma hookMapOf_invariant (version : string) (l : list FoundHook.t) :
  Forall (fun h => StronglySorted Z.lt (FoundHook.lines h)) l ->
  NoDup (JsMap.keys (hookMapOf version l))
  /\ (forall h, In h l -> In (hookKey h) (JsMap.keys (hookMapOf version l)))
  /\ (forall k r, JsMap.get (hookMapOf version l) k = Some r ->
        recordKey r = k
        /\ WorkerHook.version r = version
        /\ StronglySorted Z.lt (WorkerHook.lines r)
        /\ (forall x, In x (WorkerHook.lines r)
                      <-> exists h, In h l /\ hookKey h = k
                                    /\ In x (FoundHook.lines h))
        /\ exists before h after,
             l = before ++ h :: after
             /\ hookKey h = k
             /\ Forall (fun h' => hookKey h' <> k) before
             /\ WorkerHook.name r = FoundHook.name h
             /\ WorkerHook.type r = FoundHook.type h
             /\ WorkerHook.file r = FoundHook.file h
             /\ WorkerHook.arguments r
                = argumentsOrEmpty (FoundHook.arguments h)).
Proof.
  induction l as [|h l IH] using rev_ind; intros HS.
  - split; [constructor|]. split; [intros ? []|]. intros k r; discriminate.
  - apply Forall_app in HS as [HSl HSh]. inversion HSh as [|? ? Sh _]; subst.
    destruct (IH HSl) as (ND & Hkeys & Hrec). clear IH.
    rewrite hookMapOf_snoc. set (m := hookMapOf version l) in *.
    unfold foldHook.
    destruct (JsMap.get m (hookKey h)) as [existing|] eqn:G.
    + (* the key is known *)
      destruct (Hrec _ _ G) as (Kr & Vr & Sr & Lr & b & h0 & a & El & Kh0 & Fb & Nr & Tr & Fr & Ar).
      split; [now apply NoDup_keys_set|]. split.
      * intros h' Hin. rewrite keys_set_present
          by (apply get_In in G; change (hookKey h) with (fst (hookKey h, existing)); now apply in_map).
        apply in_app_iff in Hin as [Hin|[<-|[]]]; [auto|].
        apply get_In in G. change (hookKey h) with (fst (hookKey h, existing)).
        now apply in_map.
      * intros k r. destruct (string_dec (hookKey h) k) as [<-|N].
        -- rewrite get_set_same. intros [= <-]. simpl.
           split; [exact Kr|]. split; [exact Vr|].
           split; [now apply mergedLines_strict|]. split.
           ++ intros x. rewrite mergedLines_In, Lr. split.
              ** intros [(h' & Hin & K' & Hx)|Hx].
                 --- exists h'. rewrite in_app_iff. auto.
                 --- exists h. rewrite in_app_iff. simpl. auto.
              ** intros (h' & Hin & K' & Hx).
                 apply in_app_iff in Hin as [Hin|[<-|[]]]; [left; eauto|auto].
           ++ exists b, h0, (a ++ [h]). rewrite El, <- app_assoc. simpl. auto 10.
        -- rewrite get_set_other by assumption. intros Gk.
           destruct (Hrec _ _ Gk) as (Kr' & Vr' & Sr' & Lr' & b' & h' & a' & El' & Kh' & Fb' & Rest).
           split; [assumption|]. split; [assumption|]. split; [assumption|]. split.
           ++ intros x. rewrite Lr'. split.
              ** intros (h1 & Hin & K1 & Hx). exists h1. rewrite in_app_iff. auto.
              ** intros (h1 & Hin & K1 & Hx).
                 apply in_app_iff in Hin as [Hin|[<-|[]]]; [eauto|congruence].
           ++ exists b', h', (a' ++ [h]). rewrite El', <- app_assoc. simpl. auto.
    + (* a new key *)
      assert (Nk : ~ In (hookKey h) (JsMap.keys m)) by now apply get_None_keys.
      split; [now apply NoDup_keys_set|]. split.
      * intros h' Hin. rewrite keys_set_absent by assumption.
        rewrite in_app_iff. simpl.
        apply in_app_iff in Hin as [Hin|[<-|[]]]; auto.
      * intros k r. destruct (string_dec (hookKey h) k) as [<-|N].
        -- rewrite get_set_same. intros [= <-]. simpl.
           split; [reflexivity|]. split; [reflexivity|]. split; [assumption|].
           split.
           ++ intros x. split.
              ** intros Hx. exists h. rewrite in_app_iff. simpl. auto.
              ** intros (h' & Hin & K' & Hx).
                 apply in_app_iff in Hin as [Hin|[<-|[]]]; [|assumption].
                 exfalso. apply Nk. rewrite <- K'. auto.
           ++ exists l, h, []. repeat split; try reflexivity.
              apply Forall_forall. intros h' Hin E. apply Nk. rewrite <- E. auto.
        -- rewrite get_set_other by assumption. intros Gk.
           destruct (Hrec _ _ Gk) as (Kr' & Vr' & Sr' & Lr' & b' & h' & a' & El' & Kh' & Fb' & Rest).
           split; [assumption|]. split; [assumption|]. split; [assumption|]. split.
           ++ intros x. rewrite Lr'. split.
              ** intros (h1 & Hin & K1 & Hx). exists h1. rewrite in_app_iff. auto.
              ** intros (h1 & Hin & K1 & Hx).
                 apply in_app_iff in Hin as [Hin|[<-|[]]]; [eauto|congruence].
           ++ exists b', h', (a' ++ [h]). rewrite El', <- app_assoc. simpl. auto.
Qed.

Lemma values_keys (version : string) (l : list FoundHook.t) :
  Forall (fun h => StronglySorted Z.lt (FoundHook.lines h)) l ->
  map recordKey (aggregateHooks version l) = JsMap.keys (hookMapOf version l).
Proof.
  intros HS. destruct (hookMapOf_invariant version l HS) as (ND & _ & Hrec).
  unfold aggregateHooks, JsMap.values, JsMap.keys. rewrite map_map.
  apply map_ext_in. intros [k r] Hin. simpl.
  apply (In_get _ _ _ ND) in Hin. now destruct (Hrec _ _ Hin).
Qed.




(** The line sets the extractor builds are strictly ascending. *)
Lemma getMatchLines_ascending (content : string) (index : nat)
  (matchedText : string) :
  strictlyAscending (getMatchLines content index matchedText) = true.
Proof.
  unfold getMatchLines. apply strictlyAscending_sorted.
  generalize (Z.of_nat (splitLength (substring 0 index content))) as start.
  generalize (splitLength matchedText) as n. intros n start.
  generalize 0%nat as from. induction n as [|n IH]; simpl; intros from.
  - constructor.
  - constructor; [apply IH|].
    apply Forall_forall. intros x Hx. apply in_map_iff in Hx as (i & <- & Hi).
    apply in_seq in Hi. lia.
Qed.

(** The key separates the three fields when the name has no bar. *)
Lemma append_bar_injective (s1 s2 r1 r2 : string) :
  Js.exists_char (Ascii.eqb "|") s1 = false ->
  Js.exists_char (Ascii.eqb "|") s2 = false ->
  (s1 ++ String "|" r1 = s2 ++ String "|" r2)%string ->
  s1 = s2 /\ r1 = r2.
Proof.
  revert s2. induction s1 as [|c s1 IH]; intros [|d s2]; simpl; intros H1 H2 E.
  - now injection E.
  - injection E as <- _. simpl in H2. discriminate.
  - injection E as -> _. simpl in H1. discriminate.
  - injection E as -> E. apply orb_false_iff in H1 as [_ H1].
    apply orb_false_iff in H2 as [_ H2].
    destruct (IH _ H1 H2 E) as [-> ->]. auto.
Qed.

Lemma hookKey_injective (h1 h2 : FoundHook.t) :
  Js.exists_char (Ascii.eqb "|") (FoundHook.name h1) = false ->
  Js.exists_char (Ascii.eqb "|") (FoundHook.name h2) = false ->
  hookKey h1 = hookKey h2 ->
  FoundHook.name h1 = FoundHook.name h2
  /\ FoundHook.type h1 = FoundHook.type h2
  /\ FoundHook.file h1 = FoundHook.file h2.
Proof.
  unfold hookKey. intros N1 N2 E.
  apply append_bar_injective in E as [En E]; [|assumption|assumption].
  apply append_bar_injective in E as [Et Ef];
    [|now destruct (FoundHook.type h1)|now destruct (FoundHook.type h2)].
  repeat split; [assumption| |assumption].
  destruct (FoundHook.type h1), (FoundHook.type h2); (reflexivity || discriminate).
Qed.

(** ** Parallel Scheduler *)

Module SchedulerFacts.
Import Scheduler.

Lemma spliceWorker_length (worker : nat) (ws : list nat) :
  existsb (Nat.eqb worker) ws = true ->
  S (List.length (spliceWorker worker ws)) = List.length ws.
Proof.
  induction ws as [|w r IH]; simpl; [discriminate|].
  rewrite (Nat.eqb_sym worker w).
  destruct (Nat.eqb w worker); simpl; [reflexivity|].
  intros H. specialize (IH H). destruct r; [discriminate|]. simpl in *. lia.
Qed.

Lemma createWorker_balance (n dropped : nat) (st : State) :
  (versionIndex st <= n)%nat ->
  (versionIndex (createWorker n st) <= n)%nat
  /\ (List.length (workers (createWorker n st))
      + (n - versionIndex (createWorker n st))
      = List.length (workers st) + (n - versionIndex st))%nat
  /\ completed (createWorker n st) = completed st
  /\ resolved (createWorker n st) = resolved st.
Proof.
  unfold createWorker. intros H.
  destruct (Nat.leb_spec n (versionIndex st)); simpl.
  - auto.
  - rewrite length_app. simpl. repeat split; lia.
Qed.

Lemma start_balance (n maxWorkers : nat) :
  balance n 0 (start n maxWorkers) /\ resolved (start n maxWorkers) = false.
Proof.
  unfold start. induction (Nat.min maxWorkers n) as [|k IH]; simpl.
  - unfold balance. simpl. split; [lia|reflexivity].
  - destruct IH as [[Hle Hb] Hr].
    destruct (createWorker_balance n 0 _ Hle) as (Hle' & Hw & Hc & Hres).
    unfold balance. rewrite Hres, Hc. split; [split; [assumption|lia]|assumption].
Qed.

Lemma finish_balance (n dropped worker : nat) (st : State) :
  existsb (Nat.eqb worker) (workers st) = true ->
  (versionIndex st <= n)%nat ->
  (completed st + List.length (workers st) + (n - versionIndex st) + dropped
   = S n)%nat ->
  balance n dropped (finish n worker st)
  /\ (resolved (finish n worker st) = true ->
      resolved st = true \/ completed st = n).
Proof.
  intros Hw Hle Hb. unfold finish. simpl.
  pose proof (spliceWorker_length worker _ Hw) as Hl.
  destruct (Nat.eqb_spec (completed st) n) as [E|E]; simpl.
  - unfold balance. simpl. split; [split; [assumption|lia]|auto].
  - set (st1 := mkState _ _ _ _ _).
    destruct (createWorker_balance n dropped st1 Hle) as (Hle' & Hw' & Hc & Hres).
    unfold balance. rewrite Hres, Hc. simpl in *.
    split; [split; [assumption|lia]|auto].
Qed.

Lemma handle_balance (n dropped : nat) (st : State) (ev : Event) :
  existsb (Nat.eqb (workerOf ev)) (workers st) = true ->
  balance n dropped st ->
  balance n (uncounted ev + dropped) (handle n st ev)
  /\ (resolved (handle n st ev) = true ->
      resolved st = true \/ (uncounted ev + dropped = 0)%nat).
Proof.
  intros Hw [Hle Hb].
  assert (Hpos : (0 < List.length (workers st))%nat).
  { destruct (workers st); [discriminate|simpl; lia]. }
  destruct ev as [w [hooks|]|w]; simpl in *.
  - destruct (finish_balance n dropped w
                (mkState (results st ++ [hooks]) (S (completed st))
                   (versionIndex st) (workers st) (resolved st)))
      as [B R]; simpl; try assumption; try lia.
    split; [assumption|]. intros H. destruct (R H) as [?|E]; [auto|].
    simpl in E. right. lia.
  - destruct (finish_balance n (S dropped) w st) as [B R]; try assumption; try lia.
    split; [assumption|]. intros H. destruct (R H) as [?|E]; [auto|]. lia.
  - destruct (finish_balance n dropped w
                (mkState (results st) (S (completed st))
                   (versionIndex st) (workers st) (resolved st)))
      as [B R]; simpl; try assumption; try lia.
    split; [assumption|]. intros H. destruct (R H) as [?|E]; [auto|].
    simpl in E. right. lia.
Qed.

Lemma finish_resolved_completed (n worker : nat) (st : State) :
  resolved st = false ->
  resolved (finish n worker st) = true ->
  completed (finish n worker st) = n.
Proof.
  unfold finish. simpl. intros Hr.
  destruct (Nat.eqb_spec (completed st) n); simpl; [auto|].
  unfold createWorker. simpl.
  destruct (Nat.leb n (versionIndex st)); simpl; congruence.
Qed.

Lemma handle_resolved_completed (n : nat) (st : State) (ev : Event) :
  resolved st = false ->
  resolved (handle n st ev) = true ->
  completed (handle n st ev) = n.
Proof.
  destruct ev as [w [hooks|]|w]; simpl; intros Hr;
    now apply finish_resolved_completed.
Qed.

(** Once [resolve] has been called no worker is running. *)
Lemma schedule_balance (n : nat) (evs : list Event) :
  forall (st : State) (dropped : nat),
    validSchedule n st evs = true ->
    balance n dropped st ->
    (resolved st = true -> workers st = []) ->
    (resolved st = true -> dropped = 0%nat) ->
    let st' := fold_left (handle n) evs st in
    let dropped' := (list_sum (map uncounted evs) + dropped)%nat in
    balance n dropped' st'
    /\ (resolved st' = true -> dropped' = 0%nat).
Proof.
  induction evs as [|ev r IH]; simpl; intros st dropped V B W D.
  - auto.
  - apply andb_true_iff in V as [Hw V].
    destruct (handle_balance n dropped st ev Hw B) as [B' R'].
    assert (Hnr : resolved st = false).
    { destruct (resolved st); [|reflexivity].
      rewrite W in Hw by reflexivity. discriminate. }
    specialize (IH (handle n st ev) (uncounted ev + dropped)%nat V B').
    replace (list_sum (map uncounted r) + (uncounted ev + dropped))%nat
      with (uncounted ev + list_sum (map uncounted r) + dropped)%nat in IH by lia.
    apply IH.
    + intros H. destruct (R' H) as [H'|H']; [congruence|].
      destruct B' as [Hle Hb].
      assert (Hc : completed (handle n st ev) = n)
        by (now apply handle_resolved_completed).
      destruct (workers (handle n st ev)); [reflexivity|simpl in *; lia].
    + intros H. destruct (R' H) as [H'|H']; [congruence|assumption].
Qed.

(** A schedule in which a worker reports a caught failure never calls
    [resolve]. *)
Lemma caught_failure_never_resolves (n maxWorkers : nat) (evs : list Event) :
  validSchedule n (start n maxWorkers) evs = true ->
  (exists worker, In (report worker CaughtFailure) evs) ->
  resolved (runSchedule n maxWorkers evs) = false.
Proof.
  intros V (w & Hin). unfold runSchedule.
  destruct (start_balance n maxWorkers) as [B R].
  destruct (schedule_balance n evs (start n maxWorkers) 0 V B) as [_ D];
    try (rewrite R; discriminate).
  destruct (resolved (fold_left (handle n) evs (start n maxWorkers)));
    [|reflexivity].
  specialize (D eq_refl).
  assert (1 <= list_sum (map uncounted evs))%nat; [|lia].
  clear - Hin. induction evs as [|e r IH]; simpl in *; [tauto|].
  destruct Hin as [->|H]; [simpl; lia|]. specialize (IH H). lia.
Qed.

(** Without caught failures every report is counted, and [resolve] is
    called with the report that makes the count reach the number of
    versions, not before. *)
Lemma handle_counted (n : nat) (st : State) (ev : Event) :
  uncounted ev = 0%nat ->
  completed (handle n st ev) = S (completed st)
  /\ (resolved st = false ->
      (resolved (handle n st ev) = true <-> S (completed st) = n)).
Proof.
  intros U.
  assert (F : forall w st0, completed (finish n w st0) = completed st0
              /\ (resolved st0 = false ->
                  (resolved (finish n w st0) = true <-> completed st0 = n))).
  { intros w st0. unfold finish. simpl.
    destruct (Nat.eqb_spec (completed st0) n); simpl.
    - split; [reflexivity|]. intros _. tauto.
    - unfold createWorker. simpl.
      destruct (Nat.leb n (versionIndex st0)); simpl;
        (split; [reflexivity|]; intros ->; split; [discriminate|tauto]). }
  destruct ev as [w [hooks|]|w]; simpl in *; try discriminate;
    match goal with |- context [finish n w ?s] => destruct (F w s) as [Hc Hr] end;
    simpl in *; (split; [assumption|]); intros Hn; now apply Hr.
Qed.

Lemma counted_schedule (n : nat) (evs : list Event) :
  forall st,
    validSchedule n st evs = true ->
    Forall (fun ev => uncounted ev = 0%nat) evs ->
    balance n 0 st ->
    (resolved st = true <-> completed st = n) ->
    let st' := fold_left (handle n) evs st in
    completed st' = (completed st + List.length evs)%nat
    /\ (resolved st' = true <-> completed st' = n).
Proof.
  induction evs as [|ev r IH]; simpl; intros st V F B R.
  - split; [lia|assumption].
  - apply andb_true_iff in V as [Hw V]. inversion F as [|? ? U F']; subst.
    destruct (handle_balance n 0 st ev Hw B) as [B' _]. rewrite U in B'.
    destruct (handle_counted n st ev U) as [Hc Hr].
    assert (Hlt : (completed st < n)%nat).
    { destruct B as [_ Hb]. destruct (workers st); [discriminate|simpl in Hb; lia]. }
    assert (Hnr : resolved st = false).
    { destruct (resolved st); [|reflexivity].
      assert (completed st = n) by now apply R. lia. }
    destruct (IH (handle n st ev) V F' B') as [Hc' Hr'].
    + rewrite Hc. now apply Hr.
    + split; [lia|assumption].
Qed.

Lemma resolves_when_all_reported (n maxWorkers : nat) (evs : list Event) :
  (0 < n)%nat ->
  validSchedule n (start n maxWorkers) evs = true ->
  Forall (fun ev => uncounted ev = 0%nat) evs ->
  completed (runSchedule n maxWorkers evs) = List.length evs
  /\ (resolved (runSchedule n maxWorkers evs) = true <-> List.length evs = n).
Proof.
  intros Hn V F. unfold runSchedule.
  destruct (start_balance n maxWorkers) as [B R].
  assert (C0 : completed (start n maxWorkers) = 0%nat).
  { unfold start. induction (Nat.min maxWorkers n) as [|k IH]; simpl; [reflexivity|].
    unfold createWorker at 1.
    match goal with |- context [if ?c then _ else _] => destruct c end; assumption. }
  destruct (counted_schedule n evs (start n maxWorkers) V F B) as [Hc Hr].
  - rewrite R, C0. split; [discriminate|lia].
  - rewrite C0 in Hc. simpl in Hc. rewrite Hc in Hr. auto.
Qed.

End SchedulerFacts.

(** C9, evaluated: one version whose worker reports a caught failure.  The
    [message] handler does not count the report: the worker is gone, no
    version is left, [completed] is 0 of 1 and [resolve] was not called,
    where an [error] event or a result in the same place resolves. *)
Theorem scheduler_caught_failure_not_counted :
  Scheduler.validSchedule 1 (Scheduler.start 1 1) failingSchedule = true
  /\ Scheduler.completed (Scheduler.runSchedule 1 1 failingSchedule) = 0%nat
  /\ Scheduler.workers (Scheduler.runSchedule 1 1 failingSchedule) = []
  /\ Scheduler.versionIndex (Scheduler.runSchedule 1 1 failingSchedule) = 1%nat
  /\ Scheduler.resolved (Scheduler.runSchedule 1 1 failingSchedule) = false
  /\ Scheduler.resolved
       (Scheduler.runSchedule 1 1 [Scheduler.report 0 Scheduler.UncaughtError])
     = true
  /\ Scheduler.resolved
       (Scheduler.runSchedule 1 1 [Scheduler.report 0 (Scheduler.Extracted [])])
     = true.
Proof. repeat split. Qed.

(** ** Cross-Version Merger *)

Module MergeFacts.
Import Merge.

Lemma mergeResults_occurrences (results : list (list WorkerHook.t)) :
  mergeResults results = fold_left mergeHook (occurrences results) initial.
Proof.
  unfold mergeResults, occurrences. generalize initial.
  induction results as [|hooks r IH]; simpl; intros st; [reflexivity|].
  now rewrite fold_left_app, IH.
Qed.

(** *** The store *)

Lemma deref_push_old (st : list (list string)) (x : list string) (a : nat) :
  (a < List.length st)%nat -> deref (st ++ [x]) a = deref st a.
Proof. unfold deref. intros H. now rewrite app_nth1. Qed.

Lemma deref_push_new (st : list (list string)) (x : list string) :
  deref (st ++ [x]) (List.length st) = x.
Proof. unfold deref. rewrite app_nth2, Nat.sub_diag by lia. reflexivity. Qed.

Lemma store_set_length (st : list (list string)) (a : nat) (v : list string) :
  List.length (store_set st a v) = List.length st.
Proof.
  revert a. induction st as [|x r IH]; intros [|a]; simpl; auto.
Qed.

Lemma deref_set_same (st : list (list string)) (a : nat) (v : list string) :
  (a < List.length st)%nat -> deref (store_set st a v) a = v.
Proof.
  unfold deref. revert a. induction st as [|x r IH]; intros [|a]; simpl; intros H;
    try lia; [reflexivity|]. apply IH. lia.
Qed.

Lemma deref_set_other (st : list (list string)) (a a' : nat) (v : list string) :
  a <> a' -> deref (store_set st a v) a' = deref st a'.
Proof.
  unfold deref. revert a a'.
  induction st as [|x r IH]; intros [|a] [|a']; simpl; intros H;
    try reflexivity; try congruence. apply IH. congruence.
Qed.

(** *** One record, read through the store *)

Lemma find_read (hook : WorkerHook.t) (st : list (list string))
  (locs : list (Location.t nat)) :
  find (sameLocationV hook) (map (readLocation st) locs)
  = option_map (readLocation st) (find (sameLocation hook) locs).
Proof.
  induction locs as [|loc r IH]; simpl; [reflexivity|].
  unfold sameLocationV, sameLocation at 1. simpl.
  destruct (_ && _); [reflexivity|assumption].
Qed.

Lemma updateFound_addresses (hook : WorkerHook.t) (locs : list (Location.t nat)) :
  map Location.arguments (updateFound hook locs) = map Location.arguments locs.
Proof.
  induction locs as [|loc r IH]; simpl; [reflexivity|].
  destruct (sameLocation hook loc); simpl; [reflexivity|now rewrite IH].
Qed.

Lemma read_frame (st st' : list (list string)) (locs : list (Location.t nat)) :
  (forall loc, In loc locs ->
     deref st' (Location.arguments loc) = deref st (Location.arguments loc)) ->
  map (readLocation st') locs = map (readLocation st) locs.
Proof.
  intros H. apply map_ext_in. intros loc Hin. unfold readLocation.
  now rewrite H.
Qed.

Lemma mergeHook_shape (st : State) (hook : WorkerHook.t) :
  exists history,
    mergeHook st hook
    = mkState
        (JsMap.set (hooksDb st) (WorkerHook.name hook)
           (HookData.mk (HookData.name (priorHook st hook))
              (HookData.type (priorHook st hook))
              (HookData.firstVersion (priorHook st hook))
              (mergedLocations st hook) history))
        (mergedStore st hook).
Proof.
  unfold mergeHook, mergedLocations, mergedStore, priorHook, JsMap.has.
  destruct (JsMap.get (hooksDb st) (WorkerHook.name hook)) as [hd|] eqn:G.
  - rewrite G.
    destruct (find (sameLocation hook) (HookData.locations hd)); eexists; reflexivity.
  - rewrite get_set_same. simpl.
    rewrite (set_absent _ _ _ G).
    eexists. rewrite set_absent_update by assumption.
    rewrite <- (set_absent _ _ _ G). reflexivity.
Qed.

Lemma updateFound_read (hook : WorkerHook.t) (st st' : list (list string))
  (locs : list (Location.t nat)) (found : Location.t nat) :
  NoDup (map Location.arguments locs) ->
  find (sameLocation hook) locs = Some found ->
  (forall loc, In loc locs ->
     Location.arguments loc <> Location.arguments found ->
     deref st' (Location.arguments loc) = deref st (Location.arguments loc)) ->
  deref st' (Location.arguments found)
  = (if tracksArguments (WorkerHook.type hook)
     then Js.sortS (pushNewArgs (deref st (Location.arguments found))
                      (WorkerHook.arguments hook))
     else deref st (Location.arguments found)) ->
  map (readLocation st') (updateFound hook locs)
  = updateFoundV hook (map (readLocation st) locs).
Proof.
  intros ND F Hother Hfound.
  induction locs as [|loc r IH]; simpl in *; [discriminate|].
  inversion ND as [|? ? Hn ND']; subst.
  change (sameLocationV hook (readLocation st loc)) with (sameLocation hook loc).
  destruct (sameLocation hook loc) eqn:S.
  - injection F as ->. simpl. f_equal.
    + unfold readLocation, mergedLocationV. simpl. now rewrite Hfound.
    + apply read_frame. intros l' Hin. apply Hother; [auto|].
      intros E. apply Hn. rewrite <- E. now apply in_map.
  - simpl. f_equal.
    + unfold readLocation. rewrite Hother; [reflexivity|auto|].
      intros E. apply Hn. rewrite E. apply in_map.
      now apply find_some in F as [F _].
    + apply IH; auto.
Qed.

Lemma mergedStore_length (st : State) (hook : WorkerHook.t) :
  List.length (mergedStore st hook) = S (List.length (store st)).
Proof.
  unfold mergedStore.
  destruct (find _ _); [destruct (tracksArguments _)|];
    rewrite ?store_set_length, length_app; simpl; lia.
Qed.

(** The merge touches the array of the location it found, and no other. *)
Lemma mergedStore_frame (st : State) (hook : WorkerHook.t) (a : nat) :
  (a < List.length (store st))%nat ->
  (forall found,
     find (sameLocation hook) (HookData.locations (priorHook st hook)) = Some found ->
     a <> Location.arguments found) ->
  deref (mergedStore st hook) a = deref (store st) a.
Proof.
  intros Ha Hn. unfold mergedStore.
  destruct (find _ _) as [found|]; [|now apply deref_push_old].
  specialize (Hn found eq_refl).
  destruct (tracksArguments _); [|now apply deref_push_old].
  rewrite deref_set_other by congruence. now apply deref_push_old.
Qed.

Lemma mergedLocations_read (st : State) (hook : WorkerHook.t) :
  NoDup (map Location.arguments (HookData.locations (priorHook st hook))) ->
  (forall loc, In loc (HookData.locations (priorHook st hook)) ->
     (Location.arguments loc < List.length (store st))%nat) ->
  map (readLocation (mergedStore st hook)) (mergedLocations st hook)
  = foldLocation
      (map (readLocation (store st)) (HookData.locations (priorHook st hook)))
      hook.
Proof.
  intros ND Hb. unfold foldLocation. rewrite find_read.
  pose proof (mergedStore_frame st hook) as Frame.
  unfold mergedLocations, mergedStore in *.
  destruct (find (sameLocation hook) (HookData.locations (priorHook st hook)))
    as [found|] eqn:F; simpl.
  - assert (Hf : In found (HookData.locations (priorHook st hook)))
      by (now apply find_some in F as [F' _]).
    apply (updateFound_read hook (store st) _ _ found ND F).
    + intros loc Hin Hne. apply Frame; [auto|]. now intros ? [= <-].
    + destruct (tracksArguments (WorkerHook.type hook)).
      * rewrite deref_set_same by (rewrite length_app; specialize (Hb _ Hf); lia).
        rewrite deref_push_new, deref_push_old by auto. reflexivity.
      * apply deref_push_old. auto.
  - rewrite map_app. simpl. f_equal.
    + apply read_frame. intros loc Hin. apply deref_push_old. auto.
    + unfold readLocation. simpl. now rewrite deref_push_new.
Qed.

Lemma mergedLocations_addresses (st : State) (hook : WorkerHook.t) :
  map Location.arguments (mergedLocations st hook)
  = map Location.arguments (HookData.locations (priorHook st hook))
    ++ match find (sameLocation hook) (HookData.locations (priorHook st hook)) with
       | None => [List.length (store st)]
       | Some _ => []
       end.
Proof.
  unfold mergedLocations. destruct (find _ _).
  - now rewrite updateFound_addresses, app_nil_r.
  - now rewrite map_app.
Qed.

Lemma allAddresses_set (st : State) (hook : WorkerHook.t) (hd2 : HookData.t nat)
  (extra : list nat) :
  map Location.arguments (HookData.locations hd2)
  = map Location.arguments (HookData.locations (priorHook st hook)) ++ extra ->
  Permutation
    (allAddresses (JsMap.set (hooksDb st) (WorkerHook.name hook) hd2))
    (allAddresses (hooksDb st) ++ extra).
Proof.
  unfold priorHook, allAddresses. intros E.
  destruct (JsMap.get (hooksDb st) (WorkerHook.name hook)) as [hd|] eqn:G.
  - destruct (set_present _ _ hd hd2 G) as (b & a & -> & -> & _).
    rewrite !flat_map_app. simpl. rewrite E, <- !app_assoc.
    apply Permutation_app_head. apply Permutation_app_head.
    apply Permutation_app_comm.
  - rewrite (set_absent _ _ _ G), flat_map_app. simpl in *.
    now rewrite E, app_nil_r.
Qed.

Lemma addresses_of_hook (db : JsMap.t (HookData.t nat)) (n : string)
  (hd : HookData.t nat) (loc : Location.t nat) :
  JsMap.get db n = Some hd -> In loc (HookData.locations hd) ->
  In (Location.arguments loc) (allAddresses db).
Proof.
  intros G Hin. apply in_flat_map. exists (n, hd).
  split; [now apply get_In|]. simpl. now apply in_map.
Qed.

Lemma NoDup_flat_map_In {A B : Type} (f : A -> list B) (l : list A) (x : A) :
  NoDup (flat_map f l) -> In x l -> NoDup (f x).
Proof.
  induction l as [|y r IH]; simpl; [tauto|]. intros ND [->|H].
  - now apply NoDup_app_remove_r in ND.
  - apply IH; [|assumption]. now apply NoDup_app_remove_l in ND.
Qed.

Lemma addresses_of_two_hooks (db : JsMap.t (HookData.t nat)) (n m : string)
  (hd hdm : HookData.t nat) (loc locm : Location.t nat) :
  NoDup (allAddresses db) -> n <> m ->
  JsMap.get db n = Some hd -> JsMap.get db m = Some hdm ->
  In loc (HookData.locations hd) -> In locm (HookData.locations hdm) ->
  Location.arguments loc <> Location.arguments locm.
Proof.
  intros ND Hnm G Gm Hin Hinm E.
  apply get_In in G. apply get_In in Gm.
  apply In_nth_error in G as (i & Hi). apply In_nth_error in Gm as (j & Hj).
  assert (Hij : i <> j) by (intros ->; congruence).
  apply (NoDup_flat_map_disjoint _ _ ND i j _ _ (Location.arguments loc) Hij Hi Hj).
  - simpl. now apply in_map.
  - simpl. rewrite E. now apply in_map.
Qed.

Lemma find_app {A : Type} (p : A -> bool) (l l' : list A) :
  find p (l ++ l') = match find p l with
                     | Some x => Some x
                     | None => find p l'
                     end.
Proof.
  induction l as [|x r IH]; simpl; [reflexivity|]. now destruct (p x).
Qed.

Lemma find_named_none (n : string) (l : list WorkerHook.t) :
  (forall o, In o l -> WorkerHook.name o <> n) ->
  find (named n) l = None /\ filter (named n) l = [].
Proof.
  induction l as [|o r IH]; simpl; intros H; [auto|].
  assert (E : named n o = false)
    by (apply String.eqb_neq, H; now left).
  rewrite E. apply IH. auto.
Qed.

Lemma filter_named_snoc_same (l : list WorkerHook.t) (hook : WorkerHook.t) :
  filter (named (WorkerHook.name hook)) (l ++ [hook])
  = filter (named (WorkerHook.name hook)) l ++ [hook].
Proof.
  rewrite filter_app. simpl. unfold named at 2. now rewrite String.eqb_refl.
Qed.

Lemma filter_named_snoc_other (l : list WorkerHook.t) (hook : WorkerHook.t)
  (m : string) :
  WorkerHook.name hook <> m ->
  filter (named m) (l ++ [hook]) = filter (named m) l.
Proof.
  intros N. rewrite filter_app. simpl. unfold named at 2.
  apply String.eqb_neq in N. now rewrite N, app_nil_r.
Qed.

Lemma priorHook_facts (l : list WorkerHook.t) (st : State) (hook : WorkerHook.t) :
  mergeInvariant l st ->
  NoDup (map Location.arguments (HookData.locations (priorHook st hook)))
  /\ (forall loc, In loc (HookData.locations (priorHook st hook)) ->
        In (Location.arguments loc) (allAddresses (hooksDb st)))
  /\ HookData.name (priorHook st hook) = WorkerHook.name hook
  /\ map (readLocation (store st)) (HookData.locations (priorHook st hook))
     = locationsOf (filter (named (WorkerHook.name hook)) l)
  /\ exists first,
       find (named (WorkerHook.name hook)) (l ++ [hook]) = Some first
       /\ HookData.firstVersion (priorHook st hook) = WorkerHook.version first
       /\ HookData.type (priorHook st hook) = WorkerHook.type first.
Proof.
  intros (NDk & Hkeys & NDa & Hb & Hhd). unfold priorHook.
  destruct (JsMap.get (hooksDb st) (WorkerHook.name hook)) as [hd|] eqn:G.
  - destruct (Hhd _ _ G) as (Hn & Hl & first & Hf & Hv & Ht).
    split; [|split; [|split; [|split]]]; auto.
    + apply (NoDup_flat_map_In
               (fun kv => map Location.arguments (HookData.locations (snd kv)))
               _ (WorkerHook.name hook, hd) NDa).
      now apply get_In.
    + intros loc Hin. eapply addresses_of_hook; eauto.
    + exists first. rewrite find_app, Hf. auto.
  - simpl. apply get_None_keys in G.
    destruct (find_named_none (WorkerHook.name hook) l) as [Hf Hfl].
    { intros o Hin E. apply G, Hkeys. eauto. }
    split; [constructor|]. split; [intros ? []|]. split; [reflexivity|].
    split; [now rewrite Hfl|].
    exists hook. rewrite find_app, Hf. simpl. unfold named.
    now rewrite String.eqb_refl.
Qed.

Lemma mergeHook_invariant (l : list WorkerHook.t) (st : State) (hook : WorkerHook.t) :
  mergeInvariant l st -> mergeInvariant (l ++ [hook]) (mergeHook st hook).
Proof.
  intros Inv.
  destruct (priorHook_facts l st hook Inv) as (NDp & Hpa & Hpn & Hpl & first & Hf & Hfv & Hft).
  destruct Inv as (NDk & Hkeys & NDa & Hb & Hhd).
  destruct (mergeHook_shape st hook) as (history & ->).
  set (n := WorkerHook.name hook) in *.
  set (hd2 := HookData.mk _ _ _ _ _).
  pose proof (allAddresses_set st hook hd2 _ (mergedLocations_addresses st hook)) as PA.
  unfold mergeInvariant. simpl hooksDb. simpl store.
  split; [now apply NoDup_keys_set|]. split; [|split; [|split]].
  - (* the names *)
    intros m. destruct (in_dec string_dec n (JsMap.keys (hooksDb st))) as [I|I].
    + rewrite keys_set_present by assumption. rewrite Hkeys. split.
      * intros (o & Ho & E). exists o. rewrite in_app_iff. auto.
      * intros (o & Ho & E). apply in_app_iff in Ho as [Ho|[<-|[]]]; [eauto|].
        apply Hkeys. now rewrite <- E.
    + rewrite keys_set_absent by assumption. rewrite in_app_iff, Hkeys. simpl. split.
      * intros [(o & Ho & E)|[<-|[]]].
        -- exists o. rewrite in_app_iff. auto.
        -- exists hook. rewrite in_app_iff. simpl. auto.
      * intros (o & Ho & E). apply in_app_iff in Ho as [Ho|[<-|[]]]; [eauto|auto].
  - (* the addresses are distinct *)
    eapply Permutation_NoDup; [symmetry; exact PA|].
    destruct (find (sameLocation hook) (HookData.locations (priorHook st hook)));
      [now rewrite app_nil_r|].
    apply NoDup_app; [assumption|repeat constructor; simpl; tauto|].
    intros a Ha [<-|[]]. specialize (Hb _ Ha). lia.
  - (* and allocated *)
    intros a Ha. rewrite mergedStore_length.
    apply (Permutation_in _ PA) in Ha. apply in_app_iff in Ha as [Ha|Ha].
    + specialize (Hb _ Ha). lia.
    + destruct (find (sameLocation hook) (HookData.locations (priorHook st hook)));
        simpl in Ha; [tauto|]. destruct Ha as [<-|[]]. lia.
  - (* the hooks *)
    intros m hd. destruct (string_dec n m) as [<-|N].
    + rewrite get_set_same. intros [= <-]. unfold hd2. simpl.
      split; [exact Hpn|]. split.
      * rewrite mergedLocations_read; auto.
        unfold n. rewrite Hpl, filter_named_snoc_same.
        unfold locationsOf. now rewrite fold_left_app.
      * exists first. auto.
    + rewrite get_set_other by assumption. intros G.
      destruct (Hhd _ _ G) as (Hn & Hl & first' & Hf' & Hv' & Ht').
      split; [assumption|]. split.
      * rewrite (filter_named_snoc_other l hook m N), <- Hl.
        apply read_frame. intros loc Hin. apply mergedStore_frame.
        -- apply Hb. eapply addresses_of_hook; eauto.
        -- intros found F E. unfold priorHook in F. fold n in F.
           destruct (JsMap.get (hooksDb st) n) as [hdn|] eqn:Gn; [|discriminate].
           apply find_some in F as [F _].
           apply (addresses_of_two_hooks _ m n hd hdn loc found NDa); auto.
      * exists first'. rewrite find_app, Hf'. auto.
Qed.

Lemma merge_invariant (l : list WorkerHook.t) :
  mergeInvariant l (fold_left mergeHook l initial).
Proof.
  induction l as [|hook l IH] using rev_ind.
  - unfold mergeInvariant. simpl. repeat split; try constructor.
    + intros [].
    + intros (o & [] & _).
    + intros a [].
    + discriminate.
    + discriminate.
    + discriminate.
  - rewrite fold_left_app. simpl. now apply mergeHook_invariant.
Qed.

End MergeFacts.

(** *** The locations of one version *)

Lemma find_at_version (hook : WorkerHook.t) (v : string)
  (locs : list (Location.t (list string))) :
  atVersion v hook = true ->
  find (sameLocationV hook) (filter (locatedAt v) locs)
  = find (sameLocationV hook) locs.
Proof.
  unfold atVersion. intros Hv. apply String.eqb_eq in Hv.
  induction locs as [|loc r IH]; simpl; [reflexivity|].
  unfold locatedAt at 1. destruct (String.eqb_spec (Location.version loc) v) as [E|N].
  - simpl. now rewrite IH.
  - rewrite IH. unfold sameLocationV at 2.
    destruct (String.eqb_spec (Location.version loc) (WorkerHook.version hook));
      [congruence|reflexivity].
Qed.

Lemma updateFoundV_at_version (hook : WorkerHook.t) (v : string)
  (locs : list (Location.t (list string))) :
  atVersion v hook = true ->
  filter (locatedAt v) (updateFoundV hook locs)
  = updateFoundV hook (filter (locatedAt v) locs).
Proof.
  unfold atVersion. intros Hv. apply String.eqb_eq in Hv.
  induction locs as [|loc r IH]; simpl; [reflexivity|].
  destruct (sameLocationV hook loc) eqn:S.
  - assert (E : Location.version loc = v).
    { unfold sameLocationV in S. apply andb_true_iff in S as [S _].
      apply String.eqb_eq in S. congruence. }
    assert (L : locatedAt v loc = true) by (now apply String.eqb_eq).
    simpl. change (locatedAt v (mergedLocationV hook loc)) with (locatedAt v loc).
    rewrite L. simpl. now rewrite S.
  - simpl. destruct (locatedAt v loc); simpl; [rewrite S|]; now rewrite IH.
Qed.

Lemma updateFoundV_other_version (hook : WorkerHook.t) (v : string)
  (locs : list (Location.t (list string))) :
  atVersion v hook = false ->
  filter (locatedAt v) (updateFoundV hook locs) = filter (locatedAt v) locs.
Proof.
  unfold atVersion. intros Hv. apply String.eqb_neq in Hv.
  induction locs as [|loc r IH]; simpl; [reflexivity|].
  destruct (sameLocationV hook loc) eqn:S.
  - assert (E : Location.version loc = WorkerHook.version hook).
    { unfold sameLocationV in S. apply andb_true_iff in S as [S _].
      now apply String.eqb_eq in S. }
    assert (L : locatedAt v loc = false)
      by (apply String.eqb_neq; congruence).
    simpl. change (locatedAt v (mergedLocationV hook loc)) with (locatedAt v loc).
    now rewrite L.
  - simpl. now rewrite IH.
Qed.

Lemma foldLocation_at_version (hook : WorkerHook.t) (v : string)
  (locs : list (Location.t (list string))) :
  filter (locatedAt v) (foldLocation locs hook)
  = if atVersion v hook then foldLocation (filter (locatedAt v) locs) hook
    else filter (locatedAt v) locs.
Proof.
  unfold foldLocation. destruct (atVersion v hook) eqn:Hv.
  - rewrite find_at_version by assumption.
    destruct (find (sameLocationV hook) locs).
    + now apply updateFoundV_at_version.
    + rewrite filter_app. simpl. unfold locatedAt at 2. simpl.
      unfold atVersion in Hv. now rewrite Hv.
  - destruct (find (sameLocationV hook) locs).
    + now apply updateFoundV_other_version.
    + rewrite filter_app. simpl. unfold locatedAt at 2. simpl.
      unfold atVersion in Hv. now rewrite Hv, app_nil_r.
Qed.

Lemma locationsOf_at_version (v : string) (occs : list WorkerHook.t) :
  filter (locatedAt v) (locationsOf occs)
  = locationsOf (filter (atVersion v) occs).
Proof.
  unfold locationsOf. induction occs as [|o l IH] using rev_ind; [reflexivity|].
  rewrite filter_app, !fold_left_app. simpl.
  rewrite foldLocation_at_version, IH.
  destruct (atVersion v o); reflexivity.
Qed.

(** *** Arrival orders *)

Lemma filter_Permutation {A : Type} (p : A -> bool) (l l' : list A) :
  Permutation l l' -> Permutation (filter p l) (filter p l').
Proof.
  induction 1 as [|x l l' P IH|x y l|l l' l'' P1 IH1 P2 IH2]; simpl.
  - constructor.
  - destruct (p x); [now constructor|assumption].
  - destruct (p x), (p y); try reflexivity. apply perm_swap.
  - etransitivity; eassumption.
Qed.

Lemma concat_single_nonempty {A : Type} (bs bs' : list (list A)) :
  Permutation bs bs' ->
  (List.length (filter (fun b => negb (Nat.eqb (List.length b) 0)) bs) <= 1)%nat ->
  List.concat bs = List.concat bs'.
Proof.
  induction 1 as [|x l l' P IH|x y l|l l' l'' P1 IH1 P2 IH2]; simpl; intros H.
  - reflexivity.
  - f_equal. apply IH. destruct (Nat.eqb (List.length x) 0); simpl in H; lia.
  - destruct x as [|a x], y as [|b y]; simpl in *; try reflexivity. lia.
  - rewrite IH1 by assumption. apply IH2.
    erewrite <- Permutation_length; [exact H|].
    now apply filter_Permutation.
Qed.

Lemma separateVersions_single (v : string) (results : list (list WorkerHook.t)) :
  separateVersions results = true ->
  (List.length (filter (existsb (atVersion v)) results) <= 1)%nat.
Proof.
  induction results as [|hooks rest IH]; simpl; [lia|].
  intros H. apply andb_true_iff in H as [Hsep Hrest].
  specialize (IH Hrest).
  destruct (existsb (atVersion v) hooks) eqn:E; simpl; [|assumption].
  assert (Z : filter (existsb (atVersion v)) rest = []); [|rewrite Z; simpl; lia].
  apply existsb_exists in E as (o & Ho & Ev).
  apply String.eqb_eq in Ev.
  clear - Hsep Ho Ev. induction rest as [|hooks' rest IH]; simpl in *; [reflexivity|].
  apply andb_true_iff in Hsep as [H1 H2]. rewrite (IH H2).
  destruct (existsb (atVersion v) hooks') eqn:E'; [|reflexivity].
  apply existsb_exists in E' as (o' & Ho' & Ev'). apply String.eqb_eq in Ev'.
  rewrite forallb_forall in H1. specialize (H1 _ Ho).
  rewrite forallb_forall in H1. specialize (H1 _ Ho').
  rewrite Ev, Ev', String.eqb_refl in H1. discriminate.
Qed.

Lemma filter_length_le {A B : Type} (f : B -> bool) (g : A -> B) (h : A -> bool)
  (l : list A) :
  (forall x, f (g x) = true -> h x = true) ->
  (List.length (filter f (map g l)) <= List.length (filter h l))%nat.
Proof.
  intros H. induction l as [|x r IH]; simpl; [lia|].
  destruct (f (g x)) eqn:E.
  - rewrite (H _ E). simpl. lia.
  - destruct (h x); simpl; lia.
Qed.

Lemma concat_filter {A : Type} (p : A -> bool) (bs : list (list A)) :
  filter p (List.concat bs) = List.concat (map (filter p) bs).
Proof.
  induction bs as [|b r IH]; simpl; [reflexivity|].
  now rewrite filter_app, IH.
Qed.

(** The records of one version arrive together, in the worker's order. *)
Lemma occurrences_at_version (results results' : list (list WorkerHook.t))
  (n v : string) :
  Permutation results results' ->
  separateVersions results = true ->
  filter (atVersion v) (filter (named n) (occurrences results))
  = filter (atVersion v) (filter (named n) (occurrences results')).
Proof.
  intros P S. unfold occurrences. rewrite !concat_filter, !map_map.
  apply concat_single_nonempty.
  - now apply Permutation_map.
  - etransitivity; [|exact (separateVersions_single v results S)].
    apply filter_length_le. intros hooks H.
    destruct (filter (atVersion v) (filter (named n) hooks)) as [|o r] eqn:E;
      [discriminate|].
    assert (Hin : In o (filter (atVersion v) (filter (named n) hooks)))
      by (rewrite E; now left).
    apply filter_In in Hin as [Hin Hv]. apply filter_In in Hin as [Hin _].
    apply existsb_exists. eauto.
Qed.

(** *** The merged index *)

Lemma keys_map_value {A B : Type} (f : A -> B) (m : JsMap.t A) :
  JsMap.keys (map (fun kv => (fst kv, f (snd kv))) m) = JsMap.keys m.
Proof. unfold JsMap.keys. rewrite map_map. reflexivity. Qed.

Lemma mergedIndex_keys (results : list (list WorkerHook.t)) :
  NoDup (JsMap.keys (mergedIndex results))
  /\ forall n, In n (JsMap.keys (mergedIndex results))
               <-> exists o, In o (occurrences results) /\ WorkerHook.name o = n.
Proof.
  unfold mergedIndex, Merge.read. rewrite keys_map_value.
  rewrite MergeFacts.mergeResults_occurrences.
  destruct (MergeFacts.merge_invariant (occurrences results)) as (ND & K & _).
  auto.
Qed.

(** A hook of the merged index: its locations are the fold of its records
    in arrival order, and its first version and type are those of the first
    record to arrive. *)
Lemma mergedIndex_hook (results : list (list WorkerHook.t)) (n : string)
  (hook : HookData.t (list string)) :
  JsMap.get (mergedIndex results) n = Some hook ->
  HookData.name hook = n
  /\ HookData.locations hook
     = locationsOf (filter (named n) (occurrences results))
  /\ exists first,
       find (named n) (occurrences results) = Some first
       /\ HookData.firstVersion hook = WorkerHook.version first
       /\ HookData.type hook = WorkerHook.type first.
Proof.
  unfold mergedIndex, Merge.read. rewrite get_map_value.
  rewrite MergeFacts.mergeResults_occurrences.
  destruct (MergeFacts.merge_invariant (occurrences results)) as (_ & _ & _ & _ & H).
  destruct (JsMap.get _ n) as [hd|] eqn:G; [|discriminate].
  simpl. intros [= <-]. destruct (H _ _ G) as (Hn & Hl & Hf). auto.
Qed.

Lemma has_keys {V : Type} (m : JsMap.t V) (k : string) :
  JsMap.has m k = true <-> In k (JsMap.keys m).
Proof.
  unfold JsMap.has. destruct (JsMap.get m k) eqn:G.
  - split; [intros _|reflexivity].
    apply get_In in G. change k with (fst (k, v)). now apply in_map.
  - apply get_None_keys in G. split; [discriminate|tauto].
Qed.

Lemma occurrences_In (results results' : list (list WorkerHook.t))
  (o : WorkerHook.t) :
  Permutation results results' ->
  In o (occurrences results) -> In o (occurrences results').
Proof.
  unfold occurrences. intros P H. apply in_concat in H as (b & Hb & Ho).
  apply in_concat. exists b. split; [|assumption].
  now apply (Permutation_in _ P).
Qed.

Lemma mergedIndex_same_names (results results' : list (list WorkerHook.t))
  (n : string) :
  Permutation results results' ->
  In n (JsMap.keys (mergedIndex results))
  <-> In n (JsMap.keys (mergedIndex results')).
Proof.
  intros P. destruct (mergedIndex_keys results) as [_ K].
  destruct (mergedIndex_keys results') as [_ K']. rewrite K, K'.
  split; intros (o & Ho & E); exists o; (split; [|assumption]).
  - now apply (occurrences_In results results').
  - apply (occurrences_In results' results); [now symmetry|assumption].
Qed.

Lemma consolidateArgumentsForVersion_at_version
  (hook hook' : HookData.t (list string)) (v : string) :
  filter (locatedAt v) (HookData.locations hook)
  = filter (locatedAt v) (HookData.locations hook') ->
  consolidateArgumentsForVersion hook v = consolidateArgumentsForVersion hook' v.
Proof.
  unfold consolidateArgumentsForVersion, allArgumentArrays, locatedAt.
  now intros ->.
Qed.

(** X26: what does not depend on the order in which the workers' results
    arrive, every worker having its own version: the merged index has the
    same hook names and the artifact the same number of hooks, and a hook
    has the same locations at every version, with the same lines and
    arguments and in the same order, hence the same consolidated signature
    at every version. *)
Theorem merge_up_to_arrival_order (results results' : list (list WorkerHook.t)) :
  Permutation results results' ->
  separateVersions results = true ->
  (forall n, JsMap.has (mergedIndex results) n
             = JsMap.has (mergedIndex results') n)
  /\ Report.totalHooks (runPipeline results)
     = Report.totalHooks (runPipeline results')
  /\ (forall n hook hook',
        JsMap.get (mergedIndex results) n = Some hook ->
        JsMap.get (mergedIndex results') n = Some hook' ->
        (forall v,
           filter (locatedAt v) (HookData.locations hook)
           = filter (locatedAt v) (HookData.locations hook')
           /\ consolidateArgumentsForVersion hook v
              = consolidateArgumentsForVersion hook' v)
        /\ (forall loc, In loc (HookData.locations hook)
                        <-> In loc (HookData.locations hook'))).
Proof.
  intros P S.
  assert (L : forall n hook hook' v,
             JsMap.get (mergedIndex results) n = Some hook ->
             JsMap.get (mergedIndex results') n = Some hook' ->
             filter (locatedAt v) (HookData.locations hook)
             = filter (locatedAt v) (HookData.locations hook')).
  { intros n hook hook' v G G'.
    destruct (mergedIndex_hook _ _ _ G) as (_ & -> & _).
    destruct (mergedIndex_hook _ _ _ G') as (_ & -> & _).
    rewrite !locationsOf_at_version. f_equal.
    now apply occurrences_at_version. }
  split; [|split].
  - intros n. pose proof (mergedIndex_same_names results results' n P) as H.
    rewrite <- !has_keys in H.
    destruct (JsMap.has (mergedIndex results) n),
      (JsMap.has (mergedIndex results') n); try reflexivity;
      destruct H as [H1 H2]; [symmetry; now apply H1|now apply H2].
  - unfold runPipeline, generateReport, consolidateArgumentHistory. simpl.
    rewrite !length_map. f_equal.
    rewrite <- (length_map fst (mergedIndex results)),
      <- (length_map fst (mergedIndex results')).
    apply Permutation_length, NoDup_Permutation;
      try apply mergedIndex_keys.
    intros n. now apply mergedIndex_same_names.
  - intros n hook hook' G G'. split.
    + intros v. split; [now apply (L n)|].
      apply consolidateArgumentsForVersion_at_version. now apply (L n).
    + intros loc.
      assert (E : forall locs : list (Location.t (list string)),
                 In loc locs
                 <-> In loc (filter (locatedAt (Location.version loc)) locs)).
      { intros locs. rewrite filter_In. unfold locatedAt.
        rewrite String.eqb_refl. tauto. }
      rewrite (E (HookData.locations hook)), (E (HookData.locations hook')).
      now rewrite (L n hook hook' _ G G').
Qed.

Lemma merge_up_to_arrival_order_witness :
  JsMap.has (mergedIndex exampleInOrder) "X"
  = JsMap.has (mergedIndex exampleOutOfOrder) "X"
  /\ Report.totalHooks (runPipeline exampleInOrder)
     = Report.totalHooks (runPipeline exampleOutOfOrder).
Proof.
  destruct (merge_up_to_arrival_order exampleInOrder exampleOutOfOrder)
    as (H1 & H2 & _); [apply perm_swap|reflexivity|].
  split; [apply H1|exact H2].
Defined.

(** C2: the artifact follows the arrival order.  The results of two
    versions, merged in version order and in the opposite order, give two
    merged indexes and two artifacts: the hook has first version v1.0.0 in
    the one and v2.0.0 in the other, its locations and the versions of its
    history entry are listed in arrival order, and the entry is first seen
    at the version that arrived first. *)
Theorem arrival_order_changes_content :
  Permutation exampleInOrder exampleOutOfOrder
  /\ mergedIndex exampleInOrder <> mergedIndex exampleOutOfOrder
  /\ runPipeline exampleInOrder <> runPipeline exampleOutOfOrder
  /\ map (fun h => (ReportHook.firstVersion h,
                    map Location.version (ReportHook.locations h),
                    map (fun e => (ReportEntry.firstSeenVersion e,
                                   ReportEntry.versions e))
                      (ReportHook.argumentHistory h)))
       (Report.hooks (runPipeline exampleInOrder))
     = [("v1.0.0", ["v1.0.0"; "v2.0.0"], [("v1.0.0", ["v1.0.0"; "v2.0.0"])])]
  /\ map (fun h => (ReportHook.firstVersion h,
                    map Location.version (ReportHook.locations h),
                    map (fun e => (ReportEntry.firstSeenVersion e,
                                   ReportEntry.versions e))
                      (ReportHook.argumentHistory h)))
       (Report.hooks (runPipeline exampleOutOfOrder))
     = [("v2.0.0", ["v2.0.0"; "v1.0.0"], [("v2.0.0", ["v2.0.0"; "v1.0.0"])])]
  /\ ~ (forall results results',
          Permutation results results' ->
          runPipeline results = runPipeline results').
Proof.
  assert (D : runPipeline exampleInOrder <> runPipeline exampleOutOfOrder).
  { intros E. apply (f_equal (fun r => map ReportHook.firstVersion (Report.hooks r))) in E.
    vm_compute in E. discriminate. }
  split; [apply perm_swap|]. split; [|split; [exact D|]].
  - intros E. apply (f_equal (fun db => map HookData.firstVersion (JsMap.values db))) in E.
    vm_compute in E. discriminate.
  - split; [vm_compute; reflexivity|]. split; [vm_compute; reflexivity|].
    intros H. apply D, H, perm_swap.
Qed.

(** C4, evaluated.  When the worker of v2.0.0 finishes before the worker of
    v1.0.0 the hook keeps v2.0.0 as its first version although it has a
    location at v1.0.0; in version order it is v1.0.0. *)
Theorem firstVersion_follows_arrival :
  option_map
    (fun h => (HookData.firstVersion h,
               map Location.version (HookData.locations h)))
    (JsMap.get (mergedIndex exampleOutOfOrder) "X")
  = Some ("v2.0.0", ["v2.0.0"; "v1.0.0"])
  /\ earliest ["v2.0.0"; "v1.0.0"] = Some "v1.0.0"
  /\ compareVersions "v1.0.0" "v2.0.0" = Some (-1)
  /\ option_map
       (fun h => (HookData.firstVersion h,
                  map Location.version (HookData.locations h)))
       (JsMap.get (mergedIndex exampleInOrder) "X")
     = Some ("v1.0.0", ["v1.0.0"; "v2.0.0"]).
Proof. repeat split. Qed.

(** ** Argument Consolidator *)

Lemma includesS_In (l : list string) (x : string) :
  Js.includesS l x = true <-> In x l.
Proof.
  unfold Js.includesS. rewrite existsb_exists. split.
  - intros (y & Hy & E). apply String.eqb_eq in E. now subst.
  - intros H. exists x. split; [assumption|apply String.eqb_refl].
Qed.

Lemma isPlainVariableName_spec (arg : string) :
  isPlainVariableName arg = true
  <-> isIdentifier arg = true /\ ~ In arg reservedNames.
Proof.
  unfold isPlainVariableName. rewrite andb_true_iff, negb_true_iff.
  rewrite <- includesS_In. destruct (Js.includesS reservedNames arg); intuition congruence.
Qed.

Lemma firstPlainName_some (g : list string) (a : string) :
  firstPlainName g = Some a ->
  exists before after,
    g = before ++ a :: after
    /\ Forall (fun t => isPlainVariableName t = false) before
    /\ isPlainVariableName a = true.
Proof.
  induction g as [|x g IH]; simpl; [discriminate|].
  destruct (isPlainVariableName x) eqn:E.
  - intros [= <-]. now exists [], g.
  - intros H. destruct (IH H) as (b & c & -> & Hb & Ha).
    exists (x :: b), c. auto.
Qed.


Lemma firstExtractedName_some (g : list string) (m : string) :
  firstExtractedName g = Some m ->
  exists before token after,
    g = before ++ token :: after
    /\ Forall (fun t => extractMethodOrMemberName t = None) before
    /\ extractMethodOrMemberName token = Some m.
Proof.
  induction g as [|x g IH]; simpl; [discriminate|].
  destruct (extractMethodOrMemberName x) eqn:E.
  - intros [= <-]. now exists [], x, g.
  - intros H. destruct (IH H) as (b & t & c & -> & Hb & Ht).
    exists (x :: b), t, c. auto.
Qed.









(** ** Argument Consolidator: the history *)

Lemma setAdd_In (s : list string) (x y : string) :
  In y (setAdd s x) <-> In y s \/ y = x.
Proof.
  unfold setAdd. destruct (Js.includesS s x) eqn:E.
  - apply includesS_In in E. intuition (subst; auto).
  - rewrite in_app_iff. simpl. intuition.
Qed.

Lemma setAdd_NoDup (s : list string) (x : string) :
  NoDup s -> NoDup (setAdd s x).
Proof.
  unfold setAdd. destruct (Js.includesS s x) eqn:E; [auto|]. intros ND.
  apply NoDup_app; [assumption|repeat constructor; simpl; tauto|].
  intros y Hy [<-|[]]. apply includesS_In in Hy. congruence.
Qed.

Lemma fold_setAdd_NoDup (l acc : list string) :
  NoDup acc -> NoDup (fold_left setAdd l acc).
Proof.
  revert acc. induction l as [|x r IH]; simpl; intros acc ND; [assumption|].
  now apply IH, setAdd_NoDup.
Qed.

Lemma fold_setAdd_In (l acc : list string) (y : string) :
  In y (fold_left setAdd l acc) <-> In y acc \/ In y l.
Proof.
  revert acc. induction l as [|x r IH]; simpl; intros acc; [tauto|].
  rewrite IH, setAdd_In. intuition.
Qed.

Lemma allVersionsOf_NoDup (hookData : HookData.t (list string)) :
  NoDup (allVersionsOf hookData).
Proof.
  unfold allVersionsOf.
  generalize (JsMap.values (HookData.argumentHistory hookData)).
  assert (G : forall (l : list (HistoryEntry.t (list string))) acc,
            NoDup acc ->
            NoDup (fold_left
                     (fun acc history =>
                        fold_left setAdd (HistoryEntry.versions history) acc)
                     l acc)).
  { induction l as [|e r IH]; simpl; intros acc ND; [assumption|].
    now apply IH, fold_setAdd_NoDup. }
  intros l. apply G. constructor.
Qed.

Lemma allVersionsOf_In (hookData : HookData.t (list string)) (v : string) :
  In v (allVersionsOf hookData)
  <-> In v (memberships (HookData.argumentHistory hookData)).
Proof.
  unfold allVersionsOf, memberships, JsMap.values.
  generalize (HookData.argumentHistory hookData). intros h.
  assert (G : forall (l : JsMap.t (HistoryEntry.t (list string))) acc,
            In v (fold_left
                    (fun acc history =>
                       fold_left setAdd (HistoryEntry.versions history) acc)
                    (map snd l) acc)
            <-> In v acc
                \/ In v (flat_map (fun kv => HistoryEntry.versions (snd kv)) l)).
  { induction l as [|e r IH]; simpl; intros acc; [tauto|].
    rewrite IH, fold_setAdd_In, in_app_iff. tauto. }
  rewrite G. simpl. tauto.
Qed.

Lemma Permutation_insert_inner {A : Type} (v : A) (b e a : list A) :
  Permutation (b ++ (e ++ [v]) ++ a) (v :: b ++ e ++ a).
Proof.
  rewrite <- (app_assoc e [v] a). simpl.
  rewrite (app_assoc b e (v :: a)), (app_assoc b e a).
  symmetry. apply Permutation_middle.
Qed.

(** One more version goes to exactly one entry. *)
Lemma consolidateVersion_memberships (hookData : HookData.t (list string))
  (history : JsMap.t (HistoryEntry.t (list string))) (version : string) :
  ~ In version (memberships history) ->
  Permutation (memberships (consolidateVersion hookData history version))
    (version :: memberships history).
Proof.
  intros Hn. unfold consolidateVersion.
  set (args := consolidateArgumentsForVersion hookData version).
  set (key := JSON_stringify args).
  destruct (JsMap.has history key) eqn:H.
  - apply has_get in H as (e & G). rewrite G.
    destruct (Js.includesS (HistoryEntry.versions e) version) eqn:I.
    + exfalso. apply Hn. apply includesS_In in I.
      apply get_In in G. unfold memberships. apply in_flat_map.
      exists (key, e). auto.
    + destruct (set_present history key e
                  (HistoryEntry.mk (HistoryEntry.arguments e)
                     (HistoryEntry.firstSeenVersion e)
                     (HistoryEntry.versions e ++ [version])) G)
        as (b & a & -> & -> & _).
      unfold memberships. rewrite !flat_map_app. simpl.
      apply Permutation_insert_inner.
  - apply has_false in H. rewrite get_set_same. simpl.
    rewrite (set_absent history key _ H).
    rewrite (set_absent_update history key). 
    + unfold memberships. rewrite flat_map_app. simpl.
      symmetry. apply Permutation_cons_append.
    + assumption.
Qed.

Lemma fold_consolidateVersion_memberships (hookData : HookData.t (list string))
  (versions : list string) :
  forall history,
    NoDup (versions ++ memberships history) ->
    Permutation
      (memberships (fold_left (consolidateVersion hookData) versions history))
      (versions ++ memberships history).
Proof.
  induction versions as [|v r IH]; simpl; intros history ND; [reflexivity|].
  inversion ND as [|? ? Hn ND']; subst.
  assert (P : Permutation (memberships (consolidateVersion hookData history v))
                (v :: memberships history)).
  { apply consolidateVersion_memberships. intros H. apply Hn.
    apply in_app_iff. now right. }
  rewrite IH.
  - rewrite P. symmetry. apply Permutation_middle.
  - eapply Permutation_NoDup; [|exact ND].
    rewrite P. apply Permutation_middle.
Qed.

Lemma consolidateHook_memberships (hookData : HookData.t (list string)) :
  tracksArguments (HookData.type hookData) = true ->
  Permutation (memberships (HookData.argumentHistory (consolidateHook hookData)))
    (allVersionsOf hookData).
Proof.
  intros T. unfold consolidateHook. rewrite T. simpl.
  rewrite fold_consolidateVersion_memberships; simpl; rewrite app_nil_r;
    [reflexivity|apply allVersionsOf_NoDup].
Qed.






(** C3, evaluated.  When the worker of v2.0.0 finishes before the worker of
    v1.0.0 the entry records v2.0.0 as first seen although v1.0.0 is a
    member; and when the workers finish in version order but the raw
    arguments of v1.0.0 come back in v3.0.0, the entry of v2.0.0 and v3.0.0
    records v3.0.0.  Results that arrive in version order without such a
    return give the earliest member. *)
Theorem firstSeenVersion_follows_iteration_order :
  historyOf (consolidateArgumentHistory (mergedIndex exampleOutOfOrder)) "X"
  = [(["topic"], "v2.0.0", ["v2.0.0"; "v1.0.0"])]
  /\ earliest ["v2.0.0"; "v1.0.0"] = Some "v1.0.0"
  /\ historyOf (consolidateArgumentHistory (mergedIndex exampleRecurring)) "X"
     = [(["value"], "v1.0.0", ["v1.0.0"]);
        (["topic"], "v3.0.0", ["v3.0.0"; "v2.0.0"])]
  /\ earliest ["v3.0.0"; "v2.0.0"] = Some "v2.0.0"
  /\ historyOf (consolidateArgumentHistory (mergedIndex exampleInOrder)) "X"
     = [(["topic"], "v1.0.0", ["v1.0.0"; "v2.0.0"])].
Proof. repeat split. Qed.


(** What the entries of a consolidated history hold: the key of an entry is
    its signature, the signature is the consolidated signature of every
    member, and the version recorded as first seen is the member that came
    first in the iteration. *)
Lemma consolidateVersion_entries (hookData : HookData.t (list string))
  (history : JsMap.t (HistoryEntry.t (list string))) (version : string) :
  (forall k e, In (k, e) history ->
     k = JSON_stringify (HistoryEntry.arguments e)
     /\ (forall v, In v (HistoryEntry.versions e) ->
           consolidateArgumentsForVersion hookData v = HistoryEntry.arguments e)
     /\ exists rest,
          HistoryEntry.versions e = HistoryEntry.firstSeenVersion e :: rest) ->
  forall k e, In (k, e) (consolidateVersion hookData history version) ->
    k = JSON_stringify (HistoryEntry.arguments e)
    /\ (forall v, In v (HistoryEntry.versions e) ->
          consolidateArgumentsForVersion hookData v = HistoryEntry.arguments e)
    /\ exists rest,
         HistoryEntry.versions e = HistoryEntry.firstSeenVersion e :: rest.
Proof.
  intros Inv k e. unfold consolidateVersion.
  set (args := consolidateArgumentsForVersion hookData version).
  set (key := JSON_stringify args).
  destruct (JsMap.has history key) eqn:H.
  - apply has_get in H as (e0 & G). rewrite G.
    destruct (Inv _ _ (get_In _ _ _ G)) as (Hk & Hv & rest & Hr).
    assert (Ha : HistoryEntry.arguments e0 = args)
      by (symmetry; now apply JSON_stringify_inj).
    destruct (Js.includesS (HistoryEntry.versions e0) version); [apply Inv|].
    destruct (set_present history key e0
                (HistoryEntry.mk (HistoryEntry.arguments e0)
                   (HistoryEntry.firstSeenVersion e0)
                   (HistoryEntry.versions e0 ++ [version])) G)
      as (b & a & E & -> & _).
    intros Hin. apply in_app_iff in Hin as [Hin|[[= <- <-]|Hin]].
    + apply Inv. rewrite E. apply in_app_iff. auto.
    + simpl. split; [assumption|]. split.
      * intros v Hin. apply in_app_iff in Hin as [Hin|[<-|[]]]; [auto|].
        now rewrite Ha.
      * exists (rest ++ [version]). now rewrite Hr.
    + apply Inv. rewrite E. apply in_app_iff. simpl. auto.
  - apply has_false in H. rewrite get_set_same. simpl.
    rewrite (set_absent history key _ H), (set_absent_update history key) by assumption.
    intros Hin. apply in_app_iff in Hin as [Hin|[[= <- <-]|[]]]; [now apply Inv|].
    simpl. split; [reflexivity|]. split.
    + intros v [<-|[]]. reflexivity.
    + now exists [].
Qed.

Lemma consolidateHook_entries (hookData : HookData.t (list string)) :
  tracksArguments (HookData.type hookData) = true ->
  forall k e,
    In (k, e) (HookData.argumentHistory (consolidateHook hookData)) ->
    k = JSON_stringify (HistoryEntry.arguments e)
    /\ (forall v, In v (HistoryEntry.versions e) ->
          consolidateArgumentsForVersion hookData v = HistoryEntry.arguments e)
    /\ exists rest,
         HistoryEntry.versions e = HistoryEntry.firstSeenVersion e :: rest.
Proof.
  intros T. unfold consolidateHook. rewrite T. simpl.
  generalize (allVersionsOf hookData) as versions.
  assert (G : forall versions history,
            (forall k e, In (k, e) history ->
               k = JSON_stringify (HistoryEntry.arguments e)
               /\ (forall v, In v (HistoryEntry.versions e) ->
                     consolidateArgumentsForVersion hookData v
                     = HistoryEntry.arguments e)
               /\ exists rest,
                    HistoryEntry.versions e
                    = HistoryEntry.firstSeenVersion e :: rest) ->
            forall k e,
              In (k, e) (fold_left (consolidateVersion hookData) versions history) ->
              k = JSON_stringify (HistoryEntry.arguments e)
              /\ (forall v, In v (HistoryEntry.versions e) ->
                    consolidateArgumentsForVersion hookData v
                    = HistoryEntry.arguments e)
              /\ exists rest,
                   HistoryEntry.versions e
                   = HistoryEntry.firstSeenVersion e :: rest).
  { induction versions as [|v r IH]; simpl; intros history Inv; [exact Inv|].
    apply IH. now apply consolidateVersion_entries. }
  intros versions. apply G. intros k e [].
Qed.

(** The signature recorded for a version is its consolidated signature, and
    two versions share an entry exactly when their consolidated signatures
    are equal. *)
Lemma consolidateHook_signature (hookData : HookData.t (list string))
  (version : string) :
  tracksArguments (HookData.type hookData) = true ->
  In version (allVersionsOf hookData) ->
  exists k e,
    In (k, e) (HookData.argumentHistory (consolidateHook hookData))
    /\ In version (HistoryEntry.versions e)
    /\ HistoryEntry.arguments e
       = consolidateArgumentsForVersion hookData version.
Proof.
  intros T Hin.
  apply (Permutation_in _ (Permutation_sym (consolidateHook_memberships hookData T)))
    in Hin.
  unfold memberships in Hin. apply in_flat_map in Hin as ([k e] & He & Hv).
  exists k, e. split; [assumption|]. split; [assumption|].
  destruct (consolidateHook_entries hookData T k e He) as (_ & H & _).
  symmetry. now apply H.
Qed.

(** ** What [extractMethodOrMemberName] extracts *)

Lemma wordRun_spec (s : string) :
  (fst (wordRun s) ++ snd (wordRun s))%string = s
  /\ Js.forall_chars Js.is_word (fst (wordRun s)) = true.
Proof.
  induction s as [|c r [IH1 IH2]]; simpl; [auto|].
  destruct (Js.is_word c) eqn:W; [|auto].
  destruct (wordRun r) as [w rest]. simpl in *. rewrite IH1, W. auto.
Qed.

Lemma identifierAt_spec (s id rest : string) :
  identifierAt s = Some (id, rest) ->
  s = (id ++ rest)%string /\ isIdentifier id = true.
Proof.
  destruct s as [|c r]; simpl; [discriminate|].
  destruct (Js.is_ident_start c) eqn:I; [|discriminate].
  destruct (wordRun_spec r) as [E W].
  destruct (wordRun r) as [w rest']. simpl in *.
  intros [= <- <-]. simpl. rewrite I, W, E. auto.
Qed.

Lemma methodMatch_sound (arg name : string) :
  methodMatch arg = Some name ->
  isIdentifier name = true
  /\ exists before after,
       arg = (before ++ String "." (name ++ "()" ++ after))%string.
Proof.
  induction arg as [|c r IH]; simpl; [discriminate|].
  assert (Skip : methodMatch r = Some name ->
            isIdentifier name = true
            /\ exists before after,
                 String c r = (before ++ String "." (name ++ "()" ++ after))%string).
  { intros H. destruct (IH H) as (I & b & a & ->). split; [assumption|].
    now exists (String c b), a. }
  destruct (Ascii.eqb_spec c ".") as [->|_]; [|exact Skip].
  destruct (identifierAt r) as [[id rest]|] eqn:E; [|exact Skip].
  destruct (String.prefix "()" rest) eqn:P; [|exact Skip].
  intros [= <-]. apply identifierAt_spec in E as [-> I]. split; [assumption|].
  apply prefix_correct in P. simpl in P.
  exists "", (substring 2 (String.length rest - 2) rest).
  simpl. f_equal. f_equal.
  destruct rest as [|a [|b rest]]; try discriminate.
  simpl in P. injection P as -> ->. simpl. f_equal. f_equal.
  rewrite Nat.sub_0_r. clear. induction rest as [|x rest IH]; simpl; [reflexivity|].
  now rewrite <- IH at 1.
Qed.

Lemma memberMatch_sound (arg name : string) :
  memberMatch arg = Some name ->
  isIdentifier name = true
  /\ exists before, arg = (before ++ String "." name)%string.
Proof.
  induction arg as [|c r IH]; simpl; [discriminate|].
  assert (Skip : memberMatch r = Some name ->
            isIdentifier name = true
            /\ exists before, String c r = (before ++ String "." name)%string).
  { intros H. destruct (IH H) as (I & b & ->). split; [assumption|].
    now exists (String c b). }
  destruct (Ascii.eqb_spec c ".") as [->|_]; [|exact Skip].
  destruct (identifierAt r) as [[id [|x rest]]|] eqn:E; try exact Skip.
  intros [= <-]. apply identifierAt_spec in E as [-> I]. split; [assumption|].
  exists "". simpl. now rewrite append_empty_r.
Qed.

(** An extracted name is an identifier that follows a dot in the token,
    before an empty pair of parentheses or at the end of the token. *)
Lemma extractMethodOrMemberName_sound (arg name : string) :
  extractMethodOrMemberName arg = Some name ->
  isIdentifier name = true
  /\ ((exists before after,
         arg = (before ++ String "." (name ++ "()" ++ after))%string)
      \/ (exists before, arg = (before ++ String "." name)%string)).
Proof.
  unfold extractMethodOrMemberName.
  destruct (methodMatch arg) as [m|] eqn:M.
  - intros [= <-]. destruct (methodMatch_sound _ _ M). auto.
  - intros H. destruct (memberMatch_sound _ _ H). auto.
Qed.

(** ** Report Assembler *)

Lemma fold_left_sum {A : Type} (f : A -> Z) (l : list A) (acc : Z) :
  fold_left (fun sum x => sum + f x) l acc = acc + sumZ (map f l).
Proof.
  unfold sumZ. revert acc. induction l as [|x r IH]; simpl; intros acc; [lia|].
  rewrite IH. lia.
Qed.

Lemma filter_map_commute {A B : Type} (f : A -> B) (p : B -> bool) (l : list A) :
  filter p (map f l) = map f (filter (fun x => p (f x)) l).
Proof.
  induction l as [|x r IH]; simpl; [reflexivity|].
  destruct (p (f x)); simpl; now rewrite IH.
Qed.

Lemma reportHook_present (latestVersion : option string)
  (hook : HookData.t (list string)) :
  inLatestVersion latestVersion (reportHook hook) = presentIn latestVersion hook.
Proof. reflexivity. Qed.

Lemma reportHook_changed (hook : HookData.t (list string)) :
  ReportHook.hasArgumentChanges (reportHook hook) = changed hook.
Proof.
  unfold reportHook, changed, JsMap.values. simpl. now rewrite !length_map.
Qed.

Lemma reportHook_changes (hook : HookData.t (list string)) :
  ReportHook.argumentChangeCount (reportHook hook) = changesOf hook.
Proof.
  unfold reportHook, changesOf, JsMap.values. simpl. now rewrite !length_map.
Qed.

Lemma filter_filter_and {A : Type} (p q : A -> bool) (l : list A) :
  filter q (filter p l) = filter (fun x => p x && q x) l.
Proof.
  induction l as [|x r IH]; simpl; [reflexivity|].
  destruct (p x); simpl; [destruct (q x)|]; now rewrite IH.
Qed.

Lemma statistics_of_hooks (db : HooksDb) :
  Report.hooksWithArgumentChanges (generateReport db)
  = Z.of_nat (List.length
                (filter (fun h => presentIn (Report.latestVersion (generateReport db)) h
                                  && changed h)
                   (JsMap.values db)))
  /\ Summary.totalArgumentChanges (Report.summary (generateReport db))
     = sumZ (map changesOf
               (filter (presentIn (Report.latestVersion (generateReport db)))
                  (JsMap.values db))).
Proof.
  unfold generateReport. simpl.
  set (latest := lastOf _). split.
  - rewrite filter_filter_and, filter_map_commute, length_map.
    do 2 f_equal. apply filter_ext. intros h.
    now rewrite reportHook_present, reportHook_changed.
  - rewrite fold_left_sum, filter_map_commute, map_map. simpl. f_equal.
    rewrite (filter_ext _ (presentIn latest)) by (intros; apply reportHook_present).
    apply map_ext. intros h. apply reportHook_changes.
Qed.

(** C10: the count of hooks with argument changes and the total of
    argument changes range over the hooks that have a location at the
    latest version only; a hook without one adds nothing to either, whatever
    its history. *)
Theorem report_statistics_skip_retired (db : HooksDb) :
  Report.hooksWithArgumentChanges (generateReport db)
  = Z.of_nat (List.length
                (filter (fun h => presentIn (Report.latestVersion (generateReport db)) h
                                  && changed h)
                   (JsMap.values db)))
  /\ Summary.totalArgumentChanges (Report.summary (generateReport db))
     = sumZ (map changesOf
               (filter (presentIn (Report.latestVersion (generateReport db)))
                  (JsMap.values db)))
  /\ (forall before hook after,
        JsMap.values db = before ++ hook :: after ->
        presentIn (Report.latestVersion (generateReport db)) hook = false ->
        Report.hooksWithArgumentChanges (generateReport db)
        = Z.of_nat (List.length
                      (filter (fun h => presentIn (Report.latestVersion (generateReport db)) h
                                        && changed h)
                         (before ++ after)))
        /\ Summary.totalArgumentChanges (Report.summary (generateReport db))
           = sumZ (map changesOf
                     (filter (presentIn (Report.latestVersion (generateReport db)))
                        (before ++ after))))
  /\ Report.latestVersion (runPipeline exampleRetired) = Some "v3.0.0"
  /\ Report.retiredHooks (runPipeline exampleRetired) = 1
  /\ map (fun h => (ReportHook.name h, ReportHook.argumentChangeCount h))
       (Report.hooks (runPipeline exampleRetired)) = [("old", 1); ("new", 0)]
  /\ Report.hooksWithArgumentChanges (runPipeline exampleRetired) = 0
  /\ Summary.totalArgumentChanges (Report.summary (runPipeline exampleRetired)) = 0.
Proof.
  destruct (statistics_of_hooks db) as [H1 H2].
  split; [exact H1|]. split; [exact H2|]. split.
  - intros before hook after E R. rewrite H1, H2, E.
    remember (Report.latestVersion (generateReport db)) as latest.
    rewrite !filter_app. simpl. rewrite R. simpl. auto.
  - vm_compute. repeat split.
Qed.

Lemma report_statistics_skip_retired_witness :
  Report.hooksWithArgumentChanges
    (generateReport (consolidateArgumentHistory (mergedIndex exampleRetired)))
  = Z.of_nat
      (List.length
         (filter
            (fun h =>
               presentIn
                 (Report.latestVersion
                    (generateReport
                       (consolidateArgumentHistory (mergedIndex exampleRetired))))
                 h
               && changed h)
            ([] ++ skipn 1 (JsMap.values
                              (consolidateArgumentHistory
                                 (mergedIndex exampleRetired))))))
  /\ Summary.totalArgumentChanges
       (Report.summary
          (generateReport (consolidateArgumentHistory (mergedIndex exampleRetired))))
     = sumZ (map changesOf
               (filter
                  (presentIn
                     (Report.latestVersion
                        (generateReport
                           (consolidateArgumentHistory
                              (mergedIndex exampleRetired)))))
                  ([] ++ skipn 1 (JsMap.values
                                    (consolidateArgumentHistory
                                       (mergedIndex exampleRetired)))))).
Proof.
  destruct (report_statistics_skip_retired
              (consolidateArgumentHistory (mergedIndex exampleRetired)))
    as (_ & _ & H & _).
  refine (H [] (hd (HookData.mk "" plugin_outlet "" [] [])
                  (JsMap.values
                     (consolidateArgumentHistory (mergedIndex exampleRetired))))
            (skipn 1 (JsMap.values
                        (consolidateArgumentHistory (mergedIndex exampleRetired))))
            _ _); vm_compute; reflexivity.
Defined.

(** ** Parallel Scheduler: slots, dispatch and delivery *)

Module DispatchFacts.
Import Scheduler.

Lemma spliceWorker_In (worker w : nat) (ws : list nat) :
  In w (spliceWorker worker ws) -> In w ws.
Proof.
  induction ws as [|x r IH]; simpl; [tauto|].
  destruct (Nat.eqb x worker); [auto|].
  destruct r as [|y r']; [simpl; tauto|].
  intros [->|H]; [auto|right; apply IH, H].
Qed.

Lemma spliceWorker_NoDup (worker : nat) (ws : list nat) :
  NoDup ws -> NoDup (spliceWorker worker ws).
Proof.
  induction ws as [|x r IH]; simpl; intros H; [constructor|].
  inversion H as [|? ? Hx Hr]; subst.
  destruct (Nat.eqb x worker); [assumption|].
  destruct r as [|y r']; [constructor|].
  constructor; [|apply IH, Hr].
  intros Hin. apply Hx. eapply spliceWorker_In, Hin.
Qed.

Lemma createWorker_slots (n m : nat) (st : State) :
  (List.length (workers st) < m)%nat ->
  NoDup (workers st) ->
  Forall (fun w => (w < versionIndex st)%nat) (workers st) ->
  (versionIndex st <= n)%nat ->
  slots n m (createWorker n st).
Proof.
  intros Hl Hn Hf Hv. unfold slots, createWorker.
  destruct (Nat.leb_spec n (versionIndex st)); simpl.
  - repeat split; try assumption; lia.
  - rewrite length_app. simpl. repeat split; try lia.
    + apply NoDup_app; [assumption|repeat constructor; simpl; tauto|].
      intros x Hx [<-|[]]. rewrite Forall_forall in Hf. specialize (Hf _ Hx). lia.
    + apply Forall_app. split.
      * eapply Forall_impl; [|exact Hf]. simpl. intros; lia.
      * repeat constructor.
Qed.

Lemma start_slots (n maxWorkers : nat) :
  slots n (Nat.min maxWorkers n) (start n maxWorkers)
  /\ versionIndex (start n maxWorkers) = Nat.min maxWorkers n.
Proof.
  unfold start.
  assert (G : forall k, (k <= n)%nat ->
            let st := Nat.iter k (createWorker n) (mkState [] 0 0 [] false) in
            versionIndex st = k /\ workers st = seq 0 k).
  { induction k as [|k IH]; intros Hk; [simpl; auto|].
    destruct IH as [Hv Hw]; [lia|].
    cbn zeta. rewrite Nat.iter_succ.
    set (st := Nat.iter k (createWorker n) (mkState [] 0 0 [] false)) in *.
    unfold createWorker. rewrite Hv.
    destruct (Nat.leb_spec n k); [lia|]. cbn [versionIndex workers]. rewrite Hw.
    split; [reflexivity|]. rewrite seq_S. reflexivity. }
  destruct (G (Nat.min maxWorkers n)) as [Hv Hw]; [lia|].
  split; [|assumption]. unfold slots. rewrite Hv, Hw, length_seq.
  repeat split; try lia.
  - apply seq_NoDup.
  - apply Forall_forall. intros x Hx. apply in_seq in Hx. lia.
Qed.

Lemma finish_slots (n m worker : nat) (st : State) :
  existsb (Nat.eqb worker) (workers st) = true ->
  slots n m st -> slots n m (finish n worker st).
Proof.
  intros Hw (Hl & Hn & Hf & Hv). unfold finish. simpl.
  pose proof (SchedulerFacts.spliceWorker_length worker _ Hw) as Hlen.
  assert (Hf' : Forall (fun w => (w < versionIndex st)%nat)
                  (spliceWorker worker (workers st))).
  { apply Forall_forall. intros x Hx. rewrite Forall_forall in Hf.
    apply Hf. eapply spliceWorker_In, Hx. }
  destruct (Nat.eqb (completed st) n); simpl.
  - unfold slots. simpl. repeat split; try assumption; try lia.
    now apply spliceWorker_NoDup.
  - apply createWorker_slots; simpl; try assumption; try lia.
    now apply spliceWorker_NoDup.
Qed.

Lemma handle_slots (n m : nat) (st : State) (ev : Event) :
  existsb (Nat.eqb (workerOf ev)) (workers st) = true ->
  slots n m st -> slots n m (handle n st ev).
Proof.
  destruct ev as [w [hooks|]|w]; simpl; intros Hw S;
    apply finish_slots; assumption.
Qed.

Lemma schedule_slots (n m : nat) (evs : list Event) :
  forall st, validSchedule n st evs = true -> slots n m st ->
             slots n m (fold_left (handle n) evs st).
Proof.
  induction evs as [|ev r IH]; simpl; intros st V S; [assumption|].
  apply andb_true_iff in V as [Hw V].
  apply IH; [assumption|]. now apply handle_slots.
Qed.

(** The next version: every report hands the next unclaimed version to a
    new worker, until none is left. *)
Lemma finish_versionIndex (n dropped worker : nat) (st : State) :
  (versionIndex st <= n)%nat ->
  (completed st + List.length (workers st) + (n - versionIndex st) + dropped
   = S n)%nat ->
  existsb (Nat.eqb worker) (workers st) = true ->
  versionIndex (finish n worker st) = Nat.min n (S (versionIndex st)).
Proof.
  intros Hv Hb Hw. unfold finish. simpl.
  assert (Hpos : (0 < List.length (workers st))%nat).
  { destruct (workers st); [discriminate|simpl; lia]. }
  destruct (Nat.eqb_spec (completed st) n); simpl.
  - lia.
  - unfold createWorker. simpl.
    destruct (Nat.leb_spec n (versionIndex st)); simpl; lia.
Qed.

Lemma handle_versionIndex (n dropped : nat) (st : State) (ev : Event) :
  existsb (Nat.eqb (workerOf ev)) (workers st) = true ->
  balance n dropped st ->
  versionIndex (handle n st ev) = Nat.min n (S (versionIndex st)).
Proof.
  intros Hw [Hv Hb].
  assert (Hpos : (0 < List.length (workers st))%nat).
  { destruct (workers st); [discriminate|simpl; lia]. }
  destruct ev as [w [hooks|]|w]; simpl in *.
  - apply (finish_versionIndex n dropped w
             (mkState (results st ++ [hooks]) (S (completed st))
                (versionIndex st) (workers st) (resolved st)));
      simpl; try assumption; lia.
  - apply (finish_versionIndex n (S dropped) w st); simpl; try assumption; lia.
  - apply (finish_versionIndex n dropped w
             (mkState (results st) (S (completed st))
                (versionIndex st) (workers st) (resolved st)));
      simpl; try assumption; lia.
Qed.

Lemma schedule_versionIndex (n : nat) (evs : list Event) :
  forall st dropped,
    validSchedule n st evs = true -> balance n dropped st ->
    versionIndex (fold_left (handle n) evs st)
    = Nat.min n (versionIndex st + List.length evs).
Proof.
  induction evs as [|ev r IH]; simpl; intros st dropped V B.
  - destruct B as [Hv _]. lia.
  - apply andb_true_iff in V as [Hw V].
    destruct (SchedulerFacts.handle_balance n dropped st ev Hw B) as [B' _].
    rewrite (IH _ _ V B'), (handle_versionIndex n dropped st ev Hw B). lia.
Qed.

Lemma createWorker_results (n : nat) (st : State) :
  results (createWorker n st) = results st.
Proof. unfold createWorker. destruct (Nat.leb n (versionIndex st)); reflexivity. Qed.

Lemma finish_results (n worker : nat) (st : State) :
  results (finish n worker st) = results st.
Proof.
  unfold finish. simpl. destruct (Nat.eqb (completed st) n); simpl; [reflexivity|].
  now rewrite createWorker_results.
Qed.

Lemma schedule_results (n : nat) (evs : list Event) :
  forall st, results (fold_left (handle n) evs st) = results st ++ delivered evs.
Proof.
  induction evs as [|ev r IH]; simpl; intros st.
  - now rewrite app_nil_r.
  - rewrite IH. destruct ev as [w [hooks|]|w]; simpl; rewrite finish_results; simpl.
    + now rewrite <- app_assoc.
    + reflexivity.
    + reflexivity.
Qed.

Lemma start_results (n maxWorkers : nat) : results (start n maxWorkers) = [].
Proof.
  unfold start. induction (Nat.min maxWorkers n) as [|k IH]; simpl; [reflexivity|].
  now rewrite createWorker_results.
Qed.

End DispatchFacts.

(** X1: at every point of a schedule the scheduler runs at most
    [min(maxWorkers, N)] workers, which is at most 10 with the [maxWorkers]
    that [run] computes; the running workers are on pairwise different
    versions, each of which has been handed out. *)
Theorem scheduler_worker_slots (n maxWorkers : nat) (evs : list Scheduler.Event) :
  Scheduler.validSchedule n (Scheduler.start n maxWorkers) evs = true ->
  let st := Scheduler.runSchedule n maxWorkers evs in
  (List.length (Scheduler.workers st) <= Nat.min maxWorkers n)%nat
  /\ NoDup (Scheduler.workers st)
  /\ Forall (fun w => (w < Scheduler.versionIndex st)%nat) (Scheduler.workers st)
  /\ (Scheduler.versionIndex st <= n)%nat
  /\ (forall cpus, maxWorkers = maxWorkersOf cpus n ->
                   (List.length (Scheduler.workers st) <= 10)%nat).
Proof.
  intros V st.
  destruct (DispatchFacts.start_slots n maxWorkers) as [S0 _].
  destruct (DispatchFacts.schedule_slots n _ evs _ V S0) as (Hl & Hn & Hf & Hv).
  fold (Scheduler.runSchedule n maxWorkers evs) in Hl, Hn, Hf, Hv. fold st in Hl, Hn, Hf, Hv.
  repeat split; try assumption.
  intros cpus ->. unfold maxWorkersOf in Hl. lia.
Qed.

Lemma scheduler_worker_slots_witness :
  let st := Scheduler.runSchedule 3 2 exampleSchedule in
  (List.length (Scheduler.workers st) <= Nat.min 2 3)%nat
  /\ NoDup (Scheduler.workers st)
  /\ Forall (fun w => (w < Scheduler.versionIndex st)%nat) (Scheduler.workers st)
  /\ (Scheduler.versionIndex st <= 3)%nat
  /\ (forall cpus, 2%nat = maxWorkersOf cpus 3 ->
                   (List.length (Scheduler.workers st) <= 10)%nat).
Proof. apply (scheduler_worker_slots 3 2 exampleSchedule). reflexivity. Defined.

(** X2: versions are handed out in catalog order, one per report: after
    [k] reports of a schedule the first [min(N, min(maxWorkers, N) + k)]
    versions have been given to workers, and no other. *)
Theorem scheduler_dispatch_in_order (n maxWorkers : nat) (evs : list Scheduler.Event) :
  Scheduler.validSchedule n (Scheduler.start n maxWorkers) evs = true ->
  Scheduler.versionIndex (Scheduler.runSchedule n maxWorkers evs)
  = Nat.min n (Nat.min maxWorkers n + List.length evs).
Proof.
  intros V. unfold Scheduler.runSchedule.
  destruct (SchedulerFacts.start_balance n maxWorkers) as [B _].
  destruct (DispatchFacts.start_slots n maxWorkers) as [_ Hv].
  now rewrite (DispatchFacts.schedule_versionIndex n evs _ 0%nat V B), Hv.
Qed.

Lemma scheduler_dispatch_in_order_witness :
  Scheduler.versionIndex (Scheduler.runSchedule 3 2 exampleSchedule)
  = Nat.min 3 (Nat.min 2 3 + List.length exampleSchedule).
Proof. apply (scheduler_dispatch_in_order 3 2 exampleSchedule). reflexivity. Defined.

(** X3: the results that [processVersionsInParallel] resolves with are the
    hook lists of the counted messages in the order the messages arrived:
    completion order, not catalog order; error events and messages without
    hooks add nothing. *)
Theorem scheduler_results_in_completion_order
  (n maxWorkers : nat) (evs : list Scheduler.Event) :
  Scheduler.results (Scheduler.runSchedule n maxWorkers evs) = delivered evs.
Proof.
  unfold Scheduler.runSchedule.
  now rewrite DispatchFacts.schedule_results, DispatchFacts.start_results.
Qed.

(** ** Report Assembler: tables, latest version and lists *)

Lemma type_name_inj (a b : HookType) : type_name a = type_name b -> a = b.
Proof. destruct a, b; simpl; intros H; try reflexivity; discriminate. Qed.

Lemma HookType_eqb_eq (a b : HookType) : HookType_eqb a b = true <-> a = b.
Proof. destruct a, b; simpl; split; intros H; try reflexivity; discriminate. Qed.

Lemma countType_get (obj : JsMap.t Z) (t t' : HookType) :
  JsMap.get (countType obj t) (type_name t')
  = if HookType_eqb t t'
    then Some (match JsMap.get obj (type_name t) with
               | Some n => n + 1
               | None => 1
               end)
    else JsMap.get obj (type_name t').
Proof.
  unfold countType. destruct (HookType_eqb t t') eqn:E.
  - apply HookType_eqb_eq in E as <-. apply get_set_same.
  - apply get_set_other. intros H. apply type_name_inj in H.
    apply HookType_eqb_eq in H. congruence.
Qed.

Lemma fold_countType_get {A : Type} (f : A -> HookType) (l : list A) (t : HookType) :
  forall obj,
    JsMap.get (fold_left (fun obj x => countType obj (f x)) l obj) (type_name t)
    = match JsMap.get obj (type_name t) with
      | Some n =>
          Some (n + Z.of_nat (List.length (filter (fun x => HookType_eqb (f x) t) l)))
      | None =>
          tableEntry (Z.of_nat (List.length (filter (fun x => HookType_eqb (f x) t) l)))
      end.
Proof.
  induction l as [|x r IH]; intros obj; simpl.
  - destruct (JsMap.get obj (type_name t)); [f_equal; lia|reflexivity].
  - rewrite IH, countType_get. destruct (HookType_eqb (f x) t) eqn:E.
    + apply HookType_eqb_eq in E. rewrite E.
      cbn [List.length]. rewrite Nat2Z.inj_succ.
      destruct (JsMap.get obj (type_name t)); [f_equal; lia|].
      unfold tableEntry.
      destruct (Z.eqb_spec (Z.succ (Z.of_nat (List.length
                  (filter (fun x0 => HookType_eqb (f x0) t) r)))) 0); [lia|].
      f_equal. lia.
    + reflexivity.
Qed.

Lemma sumZ_app (a b : list Z) : sumZ (a ++ b) = sumZ a + sumZ b.
Proof. unfold sumZ. induction a as [|x a IH]; simpl; [reflexivity|]. rewrite IH. lia. Qed.

Lemma countType_sum (obj : JsMap.t Z) (t : HookType) :
  sumZ (JsMap.values (countType obj t)) = sumZ (JsMap.values obj) + 1.
Proof.
  unfold countType, JsMap.values.
  destruct (JsMap.get obj (type_name t)) as [n|] eqn:G.
  - destruct (set_present obj (type_name t) n (n + 1) G) as (b & a & -> & -> & _).
    rewrite !map_app, !sumZ_app. simpl. lia.
  - rewrite (set_absent _ _ _ G), map_app, sumZ_app. simpl. lia.
Qed.

Lemma fold_countType_sum {A : Type} (f : A -> HookType) (l : list A) :
  forall obj,
    sumZ (JsMap.values (fold_left (fun obj x => countType obj (f x)) l obj))
    = sumZ (JsMap.values obj) + Z.of_nat (List.length l).
Proof.
  induction l as [|x r IH]; intros obj; simpl List.length; simpl fold_left.
  - simpl. lia.
  - rewrite IH, countType_sum, Nat2Z.inj_succ. lia.
Qed.

Lemma filter_partition_length {A : Type} (p : A -> bool) (l : list A) :
  (List.length (filter p l) + List.length (filter (fun x => negb (p x)) l)
   = List.length l)%nat.
Proof.
  induction l as [|x r IH]; simpl; [reflexivity|].
  destruct (p x); simpl; lia.
Qed.

Lemma length_filter_reportHook (p : ReportHook.t -> bool) (q : ReportHook.t -> bool)
  (l : list (HookData.t (list string))) :
  List.length (filter q (filter p (map reportHook l)))
  = List.length (filter (fun h => q (reportHook h))
                   (filter (fun h => p (reportHook h)) l)).
Proof. now rewrite !filter_map_commute, length_map. Qed.

(** X4: the counts of the report add up.  Every hook is either counted in
    [hooksInLatestVersion] or in [retiredHooks]; [hooksByType] and
    [latestVersionHooksByType] hold, for each type, the number of hooks of
    that type (all hooks, and those of the latest version), with no entry
    for a type without hooks, and their entries sum to [totalHooks] and to
    [hooksInLatestVersion]. *)
Theorem report_tables_add_up (db : HooksDb) :
  let r := generateReport db in
  Report.hooksInLatestVersion r + Report.retiredHooks r = Report.totalHooks r
  /\ (forall t, JsMap.get (Report.hooksByType r) (type_name t)
                = tableEntry (hooksOfType t (JsMap.values db)))
  /\ (forall t, JsMap.get (Report.latestVersionHooksByType r) (type_name t)
                = tableEntry
                    (hooksOfType t
                       (filter (presentIn (Report.latestVersion r))
                          (JsMap.values db))))
  /\ sumZ (JsMap.values (Report.hooksByType r)) = Report.totalHooks r
  /\ sumZ (JsMap.values (Report.latestVersionHooksByType r))
     = Report.hooksInLatestVersion r.
Proof.
  unfold generateReport. cbv zeta.
  cbn [Report.hooksInLatestVersion Report.retiredHooks Report.totalHooks
       Report.hooksByType Report.latestVersionHooksByType Report.latestVersion].
  set (latest := lastOf (sortVersions (allLocationVersions
                   (map reportHook (JsMap.values db))))).
  repeat split.
  - rewrite <- Nat2Z.inj_add, filter_partition_length, length_map.
    unfold JsMap.values. now rewrite length_map.
  - intros t. now rewrite fold_countType_get.
  - intros t. rewrite fold_countType_get. cbn [JsMap.get]. unfold hooksOfType.
    f_equal. f_equal.
    rewrite (length_filter_reportHook (inLatestVersion latest)
               (fun x => HookType_eqb (ReportHook.type x) t)).
    reflexivity.
  - rewrite fold_countType_sum. unfold JsMap.values. rewrite !length_map.
    simpl. reflexivity.
  - rewrite fold_countType_sum. simpl. reflexivity.
Qed.

(** *** Sorting a list whose elements a comparator orders *)

Section SortedOn.
Context {A : Type} (le : A -> A -> bool) (P : A -> Prop).
Hypothesis total_on : forall x y, P x -> P y -> le x y = true \/ le y x = true.
Hypothesis trans_on :
  forall x y z, P x -> P y -> P z -> le x y = true -> le y z = true -> le x z = true.

Let R := fun x y => le x y = true.

Lemma insert_sorted_on (x : A) (l : list A) :
  P x -> Forall P l -> StronglySorted R l -> StronglySorted R (Js.insert le x l).
Proof.
  intros Px Pl S. induction l as [|y r IH]; simpl.
  - repeat constructor.
  - inversion Pl as [|? ? Py Pr]; subst.
    apply StronglySorted_inv in S as [Sr Fy].
    destruct (le x y) eqn:E.
    + constructor; [constructor; assumption|].
      constructor; [exact E|].
      rewrite Forall_forall in *. intros z Hz.
      apply (trans_on x y z); auto. apply Fy, Hz.
    + constructor; [apply IH; assumption|].
      apply Forall_forall. intros z Hz.
      apply (Permutation_in _ (insert_perm le x r)) in Hz. destruct Hz as [<-|Hz].
      * destruct (total_on x y Px Py) as [H|H]; [congruence|exact H].
      * rewrite Forall_forall in Fy. apply Fy, Hz.
Qed.

Lemma sort_sorted_on (l : list A) :
  Forall P l -> StronglySorted R (Js.sort le l).
Proof.
  induction l as [|x r IH]; simpl; intros Pl; [constructor|].
  inversion Pl as [|? ? Px Pr]; subst.
  apply insert_sorted_on; [assumption| |apply IH, Pr].
  apply Forall_forall. intros z Hz.
  apply (Permutation_in _ (sort_perm le r)) in Hz.
  rewrite Forall_forall in Pr. apply Pr, Hz.
Qed.
End SortedOn.

Lemma last_In {A : Type} (r : list A) (x : A) : In (last r x) (x :: r).
Proof.
  induction r as [|y r IH]; [now left|].
  change (last (y :: r) x) with (match r with [] => y | _ :: _ => last r x end).
  destruct r as [|z r']; [right; now left|].
  destruct IH as [H|H]; [now left|right; right; exact H].
Qed.

Lemma last_cons {A : Type} (r : list A) : forall x y, last (y :: r) x = last r y.
Proof.
  induction r as [|z r IH]; intros x y; [reflexivity|].
  change (last (y :: z :: r) x) with (last (z :: r) x).
  now rewrite (IH x z), (IH y z).
Qed.

Lemma lastOf_In (l : list string) (v : string) : lastOf l = Some v -> In v l.
Proof.
  destruct l as [|x r]; simpl; [discriminate|]. intros [= <-]. apply last_In.
Qed.

Lemma lastOf_none (l : list string) : lastOf l = None -> l = [].
Proof. destruct l; [reflexivity|discriminate]. Qed.

Lemma lastOf_sorted (R : string -> string -> Prop) (l : list string) (v : string) :
  StronglySorted R l -> lastOf l = Some v ->
  forall u, In u l -> u = v \/ R u v.
Proof.
  intros S. induction S as [|x r S IH F]; simpl; [discriminate|].
  intros [= E] u [<-|Hu].
  - destruct r as [|y r']; [left; exact E|]. right.
    rewrite Forall_forall in F. apply F. apply lastOf_In. simpl. f_equal.
    now rewrite <- (last_cons r' x y).
  - destruct r as [|y r']; [destruct Hu|].
    apply IH; [|exact Hu]. simpl. f_equal. now rewrite <- (last_cons r' x y).
Qed.

Lemma notLater_refl (v : string) : valid_version v = true -> notLater v v.
Proof.
  intros Hv. unfold notLater.
  destruct (compareVersionsZ_denoted v v Hv Hv) as (va & vb & Ha & Hb & Hc).
  assert (va = vb) by congruence. subst.
  assert (compareDenoted vb vb = 0) by now apply compareDenoted_eq.
  apply (sgn_nonpos _ _ Hc). lia.
Qed.

Lemma compareVersionsZ_total (a b : string) :
  valid_version a = true -> valid_version b = true ->
  (compareVersionsZ a b <=? 0) = true \/ (compareVersionsZ b a <=? 0) = true.
Proof.
  intros Ha Hb.
  destruct (compareVersionsZ_denoted a b Ha Hb) as (va & vb & Ea & Eb & Sab).
  destruct (compareVersionsZ_denoted b a Hb Ha) as (vb' & va' & Eb' & Ea' & Sba).
  assert (va' = va) by congruence. assert (vb' = vb) by congruence. subst.
  rewrite (compareDenoted_opp va vb) in Sba. rewrite !Z.leb_le.
  rewrite (sgn_nonpos _ _ Sab), (sgn_nonpos _ _ Sba). lia.
Qed.

Lemma compareVersionsZ_trans (a b c : string) :
  valid_version a = true -> valid_version b = true -> valid_version c = true ->
  (compareVersionsZ a b <=? 0) = true -> (compareVersionsZ b c <=? 0) = true ->
  (compareVersionsZ a c <=? 0) = true.
Proof.
  intros Ha Hb Hc.
  destruct (compareVersionsZ_denoted a b Ha Hb) as (va & vb & Ea & Eb & Sab).
  destruct (compareVersionsZ_denoted b c Hb Hc) as (vb' & vc & Eb' & Ec & Sbc).
  destruct (compareVersionsZ_denoted a c Ha Hc) as (va' & vc' & Ea' & Ec' & Sac).
  assert (va' = va) by congruence. assert (vb' = vb) by congruence.
  assert (vc' = vc) by congruence. subst.
  rewrite !Z.leb_le.
  rewrite (sgn_nonpos _ _ Sab), (sgn_nonpos _ _ Sbc), (sgn_nonpos _ _ Sac).
  apply compareDenoted_trans.
Qed.

Lemma sortVersions_sorted (l : list string) :
  forallb valid_version l = true ->
  StronglySorted (fun a b => (compareVersionsZ a b <=? 0) = true) (sortVersions l).
Proof.
  intros H. unfold sortVersions.
  apply (sort_sorted_on _ (fun v => valid_version v = true)).
  - apply compareVersionsZ_total.
  - apply compareVersionsZ_trans.
  - apply Forall_forall. rewrite forallb_forall in H. exact H.
Qed.

(** The last element of the sorted versions is the latest of them. *)
Lemma lastOf_sortVersions (l : list string) :
  forallb valid_version l = true ->
  match lastOf (sortVersions l) with
  | None => l = []
  | Some v => latestOf l v
  end.
Proof.
  intros H. pose proof (sortVersions_sorted l H) as S.
  pose proof (sort_perm (fun a b => compareVersionsZ a b <=? 0) l) as Pm.
  fold (sortVersions l) in Pm.
  destruct (lastOf (sortVersions l)) as [v|] eqn:E.
  - assert (Hv : In v l) by (apply (Permutation_in _ Pm), lastOf_In, E).
    split; [exact Hv|]. intros u Hu.
    rewrite forallb_forall in H.
    destruct (lastOf_sorted _ _ _ S E u) as [->|Hle].
    + apply (Permutation_in _ (Permutation_sym Pm)), Hu.
    + apply notLater_refl, H, Hv.
    + unfold notLater. now apply Z.leb_le.
  - apply lastOf_none in E. rewrite E in Pm.
    now apply Permutation_nil in Pm.
Qed.

Lemma allLocationVersions_In (hooks : list ReportHook.t) (v : string) :
  In v (allLocationVersions hooks)
  <-> exists hook, In hook hooks
                   /\ In v (map Location.version (ReportHook.locations hook)).
Proof.
  unfold allLocationVersions.
  assert (G : forall acc,
            In v (fold_left
                    (fun acc hook =>
                       fold_left setAdd
                         (map Location.version (ReportHook.locations hook)) acc)
                    hooks acc)
            <-> In v acc
                \/ exists hook, In hook hooks
                     /\ In v (map Location.version (ReportHook.locations hook))).
  { induction hooks as [|h r IH]; intros acc; simpl.
    - split; [auto|]. intros [H|(h & [] & _)]. exact H.
    - rewrite IH, fold_setAdd_In. split.
      + intros [[H|H]|(h' & Hh & Hv)]; [auto| |].
        * right. exists h. auto.
        * right. exists h'. auto.
      + intros [H|(h' & [<-|Hh] & Hv)]; [auto|auto|].
        right. exists h'. auto. }
  rewrite G. simpl. tauto.
Qed.

Lemma allLocationVersions_index (db : HooksDb) (v : string) :
  In v (allLocationVersions (map reportHook (JsMap.values db)))
  <-> In v (versionsOfIndex db).
Proof.
  rewrite allLocationVersions_In. unfold versionsOfIndex. rewrite in_flat_map.
  split.
  - intros (h & Hh & Hv). apply in_map_iff in Hh as (hook & <- & Hin).
    exists hook. split; [assumption|exact Hv].
  - intros (hook & Hin & Hv). exists (reportHook hook).
    split; [now apply in_map|exact Hv].
Qed.

Lemma versionsValid_In (db : HooksDb) (v : string) :
  versionsValid db = true -> In v (versionsOfIndex db) -> valid_version v = true.
Proof.
  unfold versionsValid, versionsOfIndex, versionsOfHook.
  intros H Hv. rewrite forallb_forall in H.
  apply in_flat_map in Hv as (hook & Hin & Hv).
  specialize (H _ Hin). rewrite forallb_forall in H.
  apply in_map_iff in Hv as (loc & <- & Hl). apply H, Hl.
Qed.

(** X5: when every location is at a version the catalog can return, the
    report's [latestVersion] is the latest of all location versions under
    [compareVersions]: it is the version of some location and no location is
    at a later one; an index without locations has none. *)
Theorem report_latest_version_greatest (db : HooksDb) :
  versionsValid db = true ->
  match Report.latestVersion (generateReport db) with
  | None => versionsOfIndex db = []
  | Some latest => latestOf (versionsOfIndex db) latest
  end.
Proof.
  intros V. unfold generateReport. cbv zeta. cbn [Report.latestVersion].
  set (vs := allLocationVersions (map reportHook (JsMap.values db))).
  assert (Hvalid : forallb valid_version vs = true).
  { apply forallb_forall. intros v Hv. apply (versionsValid_In db v V).
    now apply allLocationVersions_index. }
  pose proof (lastOf_sortVersions vs Hvalid) as L.
  destruct (lastOf (sortVersions vs)) as [latest|].
  - destruct L as [Hin Hall]. split.
    + now apply allLocationVersions_index.
    + intros u Hu. apply Hall. now apply allLocationVersions_index.
  - destruct (versionsOfIndex db) as [|v r] eqn:E; [reflexivity|].
    assert (In v vs) by (apply allLocationVersions_index; rewrite E; now left).
    rewrite L in H. destruct H.
Qed.

Lemma report_latest_version_greatest_witness :
  match Report.latestVersion (generateReport (mergedIndex exampleRetired)) with
  | None => versionsOfIndex (mergedIndex exampleRetired) = []
  | Some latest => latestOf (versionsOfIndex (mergedIndex exampleRetired)) latest
  end.
Proof.
  apply (report_latest_version_greatest (mergedIndex exampleRetired)).
  vm_compute. reflexivity.
Defined.

Lemma firstn_In {A : Type} (n : nat) (l : list A) (x : A) :
  In x (firstn n l) -> In x l.
Proof.
  intros H. rewrite <- (firstn_skipn n l). apply in_or_app. now left.
Qed.

Lemma StronglySorted_app_cross {A : Type} (R : A -> A -> Prop) (a b : list A) :
  StronglySorted R (a ++ b) ->
  StronglySorted R a /\ forall x y, In x a -> In y b -> R x y.
Proof.
  induction a as [|h a IH]; simpl; intros S.
  - split; [constructor|]. intros x y [].
  - apply StronglySorted_inv in S as [S F]. destruct (IH S) as [Sa C].
    rewrite Forall_forall in F. split.
    + constructor; [assumption|]. apply Forall_forall. intros z Hz.
      apply F, in_or_app. now left.
    + intros x y [<-|Hx] Hy; [|now apply C]. apply F, in_or_app. now right.
Qed.

Lemma StronglySorted_map {A B : Type} (R : B -> B -> Prop) (f : A -> B) (l : list A) :
  StronglySorted (fun x y => R (f x) (f y)) l -> StronglySorted R (map f l).
Proof.
  induction 1 as [|x r S IH F]; simpl; constructor; [assumption|].
  rewrite Forall_forall in *. intros y Hy.
  apply in_map_iff in Hy as (z & <- & Hz). now apply F.
Qed.

Lemma isVersion_some (latest : option string) (v : string) :
  isVersion latest v = true <-> latest = Some v.
Proof.
  destruct latest as [l|]; simpl; [|split; discriminate].
  rewrite String.eqb_eq. split; [now intros ->|now intros [= ->]].
Qed.

Lemma presentIn_false (latest : option string) (hook : HookData.t (list string))
  (v : string) :
  presentIn latest hook = false -> In v (versionsOfHook hook) -> latest <> Some v.
Proof.
  unfold presentIn, versionsOfHook. intros H Hv E.
  apply in_map_iff in Hv as (loc & <- & Hl).
  assert (existsb (fun loc => isVersion latest (Location.version loc))
            (HookData.locations hook) = true); [|congruence].
  apply existsb_exists. exists loc. split; [assumption|].
  now apply isVersion_some.
Qed.

Lemma versionsValid_hook (db : HooksDb) (hook : HookData.t (list string)) :
  versionsValid db = true -> In hook (JsMap.values db) ->
  forallb valid_version (versionsOfHook hook) = true.
Proof.
  unfold versionsValid, versionsOfHook. intros H Hin.
  rewrite forallb_forall in H. specialize (H _ Hin).
  rewrite forallb_forall in *. intros v Hv.
  apply in_map_iff in Hv as (loc & <- & Hl). now apply H.
Qed.

(** X6: [summary.retiredHooksList] names the first ten hooks, in index
    order, that have no location at the latest version.  When every location
    is at a version the catalog can return, the [lastSeenVersion] of each is
    the latest of that hook's own location versions, and it is not the
    report's latest version. *)
Theorem report_retired_hooks_list (db : HooksDb) :
  versionsValid db = true ->
  let r := generateReport db in
  let l := Summary.retiredHooksList (Report.summary r) in
  Z.of_nat (List.length l) = Z.min 10 (Report.retiredHooks r)
  /\ Forall
       (fun e =>
          exists hook,
            In hook (JsMap.values db)
            /\ presentIn (Report.latestVersion r) hook = false
            /\ fst (fst e) = HookData.name hook
            /\ snd (fst e) = HookData.type hook
            /\ match snd e with
               | None => HookData.locations hook = []
               | Some v =>
                   latestOf (versionsOfHook hook) v
                   /\ Some v <> Report.latestVersion r
               end)
       l.
Proof.
  intros V. unfold generateReport. cbv zeta.
  cbn [Report.summary Summary.retiredHooksList Report.retiredHooks
       Report.latestVersion].
  set (latest := lastOf (sortVersions (allLocationVersions
                   (map reportHook (JsMap.values db))))).
  split.
  - rewrite length_map, length_firstn. lia.
  - apply Forall_forall. intros e He.
    apply in_map_iff in He as (h & <- & Hh).
    apply firstn_In in Hh. apply filter_In in Hh as [Hin Hret].
    apply in_map_iff in Hin as (hook & <- & Hin).
    exists hook. rewrite reportHook_present in Hret.
    apply negb_true_iff in Hret.
    repeat split; try assumption.
    cbn [snd reportHook ReportHook.locations].
    pose proof (lastOf_sortVersions (versionsOfHook hook)
                  (versionsValid_hook db hook V Hin)) as L.
    fold (versionsOfHook hook).
    destruct (lastOf (sortVersions (versionsOfHook hook))) as [v|].
    + split; [exact L|]. intros E. destruct L as [Hv _].
      now apply (presentIn_false latest hook v Hret Hv).
    + unfold versionsOfHook in L. now apply map_eq_nil in L.
Qed.

Lemma report_retired_hooks_list_witness :
  let r := generateReport (mergedIndex exampleRetired) in
  let l := Summary.retiredHooksList (Report.summary r) in
  Z.of_nat (List.length l) = Z.min 10 (Report.retiredHooks r)
  /\ Forall
       (fun e =>
          exists hook,
            In hook (JsMap.values (mergedIndex exampleRetired))
            /\ presentIn (Report.latestVersion r) hook = false
            /\ fst (fst e) = HookData.name hook
            /\ snd (fst e) = HookData.type hook
            /\ match snd e with
               | None => HookData.locations hook = []
               | Some v =>
                   latestOf (versionsOfHook hook) v
                   /\ Some v <> Report.latestVersion r
               end)
       l.
Proof.
  apply (report_retired_hooks_list (mergedIndex exampleRetired)).
  vm_compute. reflexivity.
Defined.

(** X7: [summary.hooksWithMostChanges] lists at most ten hooks, all of the
    latest version and all with at least one argument change, by descending
    number of changes; a hook of the latest version with changes that is not
    listed has no more changes than any hook listed, and the list is then
    full. *)
Theorem report_hooks_with_most_changes (db : HooksDb) :
  let r := generateReport db in
  let l := Summary.hooksWithMostChanges (Report.summary r) in
  let listed hook := (HookData.name hook, HookData.type hook, changesOf hook) in
  (List.length l <= 10)%nat
  /\ StronglySorted (fun a b => snd b <= snd a) l
  /\ Forall
       (fun e =>
          0 < snd e
          /\ exists hook,
               In hook (JsMap.values db)
               /\ presentIn (Report.latestVersion r) hook = true
               /\ e = listed hook)
       l
  /\ forall hook,
       In hook (JsMap.values db) ->
       presentIn (Report.latestVersion r) hook = true ->
       0 < changesOf hook ->
       In (listed hook) l
       \/ (List.length l = 10%nat /\ Forall (fun e => changesOf hook <= snd e) l).
Proof.
  unfold generateReport. cbv zeta.
  cbn [Report.summary Summary.hooksWithMostChanges Report.latestVersion].
  set (latest := lastOf (sortVersions (allLocationVersions
                   (map reportHook (JsMap.values db))))).
  set (le := fun a b => ReportHook.argumentChangeCount b
                        - ReportHook.argumentChangeCount a <=? 0).
  set (changedHooks := filter (fun h => 0 <? ReportHook.argumentChangeCount h)
                        (filter (inLatestVersion latest)
                           (map reportHook (JsMap.values db)))).
  set (triple := fun h => (ReportHook.name h, ReportHook.type h,
                           ReportHook.argumentChangeCount h)).
  assert (S : StronglySorted (fun a b => le a b = true) (Js.sort le changedHooks)).
  { apply sort_sorted; unfold le; intros; rewrite ?Z.leb_le in *; lia. }
  pose proof (sort_perm le changedHooks) as Pm.
  assert (Hmem : forall h, In h (Js.sort le changedHooks) ->
            0 < ReportHook.argumentChangeCount h
            /\ exists hook, In hook (JsMap.values db)
                 /\ presentIn latest hook = true /\ h = reportHook hook).
  { intros h Hh. apply (Permutation_in _ Pm) in Hh.
    apply filter_In in Hh as [Hh Hpos]. apply filter_In in Hh as [Hh Hlat].
    apply in_map_iff in Hh as (hook & <- & Hin).
    split; [now apply Z.ltb_lt|]. exists hook.
    rewrite reportHook_present in Hlat. auto. }
  rewrite <- (firstn_skipn 10 (Js.sort le changedHooks)) in S.
  apply StronglySorted_app_cross in S as [S C].
  repeat split.
  - rewrite length_map, length_firstn. lia.
  - apply StronglySorted_map.
    eapply (StronglySorted_ind
              (fun l => StronglySorted
                          (fun x y => snd (triple y) <= snd (triple x)) l));
      [constructor| |exact S].
    intros x r _ IH F. constructor; [exact IH|].
    eapply Forall_impl; [|exact F]. unfold le, triple. simpl.
    intros y Hy. apply Z.leb_le in Hy. lia.
  - apply Forall_forall. intros e He.
    apply in_map_iff in He as (h & <- & Hh). apply firstn_In in Hh.
    destruct (Hmem h Hh) as (Hpos & hook & Hin & Hlat & ->).
    split; [exact Hpos|]. exists hook.
    split; [assumption|]. split; [assumption|].
    unfold triple. now rewrite reportHook_changes.
  - intros hook Hin Hlat Hpos.
    assert (Hs : In (reportHook hook) (Js.sort le changedHooks)).
    { apply (Permutation_in _ (Permutation_sym Pm)).
      apply filter_In. split.
      - apply filter_In. split; [now apply in_map|].
        now rewrite reportHook_present.
      - apply Z.ltb_lt. now rewrite reportHook_changes. }
    rewrite <- (firstn_skipn 10 (Js.sort le changedHooks)) in Hs.
    apply in_app_or in Hs as [Hs|Hs].
    + left. apply in_map_iff. exists (reportHook hook).
      split; [unfold triple; now rewrite reportHook_changes|exact Hs].
    + right. split.
      * rewrite length_map, length_firstn.
        destruct (Nat.le_gt_cases (List.length (Js.sort le changedHooks)) 10) as [Hl|Hl];
          [|lia].
        rewrite skipn_all2 in Hs by exact Hl. destruct Hs.
      * apply Forall_forall. intros e He.
        apply in_map_iff in He as (h & <- & Hh).
        specialize (C h (reportHook hook) Hh Hs). unfold le in C.
        apply Z.leb_le in C. rewrite reportHook_changes in C.
        unfold triple. simpl. lia.
Qed.

(** ** Cross-Version Merger: one location per place *)

Lemma sameLocationV_place (hook : WorkerHook.t) (loc : Location.t (list string)) :
  sameLocationV hook loc = true <-> placeOf loc = placeOfRecord hook.
Proof.
  unfold sameLocationV, placeOf, placeOfRecord.
  rewrite andb_true_iff, !String.eqb_eq. split.
  - now intros [-> ->].
  - now intros [= -> ->].
Qed.

Lemma find_place_none (hook : WorkerHook.t) (locs : list (Location.t (list string))) :
  find (sameLocationV hook) locs = None
  <-> ~ In (placeOfRecord hook) (map placeOf locs).
Proof.
  induction locs as [|loc r IH]; simpl; [tauto|].
  destruct (sameLocationV hook loc) eqn:S.
  - apply sameLocationV_place in S. split; [discriminate|]. intros H. destruct H. auto.
  - rewrite IH. split.
    + intros H [E|Hin]; [|tauto].
      apply sameLocationV_place in E. congruence.
    + tauto.
Qed.

Lemma find_place_some (hook : WorkerHook.t) (locs : list (Location.t (list string)))
  (found : Location.t (list string)) :
  find (sameLocationV hook) locs = Some found ->
  In found locs /\ placeOf found = placeOfRecord hook.
Proof.
  intros H. apply find_some in H as [Hin S]. split; [assumption|].
  now apply sameLocationV_place.
Qed.

Lemma mergedLocationV_place (hook : WorkerHook.t) (loc : Location.t (list string)) :
  placeOf (mergedLocationV hook loc) = placeOf loc.
Proof. reflexivity. Qed.

Lemma updateFoundV_places (hook : WorkerHook.t) (locs : list (Location.t (list string))) :
  map placeOf (updateFoundV hook locs) = map placeOf locs.
Proof.
  induction locs as [|loc r IH]; simpl; [reflexivity|].
  destruct (sameLocationV hook loc); simpl; [reflexivity|now rewrite IH].
Qed.

(** With one location per place, the update touches the location of the
    record's place and no other. *)
Lemma updateFoundV_In (hook : WorkerHook.t) (locs : list (Location.t (list string)))
  (found loc' : Location.t (list string)) :
  NoDup (map placeOf locs) ->
  find (sameLocationV hook) locs = Some found ->
  In loc' (updateFoundV hook locs)
  <-> loc' = mergedLocationV hook found
      \/ (In loc' locs /\ placeOf loc' <> placeOfRecord hook).
Proof.
  induction locs as [|loc r IH]; simpl; intros ND F; [discriminate|].
  inversion ND as [|? ? Hn ND']; subst.
  destruct (sameLocationV hook loc) eqn:S.
  - injection F as <-. apply sameLocationV_place in S. simpl. split.
    + intros [<-|Hin]; [now left|]. right. split; [now right|].
      intros E. apply Hn. rewrite S, <- E. now apply in_map.
    + intros [->|[[<-|Hin] Hne]]; [now left|congruence|now right].
  - simpl. rewrite (IH ND' F). split.
    + intros [<-|[->|[Hin Hne]]]; [|now left|].
      * right. split; [now left|]. intros E.
        apply sameLocationV_place in E. congruence.
      * right. split; [now right|assumption].
    + intros [->|[[<-|Hin] Hne]]; [right; now left|now left|].
      right. right. auto.
Qed.

Lemma foldLocation_invariant (occs : list WorkerHook.t)
  (locs : list (Location.t (list string))) (hook : WorkerHook.t) :
  placesInvariant occs locs ->
  placesInvariant (occs ++ [hook]) (foldLocation locs hook).
Proof.
  intros (ND & Hp & Hl & Hs). unfold foldLocation.
  destruct (find (sameLocationV hook) locs) as [found|] eqn:F.
  - destruct (find_place_some _ _ _ F) as [Hfound Hplace].
    unfold placesInvariant. rewrite updateFoundV_places.
    split; [assumption|]. split; [|split].
    + intros p. rewrite Hp. split.
      * intros (o & Ho & E). exists o. split; [apply in_or_app; now left|assumption].
      * intros (o & Ho & E). apply in_app_or in Ho as [Ho|[<-|[]]].
        -- now exists o.
        -- apply Hp. rewrite <- E, <- Hplace. now apply in_map.
    + intros loc x Hin. apply (updateFoundV_In hook locs found loc ND F) in Hin.
      destruct Hin as [->|[Hin Hne]].
      * cbn [mergedLocationV Location.lines]. rewrite mergedLines_In, (Hl found x Hfound).
        rewrite mergedLocationV_place. split.
        -- intros [(o & Ho & E & Hx)|Hx].
           ++ exists o. split; [apply in_or_app; now left|auto].
           ++ exists hook. split; [apply in_or_app; right; now left|auto].
        -- intros (o & Ho & E & Hx). apply in_app_or in Ho as [Ho|[<-|[]]].
           ++ left. now exists o.
           ++ now right.
      * rewrite (Hl loc x Hin). split.
        -- intros (o & Ho & E & Hx). exists o. split; [apply in_or_app; now left|auto].
        -- intros (o & Ho & E & Hx). apply in_app_or in Ho as [Ho|[<-|[]]].
           ++ now exists o.
           ++ congruence.
    + intros S. apply Forall_app in S as [S Sh]. specialize (Hs S).
      apply Forall_forall. intros loc Hin.
      apply (updateFoundV_In hook locs found loc ND F) in Hin.
      rewrite Forall_forall in Hs.
      destruct Hin as [->|[Hin _]]; [|now apply Hs].
      cbn [mergedLocationV Location.lines]. apply mergedLines_strict. now apply Hs.
  - apply find_place_none in F.
    unfold placesInvariant. rewrite map_app. cbn [map placeOf Location.version
      Location.file]. fold (placeOfRecord hook).
    split; [|split; [|split]].
    + apply NoDup_app; [assumption|repeat constructor; simpl; tauto|].
      intros p Hin [<-|[]]. contradiction.
    + intros p. rewrite in_app_iff, Hp. simpl. split.
      * intros [(o & Ho & E)|[<-|[]]].
        -- exists o. split; [apply in_or_app; now left|assumption].
        -- exists hook. split; [apply in_or_app; right; now left|reflexivity].
      * intros (o & Ho & E). apply in_app_or in Ho as [Ho|[<-|[]]].
        -- left. now exists o.
        -- right. now left.
    + intros loc x Hin. apply in_app_or in Hin as [Hin|[<-|[]]].
      * rewrite (Hl loc x Hin). split.
        -- intros (o & Ho & E & Hx). exists o. split; [apply in_or_app; now left|auto].
        -- intros (o & Ho & E & Hx). apply in_app_or in Ho as [Ho|[<-|[]]].
           ++ now exists o.
           ++ exfalso. apply F. rewrite E. now apply in_map.
      * cbn [Location.lines placeOf Location.version Location.file].
        fold (placeOfRecord hook). split.
        -- intros Hx. exists hook. split; [apply in_or_app; right; now left|auto].
        -- intros (o & Ho & E & Hx). apply in_app_or in Ho as [Ho|[<-|[]]];
             [|assumption].
           exfalso. apply F. apply Hp. now exists o.
    + intros S. apply Forall_app in S as [S Sh]. apply Forall_app. split; [auto|].
      inversion Sh; subst. repeat constructor. assumption.
Qed.

Lemma locationsOf_snoc (occs : list WorkerHook.t) (hook : WorkerHook.t) :
  locationsOf (occs ++ [hook]) = foldLocation (locationsOf occs) hook.
Proof. unfold locationsOf. now rewrite fold_left_app. Qed.

Lemma locationsOf_invariant (occs : list WorkerHook.t) :
  placesInvariant occs (locationsOf occs).
Proof.
  induction occs as [|hook occs IH] using rev_ind.
  - unfold placesInvariant, locationsOf. simpl. split; [constructor|].
    split; [|split].
    + intros p. split; [intros []|intros (o & [] & _)].
    + intros loc x [].
    + constructor.
  - rewrite locationsOf_snoc. now apply foldLocation_invariant.
Qed.

Lemma filter_named_In (n : string) (occs : list WorkerHook.t) (o : WorkerHook.t) :
  In o (filter (named n) occs) <-> In o occs /\ WorkerHook.name o = n.
Proof. rewrite filter_In. unfold named. now rewrite String.eqb_eq. Qed.

(** X8: in the merged index a hook has exactly one location for every
    (version, file) at which a record of its name was reported, and the
    lines of that location are the union of the lines of those records; they
    are strictly ascending when the lines of every record are. *)
Theorem merge_one_location_per_place (results : list (list WorkerHook.t))
  (n : string) (hook : HookData.t (list string)) :
  JsMap.get (mergedIndex results) n = Some hook ->
  NoDup (map placeOf (HookData.locations hook))
  /\ (forall p, In p (map placeOf (HookData.locations hook))
                <-> exists o, In o (occurrences results)
                              /\ WorkerHook.name o = n /\ placeOfRecord o = p)
  /\ (forall loc x,
        In loc (HookData.locations hook) ->
        (In x (Location.lines loc)
         <-> exists o, In o (occurrences results) /\ WorkerHook.name o = n
                       /\ placeOfRecord o = placeOf loc
                       /\ In x (WorkerHook.lines o)))
  /\ (Forall (fun o => strictlyAscending (WorkerHook.lines o) = true)
        (occurrences results) ->
      Forall (fun loc => strictlyAscending (Location.lines loc) = true)
        (HookData.locations hook)).
Proof.
  intros G. destruct (mergedIndex_hook results n hook G) as (_ & -> & _).
  destruct (locationsOf_invariant (filter (named n) (occurrences results)))
    as (ND & Hp & Hl & Hs).
  split; [assumption|]. split; [|split].
  - intros p. rewrite Hp. split.
    + intros (o & Ho & E). apply filter_named_In in Ho as [Ho Hn]. now exists o.
    + intros (o & Ho & Hn & E). exists o. split; [|assumption].
      now apply filter_named_In.
  - intros loc x Hin. rewrite (Hl loc x Hin). split.
    + intros (o & Ho & E & Hx). apply filter_named_In in Ho as [Ho Hn]. now exists o.
    + intros (o & Ho & Hn & E & Hx). exists o. split; [|auto].
      now apply filter_named_In.
  - intros S. eapply Forall_impl;
      [intros loc H; apply strictlyAscending_sorted; exact H|].
    apply Hs. apply Forall_forall. intros o Ho.
    apply filter_named_In in Ho as [Ho _]. rewrite Forall_forall in S.
    apply strictlyAscending_sorted. now apply S.
Qed.

Lemma merge_one_location_per_place_witness :
  NoDup (map placeOf (HookData.locations exampleMerged))
  /\ (forall p, In p (map placeOf (HookData.locations exampleMerged))
                <-> exists o, In o (occurrences exampleTwoFiles)
                              /\ WorkerHook.name o = "X" /\ placeOfRecord o = p)
  /\ (forall loc x,
        In loc (HookData.locations exampleMerged) ->
        (In x (Location.lines loc)
         <-> exists o, In o (occurrences exampleTwoFiles) /\ WorkerHook.name o = "X"
                       /\ placeOfRecord o = placeOf loc
                       /\ In x (WorkerHook.lines o)))
  /\ (Forall (fun o => strictlyAscending (WorkerHook.lines o) = true)
        (occurrences exampleTwoFiles) ->
      Forall (fun loc => strictlyAscending (Location.lines loc) = true)
        (HookData.locations exampleMerged)).
Proof.
  apply (merge_one_location_per_place exampleTwoFiles "X" exampleMerged).
  vm_compute. reflexivity.
Defined.

(** X9: the index has one hook per name.  A hook carries the type and the
    [firstVersion] of the first record of its name to arrive, whatever the
    types and versions of the records that follow; a name without a hook is
    the name of no record. *)
Theorem merge_one_hook_per_name (results : list (list WorkerHook.t)) :
  NoDup (JsMap.keys (mergedIndex results))
  /\ forall n,
       match JsMap.get (mergedIndex results) n with
       | Some hook =>
           HookData.name hook = n
           /\ exists first,
                find (named n) (occurrences results) = Some first
                /\ HookData.type hook = WorkerHook.type first
                /\ HookData.firstVersion hook = WorkerHook.version first
       | None => forall o, In o (occurrences results) -> WorkerHook.name o <> n
       end.
Proof.
  destruct (mergedIndex_keys results) as [ND K]. split; [assumption|].
  intros n. destruct (JsMap.get (mergedIndex results) n) as [hook|] eqn:G.
  - destruct (mergedIndex_hook results n hook G) as (Hn & _ & first & F & V & T).
    split; [assumption|]. exists first. auto.
  - apply get_None_keys in G. intros o Ho E. apply G, K. now exists o.
Qed.

(** ** Cross-Version Merger: the raw history *)

Module HistoryFacts.
Import Merge.

Lemma mergeHook_recorded (st : State) (hook : WorkerHook.t) :
  exists argKey locs,
    hooksDb (mergeHook st hook)
    = JsMap.set (hooksDb st) (WorkerHook.name hook)
        (HookData.mk (HookData.name (priorHook st hook))
           (HookData.type (priorHook st hook))
           (HookData.firstVersion (priorHook st hook))
           locs
           (recordHistory (HookData.argumentHistory (priorHook st hook)) argKey
              (List.length (store st)) (WorkerHook.version hook))).
Proof.
  unfold mergeHook, priorHook, recordHistory, JsMap.has.
  destruct (JsMap.get (hooksDb st) (WorkerHook.name hook)) as [hd|] eqn:G.
  - rewrite G.
    destruct (find (sameLocation hook) (HookData.locations hd));
      eexists; eexists; reflexivity.
  - rewrite get_set_same.
    cbn [HookData.locations HookData.argumentHistory HookData.name HookData.type
         HookData.firstVersion find hooksDb].
    rewrite (set_absent _ _ _ G), set_absent_update by assumption.
    rewrite <- (set_absent _ _ _ G). eexists; eexists; reflexivity.
Qed.

Lemma memberships_app {A : Type} (a b : JsMap.t (HistoryEntry.t A)) :
  memberships (a ++ b) = memberships a ++ memberships b.
Proof. unfold memberships. apply flat_map_app. Qed.

(** One record more in a raw history: an entry for its arguments, new or
    not, with its version pushed last. *)
Lemma recordHistory_facts {A : Type} (history : JsMap.t (HistoryEntry.t A))
  (argKey : string) (args : A) (version : string) :
  (forall k e, In (k, e) history ->
     exists rest, HistoryEntry.versions e = HistoryEntry.firstSeenVersion e :: rest) ->
  recordHistory history argKey args version <> []
  /\ (forall k e, In (k, e) (recordHistory history argKey args version) ->
        exists rest,
          HistoryEntry.versions e = HistoryEntry.firstSeenVersion e :: rest)
  /\ (forall v, In v (memberships (recordHistory history argKey args version))
                <-> In v (memberships history) \/ v = version).
Proof.
  intros Inv. unfold recordHistory, JsMap.has.
  destruct (JsMap.get history argKey) as [e0|] eqn:G.
  - rewrite G.
    destruct (set_present history argKey e0
                (HistoryEntry.mk (HistoryEntry.arguments e0)
                   (HistoryEntry.firstSeenVersion e0)
                   (HistoryEntry.versions e0 ++ [version])) G)
      as (b & a & E & -> & _).
    split; [destruct b; discriminate|]. split.
    + intros k e Hin. apply in_app_iff in Hin as [Hin|[[= <- <-]|Hin]].
      * apply (Inv k). rewrite E. apply in_app_iff. auto.
      * destruct (Inv argKey e0) as (rest & Hr).
        { rewrite E. apply in_app_iff. simpl. auto. }
        exists (rest ++ [version]). simpl. now rewrite Hr.
      * apply (Inv k). rewrite E. apply in_app_iff. simpl. auto.
    + intros v. rewrite E.
      change ((argKey, e0) :: a) with ([(argKey, e0)] ++ a).
      change ((argKey, ?x) :: a) with ([(argKey, x)] ++ a).
      rewrite !memberships_app. unfold memberships at 2 5. simpl.
      rewrite !app_nil_r, !in_app_iff. simpl.
      assert (version = v <-> v = version) by (split; congruence). tauto.
  - rewrite get_set_same. simpl.
    rewrite (set_absent history argKey _ G),
      (set_absent_update history argKey) by assumption.
    split; [destruct history; discriminate|]. split.
    + intros k e Hin. apply in_app_iff in Hin as [Hin|[[= <- <-]|[]]].
      * now apply (Inv k).
      * now exists [].
    + intros v. rewrite memberships_app. unfold memberships at 2. simpl.
      rewrite in_app_iff. simpl.
      assert (version = v <-> v = version) by (split; congruence). tauto.
Qed.

Lemma merge_history_invariant (l : list WorkerHook.t) :
  historyInvariant l (hooksDb (fold_left mergeHook l initial)).
Proof.
  induction l as [|hook l IH] using rev_ind.
  - intros n hd. simpl. discriminate.
  - rewrite fold_left_app. simpl.
    set (st := fold_left mergeHook l initial) in *.
    destruct (mergeHook_recorded st hook) as (argKey & locs & ->).
    pose proof (MergeFacts.merge_invariant l) as (_ & K & _). fold st in K.
    intros n hd.
    destruct (String.eqb_spec (WorkerHook.name hook) n) as [<-|Hne].
    + rewrite get_set_same. intros [= <-]. cbn [HookData.argumentHistory].
      assert (P : (forall k e,
                     In (k, e) (HookData.argumentHistory (priorHook st hook)) ->
                     exists rest, HistoryEntry.versions e
                                  = HistoryEntry.firstSeenVersion e :: rest)
                  /\ (forall v,
                        In v (memberships (HookData.argumentHistory (priorHook st hook)))
                        <-> exists o, In o l
                              /\ WorkerHook.name o = WorkerHook.name hook
                              /\ WorkerHook.version o = v)).
      { unfold priorHook.
        destruct (JsMap.get (hooksDb st) (WorkerHook.name hook)) as [hd0|] eqn:G.
        - destruct (IH _ _ G) as (_ & He & Hm). auto.
        - simpl. split; [intros k e []|]. intros v. split; [intros []|].
          intros (o & Ho & Hn & _). apply get_None_keys in G. apply G, K.
          now exists o. }
      destruct P as [He Hm].
      destruct (recordHistory_facts _ argKey (List.length (store st))
                  (WorkerHook.version hook) He) as (N & E & M).
      split; [assumption|]. split; [assumption|].
      intros v. rewrite M, Hm. split.
      * intros [(o & Ho & Hn & Hv)| ->].
        -- exists o. split; [apply in_or_app; now left|auto].
        -- exists hook. split; [apply in_or_app; right; now left|auto].
      * intros (o & Ho & Hn & Hv). apply in_app_or in Ho as [Ho|[<-|[]]].
        -- left. now exists o.
        -- now right.
    + rewrite get_set_other by assumption. intros G.
      destruct (IH _ _ G) as (N & E & M).
      split; [assumption|]. split; [assumption|].
      intros v. rewrite M. split.
      * intros (o & Ho & Hn & Hv). exists o. split; [apply in_or_app; now left|auto].
      * intros (o & Ho & Hn & Hv). apply in_app_or in Ho as [Ho|[<-|[]]].
        -- now exists o.
        -- congruence.
Qed.

End HistoryFacts.

Lemma memberships_read (st : list (list string)) (history : JsMap.t (HistoryEntry.t nat)) :
  memberships (map (fun kv => (fst kv, Merge.readEntry st (snd kv))) history)
  = memberships history.
Proof.
  unfold memberships. induction history as [|[k e] r IH]; simpl; [reflexivity|].
  now rewrite IH.
Qed.

(** The raw history of a hook of the merged index. *)
Lemma mergedIndex_history (results : list (list WorkerHook.t)) (n : string)
  (hook : HookData.t (list string)) :
  JsMap.get (mergedIndex results) n = Some hook ->
  HookData.argumentHistory hook <> []
  /\ (forall k e, In (k, e) (HookData.argumentHistory hook) ->
        exists rest,
          HistoryEntry.versions e = HistoryEntry.firstSeenVersion e :: rest)
  /\ (forall v, In v (memberships (HookData.argumentHistory hook))
                <-> exists o, In o (occurrences results) /\ WorkerHook.name o = n
                              /\ WorkerHook.version o = v).
Proof.
  unfold mergedIndex, Merge.read. rewrite get_map_value.
  rewrite MergeFacts.mergeResults_occurrences.
  pose proof (HistoryFacts.merge_history_invariant (occurrences results)) as H.
  destruct (JsMap.get _ n) as [hd|] eqn:G; [|discriminate].
  simpl. intros [= <-]. destruct (H _ _ G) as (N & E & M).
  cbn [Merge.readHook HookData.argumentHistory]. split; [|split].
  - destruct (HookData.argumentHistory hd); [congruence|discriminate].
  - intros k e Hin. apply in_map_iff in Hin as ([k0 e0] & [= <- <-] & Hin).
    simpl. now apply (E k0).
  - intros v. now rewrite memberships_read.
Qed.

Lemma mergedIndex_versions (results : list (list WorkerHook.t)) (n : string)
  (hook : HookData.t (list string)) (v : string) :
  JsMap.get (mergedIndex results) n = Some hook ->
  In v (versionsOfHook hook)
  <-> exists o, In o (occurrences results) /\ WorkerHook.name o = n
                /\ WorkerHook.version o = v.
Proof.
  intros G. destruct (mergedIndex_hook results n hook G) as (_ & L & _).
  unfold versionsOfHook. rewrite L.
  destruct (locationsOf_invariant (filter (named n) (occurrences results)))
    as (_ & Hp & _).
  split.
  - intros Hin. apply in_map_iff in Hin as (loc & <- & Hl).
    destruct (proj1 (Hp (placeOf loc))) as (o & Ho & E); [now apply in_map|].
    apply filter_named_In in Ho as [Ho Hn]. exists o.
    injection E as Ev _. auto.
  - intros (o & Ho & Hn & <-).
    assert (Hin : In (placeOfRecord o)
                    (map placeOf (locationsOf (filter (named n) (occurrences results))))).
    { apply Hp. exists o. split; [now apply filter_named_In|reflexivity]. }
    apply in_map_iff in Hin as (loc & E & Hl). injection E as Ev _.
    apply in_map_iff. now exists loc.
Qed.

Lemma memberships_In {A : Type} (history : JsMap.t (HistoryEntry.t A)) (v : string) :
  In v (memberships history)
  <-> exists e, In e (JsMap.values history) /\ In v (HistoryEntry.versions e).
Proof.
  unfold memberships, JsMap.values. rewrite in_flat_map. split.
  - intros ([k e] & Hin & Hv). exists e. split; [|exact Hv].
    apply in_map_iff. now exists (k, e).
  - intros (e & Hin & Hv). apply in_map_iff in Hin as ([k e0] & <- & Hin).
    now exists (k, e0).
Qed.

(** A hook of the index after consolidation. *)
Lemma consolidated_hook_history (results : list (list WorkerHook.t)) (n : string)
  (hook : HookData.t (list string)) :
  JsMap.get (mergedIndex results) n = Some hook ->
  HookData.locations (consolidateHook hook) <> []
  /\ HookData.argumentHistory (consolidateHook hook) <> []
  /\ (forall k e, In (k, e) (HookData.argumentHistory (consolidateHook hook)) ->
        exists rest,
          HistoryEntry.versions e = HistoryEntry.firstSeenVersion e :: rest)
  /\ (forall v, In v (memberships (HookData.argumentHistory (consolidateHook hook)))
                <-> In v (versionsOfHook (consolidateHook hook))).
Proof.
  intros G. destruct (mergedIndex_history results n hook G) as (N & E & M).
  pose proof (fun v => mergedIndex_versions results n hook v G) as V.
  assert (Hv : exists v, In v (memberships (HookData.argumentHistory hook))).
  { destruct (HookData.argumentHistory hook) as [|[k e] r] eqn:Eh; [congruence|].
    destruct (E k e) as (rest & Hr); [now left|].
    exists (HistoryEntry.firstSeenVersion e). unfold memberships. simpl.
    rewrite Hr. now left. }
  assert (Hloc : HookData.locations hook <> []).
  { destruct Hv as (v & Hv). apply M, V in Hv. unfold versionsOfHook in Hv.
    destruct (HookData.locations hook); [destruct Hv|discriminate]. }
  destruct (tracksArguments (HookData.type hook)) eqn:T.
  - assert (L : HookData.locations (consolidateHook hook) = HookData.locations hook).
    { unfold consolidateHook. now rewrite T. }
    assert (Mc : forall v,
               In v (memberships (HookData.argumentHistory (consolidateHook hook)))
               <-> In v (memberships (HookData.argumentHistory hook))).
    { intros v. rewrite <- (allVersionsOf_In hook v). split; apply Permutation_in.
      - now apply consolidateHook_memberships.
      - apply Permutation_sym. now apply consolidateHook_memberships. }
    rewrite L. split; [assumption|]. split; [|split].
    + destruct Hv as (v & Hv). apply Mc in Hv.
      destruct (HookData.argumentHistory (consolidateHook hook)); [destruct Hv|discriminate].
    + intros k e Hin.
      destruct (consolidateHook_entries hook T k e Hin) as (_ & _ & R). exact R.
    + intros v. unfold versionsOfHook. rewrite L, Mc, M.
      symmetry. apply V.
  - assert (C : consolidateHook hook = hook).
    { unfold consolidateHook. now rewrite T. }
    rewrite C. split; [assumption|]. split; [assumption|]. split; [assumption|].
    intros v. rewrite M. symmetry. apply V.
Qed.

Lemma get_consolidated (db : HooksDb) (n : string) :
  JsMap.get (consolidateArgumentHistory db) n
  = option_map consolidateHook (JsMap.get db n).
Proof. unfold consolidateArgumentHistory. apply get_map_value. Qed.

(** X10: every hook of the report that the pipeline writes has at least one
    location and at least one history entry, so its [argumentChangeCount] is
    not negative; every entry lists its [firstSeenVersion] first among its
    versions and has a [changeCount] of at least one; and the versions of
    the history entries are exactly the versions of the hook's locations. *)
Theorem pipeline_hooks_well_formed (results : list (list WorkerHook.t)) :
  Forall wellFormedHook (Report.hooks (runPipeline results)).
Proof.
  unfold runPipeline, generateReport. cbv zeta. cbn [Report.hooks].
  apply Forall_forall. intros h Hh.
  apply in_map_iff in Hh as (hc & <- & Hin).
  assert (ND : NoDup (JsMap.keys (consolidateArgumentHistory (mergedIndex results)))).
  { unfold consolidateArgumentHistory. rewrite keys_map_value.
    apply mergedIndex_keys. }
  destruct (In_values_get _ hc ND Hin) as (n & G).
  rewrite get_consolidated in G.
  destruct (JsMap.get (mergedIndex results) n) as [hook|] eqn:G0; [|discriminate].
  injection G as <-.
  destruct (consolidated_hook_history results n hook G0) as (L & N & E & M).
  unfold wellFormedHook. cbn [reportHook ReportHook.locations
    ReportHook.argumentHistory ReportHook.argumentChangeCount].
  split; [assumption|]. split; [|split; [|split]].
  - unfold JsMap.values.
    destruct (HookData.argumentHistory (consolidateHook hook)); [congruence|discriminate].
  - unfold JsMap.values. rewrite !length_map.
    destruct (HookData.argumentHistory (consolidateHook hook)); [congruence|].
    cbn [List.length]. lia.
  - apply Forall_forall. intros e He.
    apply in_map_iff in He as (e0 & <- & He0).
    unfold JsMap.values in He0. apply in_map_iff in He0 as ([k e1] & <- & He1).
    destruct (E k e1 He1) as (rest & Hr). cbn [snd reportEntry ReportEntry.changeCount
      ReportEntry.versions ReportEntry.firstSeenVersion].
    split; [|now exists rest]. rewrite Hr. cbn [List.length]. lia.
  - intros v. fold (versionsOfHook (consolidateHook hook)). rewrite <- M, memberships_In.
    split.
    + intros (e & He & Hv). apply in_map_iff in He as (e0 & <- & He0).
      now exists e0.
    + intros (e0 & He0 & Hv). exists (reportEntry e0). split; [now apply in_map|exact Hv].
Qed.

(** ** Version Catalog: the tags of the listing *)

Lemma getDiscourseVersions_lines (tags : string) :
  getDiscourseVersions (Some tags)
  = sortVersions (flat_map versionOfLine (Js.split_char newline tags)) ++ ["main"].
Proof.
  unfold getDiscourseVersions. f_equal. f_equal.
  induction (Js.split_char newline tags) as [|line r IH]; [reflexivity|].
  cbn [filter flat_map]. unfold versionOfLine at 1.
  destruct (Js.includes line "refs/tags/v" && negb (Js.includes line "^{}"));
    [|exact IH].
  cbn [map flat_map]. now rewrite IH.
Qed.

Lemma versionOfLine_valid (line v : string) :
  In v (versionOfLine line) -> valid_tag v = true.
Proof.
  unfold versionOfLine.
  destruct (_ && _); [|intros []].
  destruct (splitSecond _ _) as [tag|]; [|intros []].
  destruct (valid_tag tag) eqn:V; [|intros []].
  now intros [<-|[]].
Qed.

Lemma valid_tag_version (v : string) : valid_tag v = true -> valid_version v = true.
Proof. unfold valid_version. intros ->. apply orb_true_r. Qed.

Lemma notLater_main (v : string) : valid_version v = true -> notLater v "main".
Proof.
  intros V. unfold notLater, compareVersionsZ, compareVersions.
  simpl (String.eqb "main" "main"). rewrite andb_true_r.
  destruct (String.eqb v "main"); lia.
Qed.

Lemma lastOf_snoc (l : list string) (x : string) : lastOf (l ++ [x]) = Some x.
Proof.
  destruct l as [|y r]; [reflexivity|]. simpl. f_equal. apply last_last.
Qed.

Lemma StronglySorted_snoc {A : Type} (R : A -> A -> Prop) (l : list A) (x : A) :
  StronglySorted R l -> Forall (fun y => R y x) l -> StronglySorted R (l ++ [x]).
Proof.
  induction 1 as [|y r S IH F]; simpl; intros H; [repeat constructor|].
  inversion H as [|? ? Hy Hr]; subst.
  constructor; [now apply IH|].
  apply Forall_app. split; [assumption|now constructor].
Qed.

Lemma StronglySorted_weaken {A : Type} (R R' : A -> A -> Prop) (P : A -> Prop)
  (l : list A) :
  (forall x y, P x -> P y -> R x y -> R' x y) ->
  Forall P l -> StronglySorted R l -> StronglySorted R' l.
Proof.
  intros W Pl S. induction S as [|x r S IH F]; [constructor|].
  inversion Pl as [|? ? Px Pr]; subst.
  constructor; [now apply IH|].
  rewrite Forall_forall in *. intros y Hy. apply W; auto.
Qed.

Lemma leb_notLater (a b : string) :
  valid_version a = true -> valid_version b = true ->
  (compareVersionsZ a b <=? 0) = true -> notLater a b.
Proof.
  intros _ _ H. unfold notLater. now apply Z.leb_le.
Qed.

(** X11: when the listing of the tags succeeds, the catalog is in ascending
    version order and ends with ["main"]; every identifier before it is a
    tag of the form v<digits>.<digits>.<digits>, so every identifier is one
    that [compareVersions] orders.  When the listing fails the catalog is
    empty, and it is empty only then. *)
Theorem getDiscourseVersions_catalog (tags : string) :
  let versions := getDiscourseVersions (Some tags) in
  lastOf versions = Some "main"
  /\ Forall (fun v => valid_tag v = true) (removelast versions)
  /\ Forall (fun v => valid_version v = true) versions
  /\ StronglySorted notLater versions
  /\ getDiscourseVersions None = [].
Proof.
  cbv zeta. rewrite getDiscourseVersions_lines.
  set (found := flat_map versionOfLine (Js.split_char newline tags)).
  assert (Hf : Forall (fun v => valid_tag v = true) found).
  { apply Forall_forall. intros v Hv. apply in_flat_map in Hv as (line & _ & Hv).
    now apply (versionOfLine_valid line). }
  assert (Hs : Forall (fun v => valid_tag v = true) (sortVersions found)).
  { apply Forall_forall. intros v Hv. rewrite Forall_forall in Hf. apply Hf.
    unfold sortVersions in Hv. now apply (Permutation_in _ (sort_perm _ found)) in Hv. }
  assert (Hvv : Forall (fun v => valid_version v = true) (sortVersions found)).
  { eapply Forall_impl; [|exact Hs]. apply valid_tag_version. }
  split; [apply lastOf_snoc|]. split; [now rewrite removelast_last|].
  split; [|split; [|reflexivity]].
  - apply Forall_app. split; [assumption|]. repeat constructor.
  - apply StronglySorted_snoc.
    + apply (StronglySorted_weaken
               (fun a b => (compareVersionsZ a b <=? 0) = true) notLater
               (fun v => valid_version v = true)); [apply leb_notLater|assumption|].
      apply sortVersions_sorted. apply forallb_forall. intros v Hv.
      apply valid_tag_version. rewrite Forall_forall in Hf. now apply Hf.
    + eapply Forall_impl; [|exact Hvv]. apply notLater_main.
Qed.

(** *** A listing with one line per reference *)

Lemma dropPrefix_none_prefix (p s : string) :
  dropPrefix p s = None <-> String.prefix p s = false.
Proof.
  revert s. induction p as [|a p IH]; intros s; simpl.
  - destruct s; simpl; split; intros H; discriminate H.
  - destruct s as [|b s]; [tauto|].
    change (String.prefix (String a p) (String b s))
      with (if ascii_dec a b then String.prefix p s else false).
    destruct (ascii_dec a b) as [->|Hne].
    + rewrite Ascii.eqb_refl. apply IH.
    + apply Ascii.eqb_neq in Hne. rewrite Hne. tauto.
Qed.

Lemma beforeFirst_absent (sep s : string) :
  Js.includes s sep = false -> beforeFirst sep s = s.
Proof.
  induction s as [|c r IH]; intros H; cbn [Js.includes] in H; cbn [beforeFirst].
  - apply orb_false_iff in H as [H _]. apply dropPrefix_none_prefix in H.
    now rewrite H.
  - apply orb_false_iff in H as [H Hr]. apply dropPrefix_none_prefix in H.
    rewrite H. now rewrite IH.
Qed.

Lemma is_hex_not_r (c : ascii) : is_hex c = true -> Ascii.eqb "r" c = false.
Proof.
  intros H. destruct (Ascii.eqb_spec "r"%char c) as [<-|]; [|reflexivity].
  vm_compute in H. discriminate.
Qed.

Lemma afterFirst_refLine (sha name : string) :
  Js.forall_chars is_hex sha = true ->
  afterFirst "refs/tags/" (sha ++ String tab ("refs/tags/" ++ name))%string
  = Some name.
Proof.
  induction sha as [|c r IH]; intros H.
  - reflexivity.
  - simpl in H. apply andb_true_iff in H as [Hc Hr].
    change ((String c r ++ String tab ("refs/tags/" ++ name))%string)
      with (String c (r ++ String tab ("refs/tags/" ++ name))%string).
    cbn [afterFirst dropPrefix]. rewrite (is_hex_not_r c Hc). now apply IH.
Qed.

Lemma includes_app_r (a b p : string) :
  Js.includes b p = true -> Js.includes (a ++ b)%string p = true.
Proof.
  intros H. induction a as [|c r IH]; [exact H|].
  change (String c r ++ b)%string with (String c (r ++ b)%string).
  cbn [Js.includes]. rewrite IH. apply orb_true_r.
Qed.

Lemma includes_first_char (s p : string) (c : ascii) :
  Js.exists_char (Ascii.eqb c) s = false -> Js.includes s (String c p) = false.
Proof.
  induction s as [|d r IH]; intros H; [reflexivity|].
  cbn [Js.exists_char] in H. apply orb_false_iff in H as [Hd Hr].
  cbn [Js.includes]. rewrite (IH Hr), orb_false_r.
  change (String.prefix (String c p) (String d r))
    with (if ascii_dec c d then String.prefix p r else false).
  destruct (ascii_dec c d) as [->|]; [|reflexivity].
  now rewrite Ascii.eqb_refl in Hd.
Qed.

Lemma exists_char_app (p : ascii -> bool) (a b : string) :
  Js.exists_char p (a ++ b)%string = Js.exists_char p a || Js.exists_char p b.
Proof.
  induction a as [|c r IH]; simpl; [reflexivity|]. now rewrite IH, orb_assoc.
Qed.

Lemma exists_char_none (p q : ascii -> bool) (s : string) :
  (forall c, q c = true -> p c = false) ->
  Js.forall_chars q s = true -> Js.exists_char p s = false.
Proof.
  intros H. induction s as [|c r IH]; simpl; [reflexivity|].
  intros Hq. apply andb_true_iff in Hq as [Hc Hr].
  now rewrite (H c Hc), (IH Hr).
Qed.

Lemma valid_tag_chars (s : string) :
  valid_tag s = true ->
  Js.forall_chars tagChar s = true /\ exists r, s = String "v" r.
Proof.
  destruct s as [|c0 r]; [discriminate|]. unfold valid_tag.
  intros H. apply andb_true_iff in H as [Hv H].
  apply Ascii.eqb_eq in Hv as ->. split; [|now exists r].
  simpl. pose proof (join_split_char "." r) as J.
  destruct (Js.split_char "." r) as [|a [|b [|c [|]]]]; try discriminate.
  apply andb_true_iff in H as [H Hc]. apply andb_true_iff in H as [Ha Hb].
  unfold is_digits1 in *. apply andb_true_iff in Ha as [_ Ha].
  apply andb_true_iff in Hb as [_ Hb]. apply andb_true_iff in Hc as [_ Hc].
  assert (D : forall x, Js.forall_chars Js.is_digit x = true ->
                        Js.forall_chars tagChar x = true).
  { intros x. apply forall_chars_impl. intros d Hd. unfold tagChar.
    rewrite Hd. now rewrite orb_true_r. }
  rewrite <- J. cbn [Js.join]. rewrite !forall_chars_app. simpl.
  now rewrite (D a Ha), (D b Hb), (D c Hc).
Qed.

Lemma versionOfLine_refLine (ref : string * string) :
  plainRef ref = true ->
  versionOfLine (refLine ref) = if valid_tag (snd ref) then [snd ref] else [].
Proof.
  destruct ref as [sha name]. unfold plainRef, refLine. cbn [fst snd].
  intros H. apply andb_true_iff in H as [H Hs]. apply andb_true_iff in H as [Hh _].
  apply negb_true_iff in Hs.
  unfold versionOfLine, splitSecond.
  rewrite (afterFirst_refLine sha name Hh). cbn [option_map].
  rewrite (beforeFirst_absent _ _ Hs).
  destruct (valid_tag name) eqn:V.
  - destruct (valid_tag_chars name V) as (Hc & r & ->).
    assert (I1 : Js.includes (sha ++ String tab ("refs/tags/" ++ String "v" r))%string
                   "refs/tags/v" = true).
    { change (String tab ("refs/tags/" ++ String "v" r))%string
        with ((String tab "") ++ ("refs/tags/" ++ String "v" r))%string.
      apply includes_app_r, includes_app_r.
      destruct r; reflexivity. }
    assert (I2 : Js.includes (sha ++ String tab ("refs/tags/" ++ String "v" r))%string
                   "^{}" = false).
    { apply includes_first_char.
      rewrite exists_char_app. cbn [Js.exists_char].
      change (String "r" (String "e" (String "f" (String "s" (String "/"
               (String "t" (String "a" (String "g" (String "s" (String "/"
                  (String "v" r)))))))))))
        with ("refs/tags/" ++ String "v" r)%string.
      rewrite exists_char_app.
      rewrite (exists_char_none _ is_hex sha), (exists_char_none _ tagChar (String "v" r));
        try assumption.
      - reflexivity.
      - intros c Hcc. destruct (Ascii.eqb_spec "^"%char c) as [<-|]; [|reflexivity].
        vm_compute in Hcc. discriminate.
      - intros c Hcc. destruct (Ascii.eqb_spec "^"%char c) as [<-|]; [|reflexivity].
        vm_compute in Hcc. discriminate. }
    now rewrite I1, I2.
  - destruct (_ && _); reflexivity.
Qed.

Lemma split_char_last (c : ascii) (k : string) :
  Js.forall_chars (fun d => negb (Ascii.eqb d c)) k = true ->
  Js.split_char c k = [k].
Proof.
  induction k as [|d r IH]; simpl; intros H; [reflexivity|].
  apply andb_true_iff in H as [Hd Hr]. apply negb_true_iff in Hd.
  now rewrite Hd, (IH Hr).
Qed.

Lemma split_char_join (c : ascii) (k : string) (l : list string) :
  Forall (fun k => Js.forall_chars (fun d => negb (Ascii.eqb d c)) k = true) (k :: l) ->
  Js.split_char c (Js.join (String c "") (k :: l)) = k :: l.
Proof.
  revert k. induction l as [|k' l IH]; intros k H.
  - inversion H; subst. now apply split_char_last.
  - inversion H as [|? ? Hk Hl]; subst.
    change (Js.join (String c "") (k :: k' :: l))
      with (k ++ String c (Js.join (String c "") (k' :: l)))%string.
    rewrite split_char_first by assumption. now rewrite IH.
Qed.

Lemma refLine_one_line (ref : string * string) :
  plainRef ref = true ->
  Js.forall_chars (fun d => negb (Ascii.eqb d newline)) (refLine ref) = true.
Proof.
  destruct ref as [sha name]. unfold plainRef, refLine. cbn [fst snd].
  intros H. apply andb_true_iff in H as [H _]. apply andb_true_iff in H as [Hh Hn].
  rewrite forall_chars_app. apply andb_true_iff. split.
  - revert Hh. apply forall_chars_impl. intros c Hc.
    destruct (Ascii.eqb_spec c newline) as [->|]; [|reflexivity].
    vm_compute in Hc. discriminate.
  - change (String tab ("refs/tags/" ++ name))%string
      with ((String tab "refs/tags/") ++ name)%string.
    rewrite forall_chars_app. apply andb_true_iff. split; [reflexivity|].
    apply negb_true_iff in Hn. clear - Hn.
    induction name as [|c r IH]; [reflexivity|].
    cbn [Js.exists_char] in Hn. apply orb_false_iff in Hn as [Hc Hr].
    cbn [Js.forall_chars]. rewrite (IH Hr), andb_true_r.
    rewrite Ascii.eqb_sym. now rewrite Hc.
Qed.

(** X12: for a listing with one line per reference (a hexadecimal object
    name, a tab, [refs/tags/] and the tag name), the catalog is made of the
    tag names of the form v<digits>.<digits>.<digits>, each as often as it
    is listed, in ascending version order, and of ["main"] after them; every
    other reference is left out. *)
Theorem getDiscourseVersions_listing (refs : list (string * string)) :
  forallb plainRef refs = true ->
  getDiscourseVersions (Some (listing refs))
  = sortVersions (filter valid_tag (map snd refs)) ++ ["main"].
Proof.
  intros H. rewrite getDiscourseVersions_lines. f_equal. f_equal.
  rewrite forallb_forall in H.
  assert (F : flat_map versionOfLine (map refLine refs)
              = filter valid_tag (map snd refs)).
  { induction refs as [|ref r IH]; [reflexivity|].
    cbn [map flat_map filter].
    rewrite versionOfLine_refLine by (apply H; now left).
    rewrite IH by (intros x Hx; apply H; now right).
    destruct (valid_tag (snd ref)); reflexivity. }
  destruct refs as [|ref r]; [reflexivity|].
  unfold listing. rewrite <- F.
  change (map refLine (ref :: r)) with (refLine ref :: map refLine r).
  rewrite split_char_join; [reflexivity|].
  change (refLine ref :: map refLine r) with (map refLine (ref :: r)).
  apply Forall_forall. intros line Hl. apply in_map_iff in Hl as (x & <- & Hx).
  apply refLine_one_line, H, Hx.
Qed.

Lemma getDiscourseVersions_listing_witness :
  getDiscourseVersions
    (Some (listing [("1f0e", "v1.10.0"); ("1f0f", "v1.10.0^{}");
                    ("a9c2", "v1.2.3"); ("77b0", "latest-release")]))
  = sortVersions
      (filter valid_tag
         (map snd [("1f0e", "v1.10.0"); ("1f0f", "v1.10.0^{}");
                   ("a9c2", "v1.2.3"); ("77b0", "latest-release")]))
    ++ ["main"].
Proof.
  apply (getDiscourseVersions_listing
           [("1f0e", "v1.10.0"); ("1f0f", "v1.10.0^{}");
            ("a9c2", "v1.2.3"); ("77b0", "latest-release")]).
  reflexivity.
Defined.

(** ** Argument lists *)

(** *** White space at the ends *)

Lemma trimStart_idem (s : string) : Js.trimStart (Js.trimStart s) = Js.trimStart s.
Proof.
  induction s as [|c r IH]; [reflexivity|]. simpl.
  destruct (Js.is_space c) eqn:E; [exact IH|]. simpl. now rewrite E.
Qed.

Lemma trimEnd_cons (c : ascii) (r : string) :
  Js.is_space c = false -> Js.trimEnd (String c r) = String c (Js.trimEnd r).
Proof. intros H. simpl. rewrite H. now destruct (Js.trimEnd r). Qed.

Lemma trimEnd_cons_nonempty (c : ascii) (r : string) :
  Js.trimEnd r <> EmptyString -> Js.trimEnd (String c r) = String c (Js.trimEnd r).
Proof. intros H. simpl. destruct (Js.trimEnd r); [congruence|reflexivity]. Qed.

Lemma trimEnd_cons_blank (c : ascii) (r : string) :
  Js.is_space c = true -> Js.trimEnd r = EmptyString ->
  Js.trimEnd (String c r) = EmptyString.
Proof. intros H E. simpl. now rewrite E, H. Qed.

Lemma trimStart_cons (c : ascii) (r : string) :
  Js.trimStart (String c r) = if Js.is_space c then Js.trimStart r else String c r.
Proof. reflexivity. Qed.

Lemma trimStart_trimEnd (s : string) :
  Js.trimStart (Js.trimEnd s) = Js.trimEnd (Js.trimStart s).
Proof.
  induction s as [|c r IH]; [reflexivity|].
  rewrite (trimStart_cons c r).
  destruct (Js.is_space c) eqn:E.
  - destruct (Js.trimEnd r) as [|d r'] eqn:T.
    + rewrite (trimEnd_cons_blank c r E T). exact IH.
    + rewrite trimEnd_cons_nonempty by (rewrite T; discriminate).
      rewrite trimStart_cons, E, T. exact IH.
  - rewrite (trimEnd_cons c r E). rewrite trimStart_cons. now rewrite E.
Qed.

Lemma trimEnd_idem (s : string) : Js.trimEnd (Js.trimEnd s) = Js.trimEnd s.
Proof.
  induction s as [|c r IH]; [reflexivity|].
  destruct (string_dec (Js.trimEnd r) EmptyString) as [T|T].
  - destruct (Js.is_space c) eqn:E.
    + now rewrite (trimEnd_cons_blank c r E T).
    + rewrite (trimEnd_cons c r E), T. now rewrite (trimEnd_cons c EmptyString E).
  - rewrite (trimEnd_cons_nonempty c r T).
    rewrite trimEnd_cons_nonempty by (now rewrite IH). now rewrite IH.
Qed.

Lemma trim_trimStart (s : string) : Js.trim (Js.trimStart s) = Js.trim s.
Proof. unfold Js.trim. now rewrite trimStart_idem. Qed.

Lemma trim_trimEnd (s : string) : Js.trim (Js.trimEnd s) = Js.trim s.
Proof. unfold Js.trim. now rewrite trimStart_trimEnd, trimEnd_idem. Qed.

Lemma trim_idem (s : string) : Js.trim (Js.trim s) = Js.trim s.
Proof. unfold Js.trim at 2. now rewrite trim_trimEnd, trim_trimStart. Qed.

Lemma trimStart_app_text (a : string) (c : ascii) (b : string) :
  Js.is_space c = false ->
  Js.trimStart (a ++ String c b) = (Js.trimStart a ++ String c b)%string.
Proof.
  intros H. induction a as [|d a IH]; simpl; [now rewrite H|].
  destruct (Js.is_space d); [exact IH|reflexivity].
Qed.

Lemma trimEnd_app_text (a : string) (c : ascii) (b : string) :
  Js.is_space c = false ->
  Js.trimEnd (a ++ String c b) = (a ++ String c (Js.trimEnd b))%string.
Proof.
  intros H. induction a as [|d a IH].
  - now apply trimEnd_cons.
  - change ((String d a ++ String c b)%string) with (String d (a ++ String c b)%string).
    rewrite trimEnd_cons_nonempty; [now rewrite IH|].
    rewrite IH. now destruct a.
Qed.

Lemma comma_not_space : Js.is_space "," = false.
Proof. reflexivity. Qed.

Lemma trimStart_join (l : list string) :
  Js.trimStart (Js.join "," l) = Js.join "," (mapFirst Js.trimStart l).
Proof.
  destruct l as [|p [|q r]]; [reflexivity|reflexivity|].
  change (Js.join "," (p :: q :: r)) with (p ++ String "," (Js.join "," (q :: r)))%string.
  now rewrite trimStart_app_text.
Qed.

Lemma trimEnd_join (l : list string) :
  Js.trimEnd (Js.join "," l) = Js.join "," (mapLast Js.trimEnd l).
Proof.
  induction l as [|p l IH]; [reflexivity|].
  destruct l as [|q r]; [reflexivity|].
  change (Js.join "," (p :: q :: r)) with (p ++ String "," (Js.join "," (q :: r)))%string.
  rewrite trimEnd_app_text by reflexivity. rewrite IH.
  change (mapLast Js.trimEnd (p :: q :: r)) with (p :: mapLast Js.trimEnd (q :: r)).
  destruct (mapLast Js.trimEnd (q :: r)) eqn:E; [|reflexivity].
  destruct r; discriminate.
Qed.

Lemma map_trim_mapFirst (l : list string) :
  map Js.trim (mapFirst Js.trimStart l) = map Js.trim l.
Proof. destruct l; [reflexivity|]. simpl. now rewrite trim_trimStart. Qed.

Lemma map_trim_mapLast (l : list string) :
  map Js.trim (mapLast Js.trimEnd l) = map Js.trim l.
Proof.
  induction l as [|p l IH]; [reflexivity|].
  destruct l as [|q r]; [simpl; now rewrite trim_trimEnd|].
  change (mapLast Js.trimEnd (p :: q :: r)) with (p :: mapLast Js.trimEnd (q :: r)).
  rewrite (map_cons Js.trim p (mapLast Js.trimEnd (q :: r))), IH. reflexivity.
Qed.

(** *** Closed texts *)

Lemma space_plain (c : ascii) :
  Js.is_space c = true ->
  isQuote c = false /\ isOpen c = false /\ isClose c = false
  /\ Ascii.eqb c "," = false /\ Ascii.eqb c "\" = false.
Proof.
  intros H.
  assert (Q : forall d, Js.is_space d = true -> forall e, Js.is_space e = false ->
                        Ascii.eqb d e = false).
  { intros d Hd e He. destruct (Ascii.eqb_spec d e); [congruence|reflexivity]. }
  unfold isQuote, isOpen, isClose.
  rewrite !(Q c H) by reflexivity. repeat split.
Qed.

Lemma closedFrom_trimStart (d : Z) (p : string) :
  closedFrom d Outside (Js.trimStart p) = closedFrom d Outside p.
Proof.
  induction p as [|c r IH]; [reflexivity|].
  change (Js.trimStart (String c r)) with
    (if Js.is_space c then Js.trimStart r else String c r).
  destruct (Js.is_space c) eqn:E; [|reflexivity].
  destruct (space_plain c E) as (Q & O & C & K & _).
  rewrite IH. cbn [closedFrom]. now rewrite Q, O, C, K.
Qed.

Lemma closedFrom_space (d : Z) (lex : Lex) (c : ascii) (r : string) :
  Js.is_space c = true ->
  match lex with Outside => True | Inside quote _ => Js.is_space quote = false end ->
  closedFrom d lex (String c r)
  = closedFrom d (match lex with
                  | Outside => Outside
                  | Inside quote _ => Inside quote false
                  end) r.
Proof.
  intros E W. destruct (space_plain c E) as (Q & O & C & K & B).
  destruct lex as [|quote escaped]; cbn [closedFrom].
  - now rewrite Q, O, C, K.
  - rewrite B.
    assert (Ascii.eqb c quote = false) as ->; [|reflexivity].
    destruct (Ascii.eqb_spec c quote) as [->|]; [congruence|reflexivity].
Qed.

Lemma isQuote_not_space (c : ascii) : isQuote c = true -> Js.is_space c = false.
Proof.
  intros Q. destruct (Js.is_space c) eqn:E; [|reflexivity].
  destruct (space_plain c E) as (Q' & _). congruence.
Qed.

Lemma closedFrom_trimEnd (p : string) :
  forall d lex,
    match lex with Outside => True | Inside quote _ => Js.is_space quote = false end ->
    closedFrom d lex (Js.trimEnd p) = closedFrom d lex p.
Proof.
  induction p as [|c r IH]; intros d lex W; [reflexivity|].
  assert (Step : forall X,
            (forall d' lex',
               match lex' with
               | Outside => True
               | Inside quote _ => Js.is_space quote = false
               end -> closedFrom d' lex' X = closedFrom d' lex' r) ->
            closedFrom d lex (String c X) = closedFrom d lex (String c r)).
  { intros X HX. destruct lex as [|quote escaped]; cbn [closedFrom].
    - destruct (isQuote c) eqn:Q; [apply HX; now apply isQuote_not_space|].
      destruct (isOpen c); [now apply HX|].
      destruct (isClose c); [now apply HX|].
      destruct (Ascii.eqb c "," && (d =? 0)); [reflexivity|now apply HX].
    - destruct (Ascii.eqb c quote && negb escaped); apply HX; exact I || exact W. }
  destruct (string_dec (Js.trimEnd r) EmptyString) as [T|T].
  - destruct (Js.is_space c) eqn:E.
    + rewrite (trimEnd_cons_blank c r E T).
      rewrite (closedFrom_space d lex c r E W).
      rewrite <- IH by (destruct lex; [exact I|exact W]).
      rewrite T. now destruct lex.
    + rewrite (trimEnd_cons c r E). apply Step.
      intros d' lex' W'. now apply IH.
  - rewrite (trimEnd_cons_nonempty c r T).
    apply Step. intros d' lex' W'. now apply IH.
Qed.

Lemma closedProperty_mapFirst (l : list string) :
  forallb closedProperty l = true ->
  forallb closedProperty (mapFirst Js.trimStart l) = true.
Proof.
  destruct l as [|p r]; [reflexivity|]. simpl.
  unfold closedProperty. now rewrite closedFrom_trimStart.
Qed.

Lemma closedProperty_mapLast (l : list string) :
  forallb closedProperty l = true ->
  forallb closedProperty (mapLast Js.trimEnd l) = true.
Proof.
  induction l as [|p l IH]; [reflexivity|].
  destruct l as [|q r].
  - simpl. unfold closedProperty. now rewrite closedFrom_trimEnd.
  - change (mapLast Js.trimEnd (p :: q :: r)) with (p :: mapLast Js.trimEnd (q :: r)).
    intros H. cbn [forallb] in H. apply andb_true_iff in H as [Hp Hr].
    cbn [forallb]. rewrite Hp. now apply IH.
Qed.

(** *** The loop over the argument texts *)

Section ArgumentListFacts.
Variable normalize : string -> string.

Lemma scanArgs_app (st : ArgScan.t) (a b : string) :
  scanArgs normalize st (a ++ b)%string
  = scanArgs normalize (scanArgs normalize st a) b.
Proof.
  revert st. induction a as [|c a IH]; simpl; intros st; [reflexivity|apply IH].
Qed.

(** One character of a closed text: the arguments stay, the character joins
    [current], and the scanner's view moves as [closedFrom] says. *)
Lemma scanArgChar_closed (st : ArgScan.t) (c : ascii) (r : string) :
  closedFrom (ArgScan.depth st) (lexOfArgs st) (String c r) = true ->
  ArgScan.args (scanArgChar normalize st c) = ArgScan.args st
  /\ ArgScan.current (scanArgChar normalize st c) = appendChar (ArgScan.current st) c
  /\ closedFrom (ArgScan.depth (scanArgChar normalize st c))
       (lexOfArgs (scanArgChar normalize st c)) r = true.
Proof.
  destruct st as [names cur d inS sc pv]. unfold lexOfArgs, scanArgChar. simpl.
  destruct inS; simpl.
  - destruct (Ascii.eqb c sc && negb match pv with
                                       | Some p => Ascii.eqb p "\"
                                       | None => false
                                       end); simpl; auto.
  - destruct (isQuote c) eqn:Q; simpl.
    + rewrite (isQuote_not_backslash c Q). auto.
    + destruct (isOpen c); simpl; [auto|].
      destruct (isClose c); simpl; [auto|].
      destruct (Ascii.eqb c "," && (d =? 0)); simpl; [discriminate|auto].
Qed.

Lemma scanArgs_closed (p : string) :
  forall st,
    closedFrom (ArgScan.depth st) (lexOfArgs st) p = true ->
    exists sc pv,
      scanArgs normalize st p
      = ArgScan.mk (ArgScan.args st) (ArgScan.current st ++ p)%string 0 false sc pv.
Proof.
  induction p as [|c r IH]; intros st H.
  - destruct st as [names cur d inS sc pv]. unfold lexOfArgs in H. simpl in *.
    apply andb_true_iff in H as [Hd Hl]. apply Z.eqb_eq in Hd. subst d.
    destruct inS; [discriminate|]. rewrite append_empty_r. eauto.
  - destruct (scanArgChar_closed st c r H) as (Hn & Hc & Hr).
    destruct (IH _ Hr) as (sc & pv & E). simpl. rewrite E, Hn, Hc, append_snoc.
    eauto.
Qed.

Lemma pushArgument_app (names : list string) (p : string) :
  pushArgument normalize names p = names ++ pushArgument normalize [] p.
Proof.
  unfold pushArgument. destruct (Js.trim p); [now rewrite app_nil_r|reflexivity].
Qed.

Lemma fold_pushArgument (texts : list string) (names : list string) :
  fold_left (pushArgument normalize) texts names
  = names ++ map normalize (argumentsOf texts).
Proof.
  unfold argumentsOf. revert names.
  induction texts as [|p r IH]; simpl; intros names; [now rewrite app_nil_r|].
  rewrite IH, (pushArgument_app names p), <- app_assoc. f_equal.
  unfold pushArgument. destruct (Js.trim p); reflexivity.
Qed.

(** The loop over the texts of a list, and the push after it. *)
Lemma scanArgs_join (texts : list string) :
  forall p names sc pv,
    closedProperty p = true ->
    forallb closedProperty texts = true ->
    pushArgument normalize
      (ArgScan.args (scanArgs normalize (ArgScan.mk names "" 0 false sc pv)
                       (Js.join "," (p :: texts))))
      (ArgScan.current (scanArgs normalize (ArgScan.mk names "" 0 false sc pv)
                          (Js.join "," (p :: texts))))
    = fold_left (pushArgument normalize) (p :: texts) names.
Proof.
  induction texts as [|q r IH]; intros p names sc pv Hp Hr.
  - simpl Js.join.
    destruct (scanArgs_closed p (ArgScan.mk names "" 0 false sc pv) Hp)
      as (sc' & pv' & E).
    rewrite E. reflexivity.
  - simpl in Hr. apply andb_true_iff in Hr as [Hq Hr].
    change (Js.join "," (p :: q :: r))
      with (p ++ String "," (Js.join "," (q :: r)))%string.
    rewrite scanArgs_app.
    destruct (scanArgs_closed p (ArgScan.mk names "" 0 false sc pv) Hp)
      as (sc' & pv' & E).
    rewrite E.
    change (ArgScan.mk (ArgScan.args (ArgScan.mk names "" 0 false sc pv))
              (ArgScan.current (ArgScan.mk names "" 0 false sc pv) ++ p)%string
              0 false sc' pv')
      with (ArgScan.mk names p 0 false sc' pv').
    change (scanArgs normalize (ArgScan.mk names p 0 false sc' pv')
              (String "," (Js.join "," (q :: r))))
      with (scanArgs normalize
              (ArgScan.mk (pushArgument normalize names p) "" 0 false sc'
                 (Some ","%char))
              (Js.join "," (q :: r))).
    rewrite (IH q (pushArgument normalize names p) sc' (Some ","%char) Hq Hr).
    reflexivity.
Qed.

Lemma trim_leading_comma (s : string) :
  Js.trim (String "," s) = String "," (Js.trimEnd s).
Proof. unfold Js.trim. rewrite trimStart_cons. now apply trimEnd_cons. Qed.

(** The argument list behind a comma: the texts between the top-level
    commas, trimmed, without the blank ones, each normalised. *)
Lemma parseArgumentList_join (texts : list string) :
  forallb closedProperty texts = true ->
  parseArgumentList normalize (String "," (Js.join "," texts))
  = map normalize (argumentsOf texts).
Proof.
  intros H. unfold parseArgumentList. rewrite trim_leading_comma.
  cbn [String.eqb]. cbn [dropLeadingComma]. rewrite Ascii.eqb_refl.
  rewrite trimEnd_join, trimStart_join.
  set (texts' := mapFirst Js.trimStart (mapLast Js.trimEnd texts)).
  assert (C : forallb closedProperty texts' = true)
    by now apply closedProperty_mapFirst, closedProperty_mapLast.
  assert (T : argumentsOf texts' = argumentsOf texts).
  { unfold argumentsOf, texts'. now rewrite map_trim_mapFirst, map_trim_mapLast. }
  rewrite <- T. clearbody texts'.
  destruct texts' as [|p r]; [reflexivity|].
  cbn [forallb] in C. apply andb_true_iff in C as [Hp Hr].
  rewrite (scanArgs_join r p [] "000"%char None Hp Hr).
  rewrite fold_pushArgument. cbn [app].
  destruct (String.eqb (Js.join "," (p :: r)) "") eqn:E; [|reflexivity].
  apply String.eqb_eq in E.
  destruct r as [|q r'].
  - simpl in E. subst p. reflexivity.
  - exfalso. change (Js.join "," (p :: q :: r'))
      with (p ++ String "," (Js.join "," (q :: r')))%string in E.
    destruct p; discriminate.
Qed.

(** Every argument of the list is the normalisation of a text that is not
    blank and has no white space at its ends, whatever the argument
    string. *)
Lemma pushArgument_trimmed (names : list string) (cur : string) :
  Forall (fun a => exists t, a = normalize t /\ t <> "" /\ Js.trim t = t) names ->
  Forall (fun a => exists t, a = normalize t /\ t <> "" /\ Js.trim t = t)
    (pushArgument normalize names cur).
Proof.
  intros H. unfold pushArgument. destruct (Js.trim cur) as [|c r] eqn:T; [assumption|].
  apply Forall_app. split; [assumption|]. constructor; [|constructor].
  exists (String c r). split; [reflexivity|]. split; [discriminate|].
  rewrite <- T. apply trim_idem.
Qed.

Lemma scanArgs_trimmed (s : string) :
  forall st,
    Forall (fun a => exists t, a = normalize t /\ t <> "" /\ Js.trim t = t)
      (ArgScan.args st) ->
    Forall (fun a => exists t, a = normalize t /\ t <> "" /\ Js.trim t = t)
      (ArgScan.args (scanArgs normalize st s)).
Proof.
  induction s as [|c r IH]; intros st H; [exact H|].
  simpl. apply IH. unfold scanArgChar.
  repeat match goal with
         | |- context [if ?b then _ else _] => destruct b
         end; cbn [ArgScan.args]; try assumption.
  now apply pushArgument_trimmed.
Qed.

Lemma parseArgumentList_trimmed (argString : string) :
  Forall (fun a => exists t, a = normalize t /\ t <> "" /\ Js.trim t = t)
    (parseArgumentList normalize argString).
Proof.
  unfold parseArgumentList.
  destruct (String.eqb (Js.trim argString) ""); [constructor|].
  destruct (String.eqb _ ""); [constructor|].
  apply pushArgument_trimmed, scanArgs_trimmed. constructor.
Qed.

End ArgumentListFacts.

Lemma forallb_perm {A : Type} (p : A -> bool) (l l' : list A) :
  Permutation l l' -> forallb p l = true -> forallb p l' = true.
Proof.
  intros P H. rewrite forallb_forall in *. intros x Hx. apply H.
  now apply (Permutation_in _ (Permutation_sym P)).
Qed.

Lemma argumentsOf_perm (texts texts' : list string) :
  Permutation texts texts' -> Permutation (argumentsOf texts) (argumentsOf texts').
Proof. intros P. unfold argumentsOf. now apply filter_Permutation, Permutation_map. Qed.

(** X13: [parseAppEventArgs] splits the text behind the event name at the
    commas that are outside strings and brackets, trims the pieces, drops
    the blank ones, normalises each and sorts the result; two argument
    lists with the same pieces in another order give the same list. *)
Theorem parseAppEventArgs_sorted_arguments (texts texts' : list string) :
  forallb closedProperty texts = true ->
  Permutation texts texts' ->
  parseAppEventArgs (String "," (Js.join "," texts))
  = Js.sortS (map normalizeAppEventArg (argumentsOf texts))
  /\ parseAppEventArgs (String "," (Js.join "," texts'))
     = parseAppEventArgs (String "," (Js.join "," texts)).
Proof.
  intros C P. unfold parseAppEventArgs.
  rewrite (parseArgumentList_join normalizeAppEventArg texts C).
  rewrite (parseArgumentList_join normalizeAppEventArg texts'
             (forallb_perm _ _ _ P C)).
  split; [reflexivity|]. apply sortS_perm_eq, Permutation_map, Permutation_sym.
  now apply argumentsOf_perm.
Qed.

Lemma parseAppEventArgs_sorted_arguments_witness :
  parseAppEventArgs (String "," (Js.join "," [" user"; " { b: 1, a: fn(1, 2) }"]))
  = Js.sortS (map normalizeAppEventArg
                (argumentsOf [" user"; " { b: 1, a: fn(1, 2) }"]))
  /\ parseAppEventArgs (String "," (Js.join "," [" { b: 1, a: fn(1, 2) }"; " user"]))
     = parseAppEventArgs (String "," (Js.join "," [" user"; " { b: 1, a: fn(1, 2) }"])).
Proof.
  apply (parseAppEventArgs_sorted_arguments
           [" user"; " { b: 1, a: fn(1, 2) }"] [" { b: 1, a: fn(1, 2) }"; " user"]);
    [reflexivity|apply perm_swap].
Defined.

Lemma replaceAll_no_start (matchAt : string -> option (string * string))
  (p : ascii -> bool) (s : string) :
  matchAt "" = None ->
  (forall c r, p c = false -> matchAt (String c r) = None) ->
  Js.exists_char p s = false ->
  forall fuel, replaceAll fuel matchAt s = s.
Proof.
  intros H0 H. induction s as [|c s IH]; intros E [|fuel]; try reflexivity.
  - cbn [replaceAll]. now rewrite H0.
  - cbn [Js.exists_char] in E. apply orb_false_iff in E as [Ec Es].
    cbn [replaceAll]. rewrite (H c s Ec). now rewrite IH.
Qed.

Lemma normalizeArgument_plain (t : string) :
  plainArgument t = true -> normalizeArgument t = t.
Proof.
  unfold plainArgument. intros H. apply negb_true_iff in H.
  assert (B : Js.exists_char (fun c => Ascii.eqb c "{") t = false
              /\ Js.exists_char (fun c => Ascii.eqb c "@") t = false).
  { induction t as [|c r IH]; [split; reflexivity|].
    cbn [Js.exists_char] in *. apply orb_false_iff in H as [Hc Hr].
    apply orb_false_iff in Hc as [H1 H2]. destruct (IH Hr) as [I1 I2].
    now rewrite H1, H2, I1, I2. }
  destruct B as [B1 B2]. unfold normalizeArgument.
  rewrite (replaceAll_no_start matchHash (fun c => Ascii.eqb c "{") t); try assumption;
    [|reflexivity|].
  - rewrite (replaceAll_no_start matchMustache (fun c => Ascii.eqb c "{") t);
      try assumption; [|reflexivity|].
    + now apply replaceAll_matchAttribute.
    + intros c r Hc. unfold matchMustache. cbn [dropPrefix].
      rewrite Ascii.eqb_sym. now rewrite Hc.
  - intros c r Hc. unfold matchHash. cbn [dropPrefix].
    rewrite Ascii.eqb_sym. now rewrite Hc.
Qed.

(** X14: [parseArguments] splits the text behind the transformer's name at
    the commas that are outside strings and brackets, trims the pieces,
    drops the blank ones and normalises each, keeping the source order;
    arguments without a brace and without [@] are kept as they are
    written. *)
Theorem parseArguments_in_source_order (texts : list string) :
  forallb closedProperty texts = true ->
  parseArguments (String "," (Js.join "," texts))
  = map normalizeArgument (argumentsOf texts)
  /\ (forallb plainArgument (argumentsOf texts) = true ->
      parseArguments (String "," (Js.join "," texts)) = argumentsOf texts).
Proof.
  intros C. unfold parseArguments.
  rewrite (parseArgumentList_join normalizeArgument texts C).
  split; [reflexivity|]. intros H. rewrite forallb_forall in H.
  induction (argumentsOf texts) as [|t r IH]; [reflexivity|].
  cbn [map]. rewrite normalizeArgument_plain by (apply H; now left).
  f_equal. apply IH. intros x Hx. apply H. now right.
Qed.

Lemma parseArguments_in_source_order_witness :
  parseArguments (String "," (Js.join "," [" this.topic"; " fn(a, b) "; " user"]))
  = map normalizeArgument (argumentsOf [" this.topic"; " fn(a, b) "; " user"])
  /\ (forallb plainArgument (argumentsOf [" this.topic"; " fn(a, b) "; " user"]) = true ->
      parseArguments (String "," (Js.join "," [" this.topic"; " fn(a, b) "; " user"]))
      = argumentsOf [" this.topic"; " fn(a, b) "; " user"]).
Proof.
  apply (parseArguments_in_source_order [" this.topic"; " fn(a, b) "; " user"]).
  reflexivity.
Defined.

(** X15: whatever the argument string, balanced or not, neither function
    returns a blank argument: every argument is the normalisation of a text
    that is not empty and has no white space at its ends; an argument
    string that is blank, or only a comma, gives no argument. *)
Theorem argument_lists_have_no_blank (argString : string) :
  Forall (fun a => exists t, a = normalizeArgument t /\ t <> "" /\ Js.trim t = t)
    (parseArguments argString)
  /\ Forall (fun a => exists t, a = normalizeAppEventArg t /\ t <> "" /\ Js.trim t = t)
       (parseAppEventArgs argString)
  /\ (Js.trim argString = "" \/ Js.trim argString = "," ->
      parseArguments argString = [] /\ parseAppEventArgs argString = []).
Proof.
  split; [apply parseArgumentList_trimmed|]. split.
  - unfold parseAppEventArgs. apply Forall_forall. intros a Ha.
    unfold Js.sortS in Ha. apply (Permutation_in _ (sort_perm _ _)) in Ha.
    pose proof (parseArgumentList_trimmed normalizeAppEventArg argString) as F.
    rewrite Forall_forall in F. now apply F.
  - unfold parseArguments, parseAppEventArgs, parseArgumentList.
    intros [-> | ->]; split; reflexivity.
Qed.

(** ** Outlet arguments *)

(** *** The loop of [exec] *)

Lemma string_length_app (a b : string) :
  String.length (a ++ b) = (String.length a + String.length b)%nat.
Proof. induction a as [|c a IH]; simpl; [reflexivity|now rewrite IH]. Qed.

Lemma execAll_groups_index {R : Type} (matchAt : string -> option (R * string))
  (s : string) :
  forall index index' skip,
    map snd (execAll matchAt index skip s) = map snd (execAll matchAt index' skip s).
Proof.
  induction s as [|c r IH]; intros index index' skip; cbn [execAll]; [reflexivity|].
  destruct skip as [|k]; [|apply IH].
  destruct (matchAt (String c r)) as [[groups rest]|]; [|apply IH].
  cbn [map snd]. f_equal. apply IH.
Qed.

Lemma execAll_groups_skip {R : Type} (matchAt : string -> option (R * string))
  (a b : string) :
  forall index,
    map snd (execAll matchAt index (String.length a) (a ++ b))
    = map snd (execAll matchAt 0 0 b).
Proof.
  induction a as [|c a IH]; intros index.
  - apply execAll_groups_index.
  - change (String c a ++ b)%string with (String c (a ++ b)%string).
    cbn [execAll String.length]. apply IH.
Qed.

Lemma execAll_groups_none {R : Type} (matchAt : string -> option (R * string))
  (c : ascii) (r : string) :
  matchAt (String c r) = None ->
  map snd (execAll matchAt 0 0 (String c r)) = map snd (execAll matchAt 0 0 r).
Proof.
  intros H. cbn [execAll]. rewrite H. apply execAll_groups_index.
Qed.

Lemma execAll_groups_match {R : Type} (matchAt : string -> option (R * string))
  (c : ascii) (t rest : string) (groups : R) :
  matchAt (String c (t ++ rest)) = Some (groups, rest) ->
  map snd (execAll matchAt 0 0 (String c (t ++ rest)))
  = groups :: map snd (execAll matchAt 0 0 rest).
Proof.
  intros H. cbn [execAll]. rewrite H. cbn [map snd]. f_equal.
  cbn [String.length]. rewrite string_length_app.
  replace (S (String.length t + String.length rest) - String.length rest - 1)%nat
    with (String.length t) by lia.
  apply execAll_groups_skip.
Qed.

Lemma execAll_groups_matched {R : Type} (matchAt : string -> option (R * string))
  (s matched rest : string) (groups : R) :
  matchAt s = Some (groups, rest) ->
  s = (matched ++ rest)%string -> matched <> "" ->
  map snd (execAll matchAt 0 0 s) = groups :: map snd (execAll matchAt 0 0 rest).
Proof.
  intros H -> Hm. destruct matched as [|c t]; [congruence|].
  now apply execAll_groups_match.
Qed.

(** *** The names of the pairs *)

Lemma wordRun_word (w : string) (c : ascii) (r : string) :
  Js.forall_chars Js.is_word w = true -> Js.is_word c = false ->
  wordRun (w ++ String c r) = (w, String c r).
Proof.
  intros Hw Hc. induction w as [|d w IH]; cbn [wordRun append].
  - now rewrite Hc.
  - cbn [Js.forall_chars] in Hw. apply andb_true_iff in Hw as [Hd Hw].
    rewrite Hd. now rewrite (IH Hw).
Qed.

Lemma matchArgNameAt_pair (k rest : string) :
  hashKey k = true ->
  matchArgNameAt (k ++ String "=" rest) = Some (k, rest).
Proof.
  unfold hashKey. intros H. apply andb_true_iff in H as [Hn Hw].
  unfold matchArgNameAt. rewrite (wordRun_word k "=" rest Hw eq_refl).
  destruct k; [discriminate|]. reflexivity.
Qed.

Lemma wordRun_value (v t : string) :
  pairValue v = true -> afterValue t ->
  match Js.trimStart (snd (wordRun (v ++ t))) with
  | String c _ => Ascii.eqb c "=" = false
  | EmptyString => True
  end.
Proof.
  unfold pairValue. intros Hv Ht. induction v as [|c v IH].
  - cbn [append]. destruct Ht as [->|(d & r & -> & Hd)]; [exact I|].
    cbn [wordRun]. change (Js.is_word " ") with false. cbn [snd].
    destruct (is_word_plain d Hd) as (S & _ & E & _).
    rewrite trimStart_cons. change (Js.is_space " ") with true.
    rewrite trimStart_cons, S. exact E.
  - cbn [Js.forall_chars] in Hv. apply andb_true_iff in Hv as [Hc Hv].
    apply andb_true_iff in Hc as [Hs He]. apply negb_true_iff in Hs, He.
    change (String c v ++ t)%string with (String c (v ++ t)%string).
    cbn [wordRun]. destruct (Js.is_word c).
    + specialize (IH Hv). destruct (wordRun (v ++ t)) as [w r']. exact IH.
    + cbn [snd]. rewrite trimStart_cons, Hs. exact He.
Qed.

Lemma matchArgNameAt_value (v t : string) :
  pairValue v = true -> afterValue t -> matchArgNameAt (v ++ t) = None.
Proof.
  intros Hv Ht. pose proof (wordRun_value v t Hv Ht) as W.
  unfold matchArgNameAt. destruct (wordRun (v ++ t)) as [w r']. cbn [snd] in W.
  destruct w; [reflexivity|].
  destruct (Js.trimStart r') as [|c after]; [reflexivity|]. now rewrite W.
Qed.

Lemma pairValue_tail (c : ascii) (v : string) :
  pairValue (String c v) = true -> pairValue v = true.
Proof. unfold pairValue. cbn [Js.forall_chars]. intros H. now apply andb_true_iff in H. Qed.

Lemma argNames_value (v t : string) :
  pairValue v = true -> afterValue t ->
  map snd (execAll matchArgNameAt 0 0 (v ++ t))
  = map snd (execAll matchArgNameAt 0 0 t).
Proof.
  intros Hv Ht. induction v as [|c v IH]; [reflexivity|].
  change (String c v ++ t)%string with (String c (v ++ t)%string).
  rewrite execAll_groups_none.
  - apply IH. now apply (pairValue_tail c).
  - change (String c (v ++ t)%string) with (String c v ++ t)%string.
    now apply matchArgNameAt_value.
Qed.

Lemma pairsText_cons (kv : string * string) (pairs : list (string * string)) :
  pairsText (kv :: pairs)
  = (fst kv ++ String "=" (snd kv ++ match pairs with
                                      | [] => ""
                                      | _ => String " " (pairsText pairs)
                                      end))%string.
Proof.
  unfold pairsText. destruct pairs as [|kv' r]; cbn [map Js.join]; unfold hashPair.
  - now rewrite append_empty_r.
  - rewrite string_app_assoc. reflexivity.
Qed.

Lemma pairsText_starts (kv : string * string) (pairs : list (string * string)) :
  plainPair kv = true ->
  exists d r, pairsText (kv :: pairs) = String d r /\ Js.is_word d = true.
Proof.
  unfold plainPair, hashKey. intros H. apply andb_true_iff in H as [H _].
  apply andb_true_iff in H as [Hn Hw]. rewrite pairsText_cons.
  destruct (fst kv) as [|d k]; [discriminate|].
  cbn [Js.forall_chars] in Hw. apply andb_true_iff in Hw as [Hd _].
  eexists; eexists. split; [reflexivity|exact Hd].
Qed.

(** The loop of [argRegex] over the pairs of a hash gives their keys in
    source order. *)
Lemma argNames_pairs (pairs : list (string * string)) :
  forallb plainPair pairs = true ->
  argNames (pairsText pairs) = map fst pairs.
Proof.
  unfold argNames. induction pairs as [|kv pairs IH]; intros H; [reflexivity|].
  cbn [forallb] in H. apply andb_true_iff in H as [Hkv Hr].
  pose proof Hkv as Hkv'. unfold plainPair in Hkv'.
  apply andb_true_iff in Hkv' as [Hk Hv].
  rewrite pairsText_cons.
  set (t := match pairs with [] => "" | _ => String " " (pairsText pairs) end).
  assert (At : afterValue t).
  { subst t. destruct pairs as [|kv' r]; [now left|]. right.
    cbn [forallb] in Hr. apply andb_true_iff in Hr as [Hkv2 _].
    destruct (pairsText_starts kv' r Hkv2) as (d & r' & -> & Hd). eauto. }
  pose proof (matchArgNameAt_pair (fst kv) (snd kv ++ t) Hk) as M.
  rewrite (execAll_groups_matched _ (fst kv ++ String "=" (snd kv ++ t))
             (fst kv ++ "=") (snd kv ++ t) (fst kv)).
  - cbn [map fst]. f_equal. rewrite (argNames_value (snd kv) t Hv At).
    subst t. destruct pairs as [|kv' r]; [reflexivity|].
    rewrite execAll_groups_none by reflexivity. now apply IH.
  - exact M.
  - now rewrite string_app_assoc.
  - destruct (fst kv); discriminate.
Qed.

(** *** The hash of an outlet *)

Lemma pairsText_chars (p : ascii -> bool) (pairs : list (string * string)) :
  p " "%char = true -> p "="%char = true -> (forall c, Js.is_word c = true -> p c = true) ->
  forallb plainPair pairs = true ->
  forallb (fun kv => Js.forall_chars p (snd kv)) pairs = true ->
  Js.forall_chars p (pairsText pairs) = true.
Proof.
  intros Hs He Hw. induction pairs as [|kv pairs IH]; intros Hp Hv; [reflexivity|].
  cbn [forallb] in Hp, Hv.
  apply andb_true_iff in Hp as [Hkv Hp]. apply andb_true_iff in Hv as [Hv1 Hv].
  rewrite pairsText_cons, forall_chars_app. cbn [Js.forall_chars].
  rewrite forall_chars_app, He, Hv1.
  unfold plainPair, hashKey in Hkv. apply andb_true_iff in Hkv as [Hk _].
  apply andb_true_iff in Hk as [_ Hk].
  rewrite (forall_chars_impl Js.is_word p (fst kv) Hw Hk).
  destruct pairs as [|kv' r]; [reflexivity|].
  cbn [Js.forall_chars]. rewrite Hs. now rewrite (IH Hp Hv).
Qed.

Lemma firstMatch_here {R : Type} (matchAt : string -> option R) (s : string) (m : R) :
  matchAt s = Some m -> firstMatch matchAt s = Some m.
Proof. intros H. destruct s; cbn [firstMatch]; now rewrite H. Qed.

Lemma firstMatch_next {R : Type} (matchAt : string -> option R) (c : ascii)
  (s : string) :
  matchAt (String c s) = None ->
  firstMatch matchAt (String c s) = firstMatch matchAt s.
Proof. intros H. cbn [firstMatch]. now rewrite H. Qed.

(** The pattern of the hash finds the pairs after [hash] and a space. *)
Lemma hash_content_found (ci : bool) (inside : ascii -> bool)
  (pairs : list (string * string)) :
  inside " "%char = true -> inside "="%char = true ->
  (forall c, Js.is_word c = true -> inside c = true) ->
  forallb plainPair pairs = true ->
  forallb (fun kv => Js.forall_chars inside (snd kv)) pairs = true ->
  match firstMatch (matchHashContentAt ci inside) ("hash " ++ pairsText pairs) with
  | Some hashContent => argNames hashContent
  | None => []
  end = map fst pairs.
Proof.
  intros Hs He Hw Hp Hv.
  destruct pairs as [|kv pairs]; [now destruct ci|].
  pose proof (pairsText_chars inside (kv :: pairs) Hs He Hw Hp Hv) as Hc.
  pose proof (argNames_pairs (kv :: pairs) Hp) as Hn.
  cbn [forallb] in Hp. apply andb_true_iff in Hp as [Hkv _].
  destruct (pairsText_starts kv pairs Hkv) as (d & r & E & Hd).
  rewrite E in *.
  rewrite (firstMatch_here _ _ (String d r)); [exact Hn|].
  assert (M : matchHashContentAt ci inside ("hash " ++ String d r)
              = spacesThenGroup inside (" " ++ String d r))
    by (destruct ci; reflexivity).
  rewrite M. unfold spacesThenGroup.
  destruct (is_word_plain d Hd) as (Sd & _).
  rewrite (span_all Js.is_space " " (String d r) eq_refl Sd).
  pose proof (span_all inside (String d r) "" Hc I) as Sp.
  rewrite append_empty_r in Sp. now rewrite Sp.
Qed.

(** *** The attribute of an outlet component *)

Lemma matchOutletArgsAt_other (c : ascii) (r : string) :
  Ascii.eqb "@" c = false -> matchOutletArgsAt (String c r) = None.
Proof.
  intros H. cbn [matchOutletArgsAt]. rewrite Ascii.eqb_sym. now rewrite H.
Qed.

Lemma firstMatch_outletArgs_skip (a b : string) :
  Js.exists_char (Ascii.eqb "@") a = false ->
  firstMatch matchOutletArgsAt (a ++ b) = firstMatch matchOutletArgsAt b.
Proof.
  induction a as [|c a IH]; intros H; [reflexivity|].
  cbn [Js.exists_char] in H. apply orb_false_iff in H as [Hc Ha].
  change (String c a ++ b)%string with (String c (a ++ b)%string).
  rewrite firstMatch_next by now apply matchOutletArgsAt_other.
  now apply IH.
Qed.

Lemma matchOutletArgsAt_value (x : string) (c : ascii) (content rest after : string) :
  span notBrace x = (String c content, rest) ->
  dropPrefix "}}" rest = Some after ->
  matchOutletArgsAt ("@outletArgs={{" ++ x) = Some (String c content).
Proof.
  intros S D.
  change (matchOutletArgsAt ("@outletArgs={{" ++ x))
    with (match
            match span notBrace x with
            | (EmptyString, _) => None
            | (group, after') =>
                match dropPrefix "}}" after' with
                | Some _ => Some group
                | None => None
                end
            end
          with
          | Some group => Some group
          | None => None
          end).
  now rewrite S, D.
Qed.

Lemma outletComponent_attribute (name : string) (pairs : list (string * string)) :
  Js.exists_char (Ascii.eqb "@") name = false ->
  Js.forall_chars notBrace (pairsText pairs) = true ->
  firstMatch matchOutletArgsAt (outletComponent name pairs)
  = Some ("hash " ++ pairsText pairs)%string.
Proof.
  intros Hn Hc. unfold outletComponent.
  set (J := pairsText pairs) in *.
  change ("<PluginOutlet @name=" ++ String dquote (name ++ String dquote
            (" @outletArgs={{hash " ++ J ++ "}} />")))%string
    with ("<PluginOutlet " ++ String "@" ("name=" ++ String dquote
            (name ++ String dquote (" @outletArgs={{hash " ++ J ++ "}} />"))))%string.
  rewrite firstMatch_outletArgs_skip by reflexivity.
  rewrite firstMatch_next by reflexivity.
  change ("name=" ++ String dquote
            (name ++ String dquote (" @outletArgs={{hash " ++ J ++ "}} />")))%string
    with (("name=" ++ String dquote "")
            ++ (name ++ String dquote (" @outletArgs={{hash " ++ J ++ "}} />")))%string.
  rewrite firstMatch_outletArgs_skip by reflexivity.
  rewrite firstMatch_outletArgs_skip by exact Hn.
  rewrite firstMatch_next by reflexivity.
  change (" @outletArgs={{hash " ++ J ++ "}} />")%string
    with (String " " ("@outletArgs={{hash " ++ J ++ "}} />"))%string.
  rewrite firstMatch_next by reflexivity.
  apply firstMatch_here.
  change ("@outletArgs={{hash " ++ J ++ "}} />")%string
    with ("@outletArgs={{" ++ ("hash " ++ J ++ "}} />"))%string.
  apply (matchOutletArgsAt_value _ "h" ("ash " ++ J) "}} />" " />"); [|reflexivity].
  change ("hash " ++ J ++ "}} />")%string with (("hash " ++ J) ++ "}} />")%string.
  apply span_all; [exact Hc|reflexivity].
Qed.

(** *** The [args] of an outlet helper *)

Lemma dropPrefix_through (p x : string) (q : ascii) (r r1 : string) :
  Js.exists_char (Ascii.eqb q) p = false ->
  dropPrefix p (x ++ String q r) = Some r1 ->
  exists x0 x', x = (x0 ++ x')%string /\ r1 = (x' ++ String q r)%string.
Proof.
  revert x. induction p as [|a p IH]; intros x Hq H.
  - exists "", x. split; [reflexivity|].
    assert (E : dropPrefix "" (x ++ String q r) = Some (x ++ String q r)%string)
      by (now destruct (x ++ String q r)%string).
    rewrite E in H. now injection H as <-.
  - cbn [Js.exists_char] in Hq. apply orb_false_iff in Hq as [Ha Hq].
    destruct x as [|b x].
    + cbn [append dropPrefix] in H. rewrite Ascii.eqb_sym, Ha in H. discriminate.
    + change (String b x ++ String q r)%string
        with (String b (x ++ String q r)%string) in H.
      cbn [dropPrefix] in H. destruct (Ascii.eqb a b); [|discriminate].
      destruct (IH x Hq H) as (x0 & x' & -> & ->).
      exists (String b x0), x'. split; reflexivity.
Qed.

Lemma exists_char_trimStart (p : ascii -> bool) (s : string) :
  Js.exists_char p s = false -> Js.exists_char p (Js.trimStart s) = false.
Proof.
  induction s as [|c s IH]; intros H; [reflexivity|].
  rewrite trimStart_cons. destruct (Js.is_space c); [|exact H].
  cbn [Js.exists_char] in H. apply orb_false_iff in H as [_ H]. now apply IH.
Qed.

Lemma matchHelperArgsAt_name (x r : string) :
  Js.exists_char (Ascii.eqb "=") x = false ->
  matchHelperArgsAt (x ++ String dquote r) = None.
Proof.
  intros Hx. unfold matchHelperArgsAt.
  destruct (dropPrefix "args" (x ++ String dquote r)) as [r1|] eqn:D; [|reflexivity].
  destruct (dropPrefix_through "args" x dquote r r1 eq_refl D) as (x0 & x' & -> & ->).
  rewrite exists_char_app in Hx. apply orb_false_iff in Hx as [_ Hx].
  rewrite trimStart_app_text by reflexivity.
  pose proof (exists_char_trimStart _ _ Hx) as Ht.
  destruct (Js.trimStart x') as [|c y]; [reflexivity|].
  cbn [Js.exists_char] in Ht. apply orb_false_iff in Ht as [Hc _].
  cbn [append dropPrefix]. now rewrite Hc.
Qed.

Lemma firstMatch_helper_name (x r : string) :
  Js.exists_char (Ascii.eqb "=") x = false ->
  firstMatch matchHelperArgsAt (x ++ String dquote r)
  = firstMatch matchHelperArgsAt (String dquote r).
Proof.
  induction x as [|c x IH]; intros H; [reflexivity|].
  change (String c x ++ String dquote r)%string
    with (String c (x ++ String dquote r)%string).
  rewrite firstMatch_next.
  - apply IH. cbn [Js.exists_char] in H. now apply orb_false_iff in H.
  - change (String c (x ++ String dquote r)%string)
      with (String c x ++ String dquote r)%string.
    now apply matchHelperArgsAt_name.
Qed.


Lemma matchHelperArgsAt_value (x : string) (c : ascii) (content rest after : string) :
  span notParen x = (String c content, rest) ->
  dropPrefix ")" rest = Some after ->
  matchHelperArgsAt ("args=(" ++ x) = Some (String c content).
Proof.
  intros S D.
  change (matchHelperArgsAt ("args=(" ++ x))
    with (match span notParen x with
          | (EmptyString, _) => None
          | (group, after') =>
              match dropPrefix ")" after' with
              | Some _ => Some group
              | None => None
              end
          end).
  now rewrite S, D.
Qed.

Lemma outletHelper_args (name : string) (pairs : list (string * string)) :
  Js.exists_char (Ascii.eqb "=") name = false ->
  Js.forall_chars notParen (pairsText pairs) = true ->
  firstMatch matchHelperArgsAt (outletHelper name pairs)
  = Some ("hash " ++ pairsText pairs)%string.
Proof.
  intros Hn Hc. unfold outletHelper.
  set (J := pairsText pairs) in *.
  set (tail := (" args=(hash " ++ J ++ ")}}")%string).
  transitivity (firstMatch matchHelperArgsAt (name ++ String dquote tail)).
  { reflexivity. }
  rewrite firstMatch_helper_name by exact Hn.
  subst tail.
  rewrite firstMatch_next by reflexivity.
  change (" args=(hash " ++ J ++ ")}}")%string
    with (String " " ("args=(hash " ++ J ++ ")}}"))%string.
  rewrite firstMatch_next by reflexivity.
  apply firstMatch_here.
  change ("args=(hash " ++ J ++ ")}}")%string
    with ("args=(" ++ ("hash " ++ J ++ ")}}"))%string.
  apply (matchHelperArgsAt_value _ "h" ("ash " ++ J) ")}}" "}}"); [|reflexivity].
  change ("hash " ++ J ++ ")}}")%string with (("hash " ++ J) ++ ")}}")%string.
  apply span_all; [exact Hc|reflexivity].
Qed.

(** X16: for an outlet component written with a name without an at sign
    and an [@outletArgs] hash of pairs whose keys are words and whose
    values have no white space, equals sign or closing brace,
    [parsePluginOutletArgs] returns the keys of the pairs, sorted. *)
Theorem parsePluginOutletArgs_sorted_keys (name : string)
  (pairs : list (string * string)) :
  Js.exists_char (Ascii.eqb "@") name = false ->
  forallb plainPair pairs = true ->
  forallb (fun kv => Js.forall_chars notBrace (snd kv)) pairs = true ->
  parsePluginOutletArgs (outletComponent name pairs) = Js.sortS (map fst pairs).
Proof.
  intros Hn Hp Hv. unfold parsePluginOutletArgs.
  assert (W : forall c, Js.is_word c = true -> notBrace c = true)
    by (intros c Hc; now destruct (is_word_plain c Hc) as (_ & B & _)).
  rewrite outletComponent_attribute;
    [|exact Hn|now apply pairsText_chars].
  pose proof (hash_content_found true notBrace pairs eq_refl eq_refl W Hp Hv) as H.
  destruct (firstMatch (matchHashContentAt true notBrace) ("hash " ++ pairsText pairs))
    as [hashContent|]; now rewrite <- H.
Qed.

Lemma parsePluginOutletArgs_sorted_keys_witness :
  parsePluginOutletArgs
    (outletComponent "topic-footer" [("user", "this.user"); ("topic", "@topic")])
  = ["topic"; "user"].
Proof.
  exact (parsePluginOutletArgs_sorted_keys "topic-footer"
           [("user", "this.user"); ("topic", "@topic")]
           eq_refl eq_refl eq_refl).
Defined.

Lemma word_notParen (c : ascii) : Js.is_word c = true -> notParen c = true.
Proof.
  intros H. unfold notParen. destruct (Ascii.eqb_spec c ")") as [->|]; [|reflexivity].
  discriminate H.
Qed.

(** X17: for an outlet helper written with a name without an equals sign
    and an [args] hash of pairs whose keys are words and whose values have
    no white space, equals sign or closing parenthesis,
    [parsePluginOutletHelperArgs] returns the keys of the pairs, sorted. *)
Theorem parsePluginOutletHelperArgs_sorted_keys (name : string)
  (pairs : list (string * string)) :
  Js.exists_char (Ascii.eqb "=") name = false ->
  forallb plainPair pairs = true ->
  forallb (fun kv => Js.forall_chars notParen (snd kv)) pairs = true ->
  parsePluginOutletHelperArgs (outletHelper name pairs) = Js.sortS (map fst pairs).
Proof.
  intros Hn Hp Hv. unfold parsePluginOutletHelperArgs.
  rewrite outletHelper_args;
    [|exact Hn
     |exact (pairsText_chars notParen pairs eq_refl eq_refl word_notParen Hp Hv)].
  pose proof (hash_content_found false notParen pairs eq_refl eq_refl
                word_notParen Hp Hv) as H.
  destruct (firstMatch (matchHashContentAt false notParen) ("hash " ++ pairsText pairs))
    as [hashContent|]; now rewrite <- H.
Qed.

Lemma parsePluginOutletHelperArgs_sorted_keys_witness :
  parsePluginOutletHelperArgs
    (outletHelper "user-args" [("model", "this.getModel"); ("count", "3")])
  = ["count"; "model"].
Proof.
  exact (parsePluginOutletHelperArgs_sorted_keys "user-args"
           [("model", "this.getModel"); ("count", "3")]
           eq_refl eq_refl eq_refl).
Defined.

(** ** Hook Extractor *)

(** *** Searching *)

Lemma firstMatch_sound {R : Type} (matchAt : string -> option R) (s : string) (m : R) :
  firstMatch matchAt s = Some m -> exists s', matchAt s' = Some m.
Proof.
  induction s as [|c r IH]; cbn [firstMatch].
  - destruct (matchAt "") eqn:E; [|discriminate]. intros [= <-]. now exists "".
  - destruct (matchAt (String c r)) eqn:E.
    + intros [= <-]. now exists (String c r).
    + exact IH.
Qed.

Lemma execAll_Forall {R : Type} (matchAt : string -> option (R * string))
  (P : R -> Prop) :
  (forall s groups rest, matchAt s = Some (groups, rest) -> P groups) ->
  forall s index skip, Forall (fun m => P (snd m)) (execAll matchAt index skip s).
Proof.
  intros H. induction s as [|c r IH]; intros index skip; cbn [execAll]; [constructor|].
  destruct skip as [|k]; [|apply IH].
  destruct (matchAt (String c r)) as [[groups rest]|] eqn:E; [|apply IH].
  constructor; [exact (H _ _ _ E)|apply IH].
Qed.

Lemma span_fst (p : ascii -> bool) (s : string) :
  Js.forall_chars p (fst (span p s)) = true.
Proof.
  induction s as [|c r IH]; [reflexivity|]. cbn [span].
  destruct (p c) eqn:E; [|reflexivity].
  destruct (span p r) as [a b]. cbn [fst Js.forall_chars] in *. now rewrite E, IH.
Qed.

(** *** The quoted name *)

Lemma quotedName_sound (s name after : string) :
  quotedName s = Some (name, after) ->
  name <> "" /\ Js.forall_chars notQuote name = true.
Proof.
  unfold quotedName. destruct s as [|q r]; [discriminate|].
  destruct (isQuote q); [|discriminate].
  pose proof (span_fst notQuote r) as F.
  destruct (span notQuote r) as [[|c n] [|d a]]; try discriminate.
  intros [= <- <-]. split; [discriminate|exact F].
Qed.

Lemma matchCallAt_name (fn s name args after : string) :
  matchCallAt fn s = Some (name, args, after) ->
  name <> "" /\ Js.forall_chars notQuote name = true.
Proof.
  unfold matchCallAt.
  destruct (dropPrefix fn s) as [r1|]; [|discriminate].
  destruct (dropPrefix "(" (Js.trimStart r1)) as [r2|]; [|discriminate].
  destruct (quotedName (Js.trimStart r2)) as [[n r3]|] eqn:Q; [|discriminate].
  destruct (span notParen r3) as [a r4].
  destruct (dropPrefix ")" r4); [|discriminate].
  intros [= <- <- <-]. exact (quotedName_sound _ _ _ Q).
Qed.

Lemma matchOutletAt_name (s name after : string) :
  matchOutletAt s = Some (name, after) ->
  name <> "" /\ Js.forall_chars notQuote name = true.
Proof.
  unfold matchOutletAt.
  destruct (dropPrefix "<PluginOutlet" s) as [r1|]; [|discriminate].
  destruct (spaces1 r1) as [r2|]; [|discriminate].
  destruct (dropPrefix "@name" r2) as [r3|]; [|discriminate].
  destruct (dropPrefix "=" (Js.trimStart r3)) as [r4|]; [|discriminate].
  destruct (quotedName (Js.trimStart r4)) as [[n r5]|] eqn:Q; [|discriminate].
  destruct (span _ r5) as [a r6].
  destruct (dropPrefix ">" r6); [|discriminate].
  intros [= <- <-]. exact (quotedName_sound _ _ _ Q).
Qed.

Lemma matchHelperAt_name (s name after : string) :
  matchHelperAt s = Some (name, after) ->
  name <> "" /\ Js.forall_chars notQuote name = true.
Proof.
  unfold matchHelperAt.
  destruct (dropPrefix "{{plugin-outlet" s) as [r1|]; [|discriminate].
  destruct (spaces1 r1) as [r2|]; [|discriminate].
  destruct (dropPrefix "name" r2) as [r3|]; [|discriminate].
  destruct (dropPrefix "=" (Js.trimStart r3)) as [r4|]; [|discriminate].
  destruct (quotedName (Js.trimStart r4)) as [[n r5]|] eqn:Q; [|discriminate].
  destruct (span notBrace r5) as [a r6].
  destruct (dropPrefix "}}" r6); [|discriminate].
  intros [= <- <-]. exact (quotedName_sound _ _ _ Q).
Qed.

Lemma quotedName_group (s name : string) :
  option_map fst (quotedName s) = Some name ->
  name <> "" /\ Js.forall_chars notQuote name = true.
Proof.
  destruct (quotedName s) as [[n after]|] eqn:Q; [|discriminate].
  intros [= <-]. exact (quotedName_sound _ _ _ Q).
Qed.

Lemma searchPatterns_group (pattern : string -> option string) (type : HookType)
  (s name : string) :
  In (pattern, type) searchPatterns -> pattern s = Some name ->
  name <> "" /\ Js.forall_chars notQuote name = true.
Proof.
  unfold searchPatterns.
  intros [E|[E|[E|[E|[E|[]]]]]]; injection E as <- _;
    unfold matchOutletLineAt, matchHelperLineAt, matchCallLineAt;
    repeat match goal with
           | |- match ?x with Some _ => _ | None => _ end = Some _ -> _ =>
               destruct x; [|discriminate]
           end;
    apply quotedName_group.
Qed.

(** *** The lines of a match *)

Lemma getMatchLines_facts (content : string) (index : nat) (matched : string) :
  getMatchLines content index matched <> []
  /\ strictlyAscending (getMatchLines content index matched) = true
  /\ Forall (fun line => 1 <= line) (getMatchLines content index matched).
Proof.
  split; [|split; [apply getMatchLines_ascending|]].
  - unfold getMatchLines, splitLength. simpl. discriminate.
  - unfold getMatchLines. apply Forall_forall. intros x Hx.
    apply in_map_iff in Hx as (i & <- & _). unfold splitLength. lia.
Qed.

Lemma parsePluginOutletArgs_ascending (s : string) :
  ascendingS (parsePluginOutletArgs s) = true.
Proof.
  unfold parsePluginOutletArgs.
  destruct (firstMatch matchOutletArgsAt s); [|reflexivity].
  destruct (firstMatch _ _); [apply sortS_ascending|reflexivity].
Qed.

Lemma parsePluginOutletHelperArgs_ascending (s : string) :
  ascendingS (parsePluginOutletHelperArgs s) = true.
Proof.
  unfold parsePluginOutletHelperArgs.
  destruct (firstMatch matchHelperArgsAt s); [|reflexivity].
  destruct (firstMatch _ _); [apply sortS_ascending|reflexivity].
Qed.

Lemma occurrence_of_match (name file content matched : string) (index : nat)
  (type : HookType) (args : list string) :
  name <> "" /\ Js.forall_chars notQuote name = true ->
  (type = behavior_transformer -> args = []) ->
  (type <> value_transformer -> ascendingS args = true) ->
  wellFormedOccurrence
    (FoundHook.mk name type file (getMatchLines content index matched) (Some args)).
Proof.
  intros [N Q] B A. destruct (getMatchLines_facts content index matched) as (L1 & L2 & L3).
  unfold wellFormedOccurrence. cbn. repeat split; assumption.
Qed.

Lemma execAll_In {R : Type} (matchAt : string -> option (R * string))
  (P : R -> Prop) (s : string) (index skip : nat) (m : nat * string * R) :
  (forall s groups rest, matchAt s = Some (groups, rest) -> P groups) ->
  In m (execAll matchAt index skip s) -> P (snd m).
Proof.
  intros H Hm. pose proof (execAll_Forall matchAt P H s index skip) as F.
  rewrite Forall_forall in F. now apply F.
Qed.

Lemma execAll_call_names (fn content : string) (m : nat * string * (string * string)) :
  In m (execAll (matchCallAt fn) 0 0 content) ->
  fst (snd m) <> "" /\ Js.forall_chars notQuote (fst (snd m)) = true.
Proof.
  apply (execAll_In (matchCallAt fn)
           (fun g => fst g <> "" /\ Js.forall_chars notQuote (fst g) = true)).
  intros s [name args] rest H. exact (matchCallAt_name fn s name args rest H).
Qed.

Lemma execAll_outlet_names (content : string) (m : nat * string * string) :
  In m (execAll matchOutletAt 0 0 content) ->
  snd m <> "" /\ Js.forall_chars notQuote (snd m) = true.
Proof.
  apply (execAll_In matchOutletAt
           (fun g => g <> "" /\ Js.forall_chars notQuote g = true)).
  intros s name rest H. exact (matchOutletAt_name s name rest H).
Qed.

Lemma execAll_helper_names (content : string) (m : nat * string * string) :
  In m (execAll matchHelperAt 0 0 content) ->
  snd m <> "" /\ Js.forall_chars notQuote (snd m) = true.
Proof.
  apply (execAll_In matchHelperAt
           (fun g => g <> "" /\ Js.forall_chars notQuote g = true)).
  intros s name rest H. exact (matchHelperAt_name s name rest H).
Qed.

Lemma findMultiLineHooks_facts (content file : string) :
  Forall
    (fun h =>
       wellFormedOccurrence h
       /\ FoundHook.file h = file
       /\ FoundHook.arguments h <> None)
    (findMultiLineHooks content file).
Proof.
  unfold findMultiLineHooks. repeat rewrite Forall_app. repeat split.
  - apply Forall_forall. intros h Hh.
    apply in_map_iff in Hh as ([[index matched] [name args]] & <- & Hm).
    split; [|split; [reflexivity|discriminate]].
    apply occurrence_of_match; [|discriminate|congruence].
    exact (execAll_call_names _ _ _ Hm).
  - apply Forall_forall. intros h Hh.
    apply in_map_iff in Hh as ([[index matched] [name args]] & <- & Hm).
    split; [|split; [reflexivity|discriminate]].
    apply occurrence_of_match; [|discriminate|intros _; apply sortS_ascending].
    exact (execAll_call_names _ _ _ Hm).
  - apply Forall_forall. intros h Hh.
    apply in_map_iff in Hh as ([[index matched] [name args]] & <- & Hm).
    split; [|split; [reflexivity|discriminate]].
    apply occurrence_of_match; [|reflexivity|reflexivity].
    exact (execAll_call_names _ _ _ Hm).
  - apply Forall_forall. intros h Hh.
    apply in_map_iff in Hh as ([[index matched] name] & <- & Hm).
    split; [|split; [reflexivity|discriminate]].
    apply occurrence_of_match;
      [|discriminate|intros _; apply parsePluginOutletArgs_ascending].
    exact (execAll_outlet_names _ _ Hm).
  - apply Forall_forall. intros h Hh.
    apply in_map_iff in Hh as ([[index matched] name] & <- & Hm).
    split; [|split; [reflexivity|discriminate]].
    apply occurrence_of_match;
      [|discriminate|intros _; apply parsePluginOutletHelperArgs_ascending].
    exact (execAll_helper_names _ _ Hm).
Qed.

(** X18: every occurrence that the multi-line patterns find has a name that
    is not empty and holds no quote, the file it was found in, a list of
    lines that is not empty, starts at line 1 or later and is strictly
    ascending, and a list of arguments: none for a behaviour transformer,
    sorted for an event and for an outlet. *)
Theorem findMultiLineHooks_well_formed (content file : string) :
  Forall
    (fun h =>
       wellFormedOccurrence h
       /\ FoundHook.file h = file
       /\ FoundHook.arguments h <> None)
    (findMultiLineHooks content file).
Proof. apply findMultiLineHooks_facts. Qed.

(** *** The single-line scan *)

Lemma scanLineWith_Forall (P : FoundHook.t -> Prop) (file : string) (index : nat)
  (line : string) (hooks : list FoundHook.t)
  (entry : (string -> option string) * HookType) :
  In entry searchPatterns ->
  (forall name type,
     name <> "" /\ Js.forall_chars notQuote name = true ->
     P (FoundHook.mk name type file [Z.of_nat index + 1] None)) ->
  Forall P hooks -> Forall P (scanLineWith file index line hooks entry).
Proof.
  intros Hin HP F. destruct entry as [pattern type]. unfold scanLineWith.
  destruct (firstMatch pattern line) as [group1|] eqn:M; [|assumption].
  apply firstMatch_sound in M as (s' & M).
  destruct (searchPatterns_group pattern type s' group1 Hin M) as [N Q].
  apply Forall_app. split; [assumption|]. constructor; [|constructor].
  destruct (String.eqb_spec group1 ""); [contradiction|]. now apply HP.
Qed.

Lemma scanLines_Forall (P : FoundHook.t -> Prop) (file content : string)
  (hooks : list FoundHook.t) :
  (forall name type index,
     name <> "" /\ Js.forall_chars notQuote name = true ->
     P (FoundHook.mk name type file [Z.of_nat index + 1] None)) ->
  Forall P hooks -> Forall P (scanLines file content hooks).
Proof.
  intros HP. unfold scanLines.
  generalize (combine (seq 0 (List.length (Js.split_char newline content)))
                (Js.split_char newline content)) as lines.
  intros lines. revert hooks.
  induction lines as [|[index line] r IH]; intros hooks F; [exact F|].
  cbn [fold_left]. apply IH. unfold scanLine. cbn [fst snd].
  assert (G : forall entries hooks0,
            incl entries searchPatterns -> Forall P hooks0 ->
            Forall P (fold_left (scanLineWith file index line) entries hooks0)).
  { induction entries as [|e es IHe]; intros hooks0 I F0; [exact F0|].
    cbn [fold_left]. apply IHe; [intros x Hx; apply I; now right|].
    apply scanLineWith_Forall; [apply I; now left| |assumption].
    intros name type. apply HP. }
  apply G; [apply incl_refl|assumption].
Qed.

Lemma single_line_well_formed (name file : string) (type : HookType) (index : nat) :
  name <> "" /\ Js.forall_chars notQuote name = true ->
  wellFormedOccurrence (FoundHook.mk name type file [Z.of_nat index + 1] None).
Proof.
  intros [N Q]. unfold wellFormedOccurrence. cbn.
  repeat split; try assumption; try discriminate.
  constructor; [lia|constructor].
Qed.

Section FindHooksFacts.
Variable extname : string -> string.

Lemma findHooksInFile_Forall (walked : list (string * string * string))
  (hooks : list FoundHook.t) (visited : string * string * string) :
  In visited walked ->
  Forall (foundIn extname walked) hooks ->
  Forall (foundIn extname walked) (findHooksInFile extname hooks visited).
Proof.
  destruct visited as [[filePath file] content]. intros Hin F.
  unfold findHooksInFile.
  destruct (shouldAnalyzeFile extname filePath) eqn:A; [|assumption].
  apply scanLines_Forall.
  - intros name type index H. split; [now apply single_line_well_formed|].
    exists filePath, content. auto.
  - apply Forall_app. split; [assumption|].
    eapply Forall_impl; [|apply findMultiLineHooks_facts].
    intros h (W & E & _). split; [assumption|].
    exists filePath, content. rewrite E. auto.
Qed.

Lemma findHooks_found (dir : string) (root : option (list Entry)) :
  Forall (foundIn extname (walkDirectory dir root)) (findHooks extname dir root).
Proof.
  unfold findHooks.
  assert (G : forall l acc,
            incl l (walkDirectory dir root) ->
            Forall (foundIn extname (walkDirectory dir root)) acc ->
            Forall (foundIn extname (walkDirectory dir root))
              (fold_left (findHooksInFile extname) l acc)).
  { induction l as [|v l IH]; intros acc I F; [exact F|].
    cbn [fold_left]. apply IH; [intros x Hx; apply I; now right|].
    apply findHooksInFile_Forall; [apply I; now left|assumption]. }
  apply G; [apply incl_refl|constructor].
Qed.

End FindHooksFacts.

(** X19: whatever the snapshot, every occurrence that [findHooks] returns is
    well formed (its name is never the fall-back name, its lines are strictly
    ascending) and belongs to a file that the walk visited and whose path
    passed [shouldAnalyzeFile]; the lists of lines are as the worker's fold
    expects them. *)
Theorem findHooks_well_formed (extname : string -> string) (dir : string)
  (root : option (list Entry)) :
  Forall (foundIn extname (walkDirectory dir root)) (findHooks extname dir root)
  /\ forallb (fun h => strictlyAscending (FoundHook.lines h))
       (findHooks extname dir root) = true.
Proof.
  pose proof (findHooks_found extname dir root) as F.
  split; [exact F|]. apply forallb_forall. intros h Hh.
  rewrite Forall_forall in F. destruct (F h Hh) as ((_ & _ & _ & S & _) & _).
  exact S.
Qed.

(** X20: whatever the snapshot, the records that a worker sends have
    pairwise different (name, type, file) keys; each is at the worker's
    version, has a name, has lines that are not empty and strictly
    ascending, and has no arguments when it is a behaviour transformer. *)
Theorem processVersion_records (extname : string -> string)
  (workDir version : string) (root : option (list Entry)) :
  NoDup (map recordKey (processVersion extname workDir version root))
  /\ Forall (wellFormedRecord version)
       (processVersion extname workDir version root).
Proof.
  unfold processVersion.
  set (foundHooks := findHooks extname (pathJoin workDir version) root).
  pose proof (findHooks_found extname (pathJoin workDir version) root) as F.
  fold foundHooks in F. rewrite Forall_forall in F.
  assert (HS : Forall (fun h => StronglySorted Z.lt (FoundHook.lines h)) foundHooks).
  { apply Forall_forall. intros h Hh.
    destruct (F h Hh) as ((_ & _ & _ & S & _) & _).
    now apply strictlyAscending_sorted. }
  destruct (hookMapOf_invariant version foundHooks HS) as (ND & _ & Hrec).
  split; [now rewrite values_keys|].
  apply Forall_forall. intros r Hr.
  destruct (In_values_get _ _ ND Hr) as (k & G).
  destruct (Hrec _ _ G) as (_ & Vr & Sr & Lr & before & h & after & E & Hk & _
                            & Hn & Ht & _ & Ha).
  assert (Hh : In h foundHooks) by (rewrite E; apply in_or_app; right; now left).
  destruct (F h Hh) as ((N & _ & L & _ & _ & A) & _).
  unfold wellFormedRecord. split; [assumption|]. split; [congruence|].
  split; [|split; [now apply strictlyAscending_sorted|]].
  - destruct (FoundHook.lines h) as [|x l] eqn:El; [congruence|].
    assert (In x (WorkerHook.lines r)).
    { apply Lr. exists h. rewrite El. repeat split; try assumption. now left. }
    destruct (WorkerHook.lines r); [contradiction|discriminate].
  - intros T. rewrite Ha. rewrite Ht in T.
    destruct (FoundHook.arguments h) as [args|]; [|reflexivity].
    destruct A as [B _]. exact (B T).
Qed.

(** *** The walk *)

Lemma Entry_induction (P : Entry -> Prop) :
  (forall item content, P (File item content)) ->
  (forall item items, Forall P items -> P (Directory item items)) ->
  forall e, P e.
Proof.
  intros HF HD. fix IH 1. intros [item content|item items].
  - apply HF.
  - apply HD. induction items as [|e r IHr]; constructor; [apply IH|exact IHr].
Qed.

Lemma prefix_app (p a b : string) :
  String.prefix p a = true -> String.prefix p (a ++ b)%string = true.
Proof.
  revert a. induction p as [|c p IH]; intros a H; [now destruct (a ++ b)%string|].
  destruct a as [|d a]; [discriminate|].
  change (String d a ++ b)%string with (String d (a ++ b)%string).
  change (String.prefix (String c p) (String d (a ++ b)%string))
    with (if ascii_dec c d then String.prefix p (a ++ b)%string else false).
  change (String.prefix (String c p) (String d a))
    with (if ascii_dec c d then String.prefix p a else false) in H.
  destruct (ascii_dec c d); [now apply IH|discriminate].
Qed.

Lemma includes_app_l (a b p : string) :
  Js.includes a p = true -> Js.includes (a ++ b)%string p = true.
Proof.
  induction a as [|c a IH]; intros H.
  - cbn [Js.includes] in H. rewrite orb_false_r in H.
    destruct p; [now destruct b|discriminate].
  - change (String c a ++ b)%string with (String c (a ++ b)%string).
    cbn [Js.includes] in *. apply orb_true_iff in H as [H|H].
    + change (String c (a ++ b)%string) with (String c a ++ b)%string.
      now rewrite (prefix_app _ _ b H).
    + rewrite (IH H). apply orb_true_r.
Qed.

(** *** Paths of a walk *)

Lemma split_char_no_separator (c : ascii) (s : string) :
  Forall (fun k => Js.forall_chars (fun d => negb (Ascii.eqb d c)) k = true)
    (Js.split_char c s).
Proof.
  induction s as [|d r IH]; cbn [Js.split_char]; [repeat constructor|].
  destruct (Ascii.eqb d c) eqn:E; [now constructor|].
  destruct (Js.split_char c r) as [|h t]; [repeat constructor; cbn; now rewrite E|].
  inversion IH as [|? ? Hh Ht]; subst. constructor; [|exact Ht].
  cbn [Js.forall_chars]. now rewrite E, Hh.
Qed.

Lemma join_snoc (sep : string) (l : list string) (x : string) :
  l <> [] -> Js.join sep (l ++ [x]) = (Js.join sep l ++ sep ++ x)%string.
Proof.
  induction l as [|a l IH]; intros H; [congruence|].
  destruct l as [|b l]; [reflexivity|].
  change (Js.join sep ((a :: b :: l) ++ [x]))
    with (a ++ sep ++ Js.join sep ((b :: l) ++ [x]))%string.
  rewrite IH by discriminate.
  change (Js.join sep (a :: b :: l)) with (a ++ sep ++ Js.join sep (b :: l))%string.
  now rewrite !string_app_assoc.
Qed.

Lemma last_char_app (a b : string) :
  b <> "" -> Js.last_char (a ++ b) = Js.last_char b.
Proof.
  intros H. induction a as [|c a IH]; [reflexivity|].
  change (String c a ++ b)%string with (String c (a ++ b)).
  cbn [Js.last_char]. rewrite IH.
  destruct (a ++ b)%string eqn:E; [|reflexivity].
  destruct a; [cbn in E; congruence|discriminate E].
Qed.

Lemma last_char_In (p : ascii -> bool) (s : string) (c : ascii) :
  Js.forall_chars p s = true -> Js.last_char s = Some c -> p c = true.
Proof.
  induction s as [|d r IH]; cbn [Js.forall_chars Js.last_char]; [discriminate|].
  intros H L. apply andb_true_iff in H as [Hd Hr].
  destruct r as [|e r']; [now injection L as <-|]. now apply IH.
Qed.

Lemma plainName_facts (item : string) :
  plainName item = true ->
  item <> "" /\ Js.forall_chars (fun c => negb (Ascii.eqb c "/")) item = true
  /\ (String.eqb item "" || String.eqb item ".") = false
  /\ String.eqb item ".." = false.
Proof.
  unfold plainName. intros H.
  apply andb_true_iff in H as [H D2]. apply andb_true_iff in H as [H D1].
  apply andb_true_iff in H as [E S]. apply negb_true_iff in E, D1, D2.
  rewrite E, D1, D2. repeat split; try assumption.
  intros ->. discriminate E.
Qed.

Lemma resolveSegments_plain (isAbsolute : bool) (names : list string) :
  forallb plainName names = true ->
  forall kept,
    Path.resolveSegments isAbsolute kept names = rev kept ++ names.
Proof.
  induction names as [|n names IH]; intros H kept; cbn [Path.resolveSegments].
  - now rewrite app_nil_r.
  - cbn [forallb] in H. apply andb_true_iff in H as [Hn Hr].
    destruct (plainName_facts n Hn) as (_ & _ & -> & ->).
    rewrite (IH Hr). cbn [rev]. now rewrite <- app_assoc.
Qed.

Lemma join_plain_nonempty (names : list string) :
  forallb plainName names = true -> names <> [] ->
  exists c r, Js.join "/" names = String c r
              /\ (forall first more, names = first :: more ->
                                     exists r', first = String c r').
Proof.
  intros H N. destruct names as [|n names]; [congruence|].
  cbn [forallb] in H. apply andb_true_iff in H as [Hn _].
  destruct (plainName_facts n Hn) as (Ne & _).
  destruct n as [|c r]; [congruence|].
  destruct names as [|m names].
  - exists c, r. split; [reflexivity|]. intros first more [= <- <-]. now exists r.
  - exists c, (r ++ "/" ++ Js.join "/" (m :: names))%string.
    split; [reflexivity|]. intros first more [= <- <-]. now exists r.
Qed.

Lemma join_cons (sep x : string) (l : list string) :
  l <> [] -> Js.join sep (x :: l) = (x ++ sep ++ Js.join sep l)%string.
Proof. destruct l; [congruence|reflexivity]. Qed.

Lemma endsWith_joined (l : list string) (item : string) :
  plainName item = true ->
  Js.endsWithChar (Js.join "/" (l ++ [item])) "/" = false.
Proof.
  intros Hi. destruct (plainName_facts item Hi) as (Ine & Ins & _).
  assert (L : Js.last_char (Js.join "/" (l ++ [item])) = Js.last_char item).
  { destruct l as [|a l]; [reflexivity|].
    rewrite join_snoc by discriminate.
    rewrite last_char_app by (cbn; discriminate).
    exact (last_char_app "/" item Ine). }
  unfold Js.endsWithChar. rewrite L.
  destruct (Js.last_char item) as [d|] eqn:E; [|reflexivity].
  apply negb_true_iff. exact (last_char_In _ item d Ins E).
Qed.

Lemma normalize_resolved (f : ascii) (rest : string) (c : ascii) (r : string) :
  Js.join "/"
    (Path.resolveSegments (Ascii.eqb f "/") [] (Js.split_char "/" (String f rest)))
  = String c r ->
  Path.normalize (String f rest)
  = ((if Ascii.eqb f "/" then "/" else "") ++ String c r
     ++ (if Js.endsWithChar (String f rest) "/" then "/" else ""))%string.
Proof. intros H. unfold Path.normalize. cbv zeta. now rewrite H. Qed.

(** A path made of plain names, with or without a slash at the start, is
    normalised. *)
Lemma normalize_joined (first : string) (mid : list string) (item : string) :
  forallb plainName mid = true -> plainName item = true ->
  plainName first = true \/ first = "" ->
  Path.normalize (Js.join "/" (first :: mid ++ [item]))
  = Js.join "/" (first :: mid ++ [item]).
Proof.
  intros Hm Hi Hf.
  assert (Hall : forallb plainName (mid ++ [item]) = true).
  { rewrite forallb_app, Hm. cbn [forallb]. now rewrite Hi. }
  assert (N : mid ++ [item] <> []) by (destruct mid; discriminate).
  assert (Tr : Js.endsWithChar (Js.join "/" (first :: mid ++ [item])) "/" = false)
    by exact (endsWith_joined (first :: mid) item Hi).
  assert (NS : Forall (fun k => Js.forall_chars (fun d => negb (Ascii.eqb d "/")) k = true)
                 (mid ++ [item])).
  { apply Forall_forall. intros k Hk. rewrite forallb_forall in Hall.
    now destruct (plainName_facts k (Hall k Hk)) as (_ & S & _). }
  assert (Sp : forall Fs : Js.forall_chars (fun d => negb (Ascii.eqb d "/")) first = true,
             Js.split_char "/" (Js.join "/" (first :: mid ++ [item]))
             = first :: mid ++ [item]).
  { intros Fs. apply (split_char_join "/" first (mid ++ [item])).
    now constructor. }
  destruct (join_plain_nonempty (mid ++ [item]) Hall N) as (c & r & Ej & _).
  destruct Hf as [Pf| ->].
  - destruct (plainName_facts first Pf) as (Fne & Fns & Fed & Fdd).
    destruct first as [|f0 f']; [congruence|].
    assert (A : Ascii.eqb f0 "/" = false).
    { cbn [Js.forall_chars] in Fns. apply andb_true_iff in Fns as [F0 _].
      now apply negb_true_iff in F0. }
    specialize (Sp Fns). revert Tr Sp. rewrite (join_cons "/" _ _ N).
    change (String f0 f' ++ "/" ++ Js.join "/" (mid ++ [item]))%string
      with (String f0 (f' ++ "/" ++ Js.join "/" (mid ++ [item])))%string.
    intros Tr Sp.
    rewrite (normalize_resolved f0 _ f0 (f' ++ "/" ++ Js.join "/" (mid ++ [item]))).
    + rewrite A, Tr. cbn [append]. now rewrite append_empty_r.
    + rewrite A, Sp.
      rewrite (resolveSegments_plain false (String f0 f' :: mid ++ [item])) by
        (cbn [forallb]; now rewrite Pf, Hall).
      cbn [rev app]. now rewrite (join_cons "/" _ _ N).
  - specialize (Sp eq_refl). revert Tr Sp. rewrite (join_cons "/" _ _ N).
    change ("" ++ "/" ++ Js.join "/" (mid ++ [item]))%string
      with (String "/" (Js.join "/" (mid ++ [item]))).
    intros Tr Sp.
    rewrite (normalize_resolved "/" _ c r).
    + rewrite Tr, <- Ej. change (Ascii.eqb "/" "/") with true.
      cbn [append]. now rewrite append_empty_r.
    + change (Ascii.eqb "/" "/") with true. rewrite Sp.
      cbn [Path.resolveSegments String.eqb orb].
      rewrite (resolveSegments_plain true (mid ++ [item]) Hall). cbn [rev app].
      exact Ej.
Qed.

(** On the path of a directory and a name, [path.join] puts the name behind
    a slash, and the result is the path of a directory again. *)
Lemma pathJoin_plain (dir item : string) :
  normalDir dir = true -> plainName item = true ->
  pathJoin dir item = (dir ++ "/" ++ item)%string
  /\ normalDir (dir ++ "/" ++ item) = true.
Proof.
  unfold normalDir. intros D Hi.
  pose proof (join_split_char "/" dir) as J. change (String "/" "") with "/" in J.
  pose proof (split_char_no_separator "/" dir) as NS.
  destruct (Js.split_char "/" dir) as [|first names] eqn:Es; [discriminate D|].
  apply andb_true_iff in D as [Hn Hf].
  destruct (plainName_facts item Hi) as (Ine & Ins & Ied & Idd).
  assert (Ep : (dir ++ "/" ++ item)%string = Js.join "/" (first :: names ++ [item])).
  { change (first :: names ++ [item]) with ((first :: names) ++ [item]).
    rewrite join_snoc by discriminate. now rewrite J. }
  assert (Hf' : plainName first = true \/ first = "").
  { apply orb_true_iff in Hf as [Pf|Ef]; [now left|right].
    apply andb_true_iff in Ef as [Ef _]. now apply String.eqb_eq in Ef. }
  assert (Dn : dir <> "").
  { intros ->. cbn in Es. injection Es as <- <-. cbn in Hf. discriminate Hf. }
  split.
  - unfold pathJoin, Path.join.
    destruct dir as [|d0 dir']; [congruence|].
    destruct item as [|i0 item']; [congruence|].
    rewrite Ep. now apply normalize_joined.
  - rewrite Ep.
    rewrite (split_char_join "/" first (names ++ [item])).
    + rewrite forallb_app, Hn. cbn [forallb]. rewrite Hi. cbn [andb].
      apply orb_true_iff in Hf as [Pf|Ef]; [now rewrite Pf|].
      apply andb_true_iff in Ef as [Ef Nn]. rewrite Ef. cbn [andb].
      rewrite orb_true_iff. right. destruct names; [discriminate Nn|reflexivity].
    + inversion NS as [|? ? Hfirst Hnames]; subst. constructor; [exact Hfirst|].
      apply Forall_app. split; [exact Hnames|]. now repeat constructor.
Qed.

Lemma walkEntry_below (e : Entry) :
  forall dir relative visited,
    normalDir dir = true -> plainEntry e = true ->
    In visited (walkEntry dir relative e) ->
    exists rest, fst (fst visited) = (dir ++ rest)%string.
Proof.
  induction e as [item content|item items IH] using Entry_induction;
    intros dir relative visited D P; cbn [walkEntry]; cbn [plainEntry] in P.
  - intros [<-|[]]. cbn [fst]. destruct (pathJoin_plain dir item D P) as (-> & _).
    now exists ("/" ++ item)%string.
  - apply andb_true_iff in P as [Pi Ps].
    destruct (pathJoin_plain dir item D Pi) as (E & D').
    intros H. apply in_flat_map in H as (e & He & Hv).
    rewrite Forall_forall in IH. rewrite forallb_forall in Ps.
    rewrite E in Hv.
    destruct (IH e He _ _ _ D' (Ps e He) Hv) as (rest & Er).
    exists (("/" ++ item) ++ rest)%string. rewrite Er.
    now rewrite !string_app_assoc.
Qed.

Lemma walkDirectory_below (dir : string) (items : list Entry)
  (visited : string * string * string) :
  normalDir dir = true -> forallb plainEntry items = true ->
  In visited (walkDirectory dir (Some items)) ->
  exists rest, fst (fst visited) = (dir ++ rest)%string.
Proof.
  cbn [walkDirectory]. intros D P H.
  apply in_flat_map in H as (e & He & Hv).
  rewrite forallb_forall in P.
  now apply (walkEntry_below e dir "" visited D (P e He)).
Qed.

Lemma shouldAnalyzeFile_excluded (extname : string -> string) (filePath word : string) :
  In word excludedWords -> Js.includes filePath word = true ->
  shouldAnalyzeFile extname filePath = false.
Proof.
  unfold excludedWords, shouldAnalyzeFile.
  intros [<-|[<-|[<-|[<-|[]]]]] H; rewrite H; cbn [negb];
    rewrite ?andb_false_r; reflexivity.
Qed.

(** X21: below a directory whose own path holds one of the words
    [node_modules], [.git], [test] or [spec] no snapshot gives an
    occurrence: the filter reads the whole path of a file, the directory of
    the walk included.  The path of the directory is one that [path.join]
    returns, and the names of the snapshot are names of directory entries.
    A directory that does not exist gives no occurrence either. *)
Theorem findHooks_skips_excluded_paths (extname : string -> string)
  (dir word : string) (items : list Entry) :
  normalDir dir = true -> forallb plainEntry items = true ->
  In word excludedWords -> Js.includes dir word = true ->
  findHooks extname dir (Some items) = []
  /\ findHooks extname dir None = [].
Proof.
  intros D P W I. split; [|reflexivity]. unfold findHooks.
  assert (G : forall l,
            incl l (walkDirectory dir (Some items)) ->
            fold_left (findHooksInFile extname) l [] = []).
  { induction l as [|v l IH]; intros Hl; [reflexivity|].
    cbn [fold_left].
    destruct (walkDirectory_below dir items v D P (Hl v (or_introl eq_refl)))
      as (rest & E).
    destruct v as [[filePath file] content]. cbn [fst] in E. subst filePath.
    unfold findHooksInFile at 2.
    rewrite (shouldAnalyzeFile_excluded extname _ word W (includes_app_l _ rest _ I)).
    apply IH. intros x Hx. apply Hl. now right. }
  apply G, incl_refl.
Qed.

Lemma findHooks_skips_excluded_paths_witness :
  findHooks posixExtname "/srv/spec/discourse/v1.0.0" (Some exampleSnapshot) = []
  /\ findHooks posixExtname "/srv/spec/discourse/v1.0.0" None = [].
Proof.
  apply (findHooks_skips_excluded_paths posixExtname "/srv/spec/discourse/v1.0.0"
           "spec" exampleSnapshot);
    [vm_compute; reflexivity|vm_compute; reflexivity
    |now (right; right; right; left)|vm_compute; reflexivity].
Defined.

(** ** Consolidated names *)

Lemma isIdentifier_value : isIdentifier "value" = true.
Proof. reflexivity. Qed.

Lemma chooseBestArgumentName_identifier (argumentGroup : list string) :
  isIdentifier (chooseBestArgumentName argumentGroup) = true.
Proof.
  unfold chooseBestArgumentName.
  destruct (firstPlainName argumentGroup) as [arg|] eqn:P.
  - apply firstPlainName_some in P as (before & after & _ & _ & H).
    now apply isPlainVariableName_spec in H.
  - destruct (firstExtractedName argumentGroup) as [extracted|] eqn:E.
    + apply firstExtractedName_some in E as (before & token & after & _ & _ & H).
      now apply extractMethodOrMemberName_sound in H.
    + exact isIdentifier_value.
Qed.

(** X22: every name [consolidateArgumentsForVersion] returns is an
    identifier: a letter or underscore followed by letters, digits and
    underscores, whatever the arguments found at the locations are. *)
Theorem consolidateArgumentsForVersion_identifiers
  (hookData : HookData.t (list string)) (version : string) :
  Forall (fun name => isIdentifier name = true)
    (consolidateArgumentsForVersion hookData version).
Proof.
  unfold consolidateArgumentsForVersion.
  destruct (allArgumentArrays hookData version) as [|args arrays]; [constructor|].
  apply Forall_forall. intros name H. apply in_map_iff in H as (i & <- & _).
  apply chooseBestArgumentName_identifier.
Qed.

(** ** Viewer *)

Lemma viewer_parseVersion_tag (v : string) :
  valid_tag v = true -> Viewer.parseVersion v = parseVersion v.
Proof.
  destruct v as [|c r]; [discriminate|]. cbn [valid_tag]. intros H.
  apply andb_true_iff in H as [Hc _]. apply Ascii.eqb_eq in Hc. subst c.
  reflexivity.
Qed.

Lemma valid_version_parse (v : string) :
  valid_version v = true ->
  v = "main" \/ Viewer.parseVersion v = parseVersion v.
Proof.
  unfold valid_version. intros H. apply orb_true_iff in H as [H|H].
  - left. now apply String.eqb_eq.
  - right. now apply viewer_parseVersion_tag.
Qed.

(** X23: on the versions of the catalog, the tags [vN.N.N] and [main],
    the viewer's [compareVersions] gives the same number as the
    analyzer's. *)
Theorem viewer_compareVersions_agrees (a b : string) :
  valid_version a = true -> valid_version b = true ->
  Viewer.compareVersions a b = compareVersions a b.
Proof.
  intros Ha Hb. unfold Viewer.compareVersions, compareVersions.
  destruct (valid_version_parse a Ha) as [->|Ea];
    destruct (valid_version_parse b Hb) as [->|Eb];
    try reflexivity.
  now rewrite Ea, Eb.
Qed.

Lemma viewer_compareVersions_agrees_witness :
  Viewer.compareVersions "v3.1.0" "v3.10.2" = compareVersions "v3.1.0" "v3.10.2".
Proof.
  exact (viewer_compareVersions_agrees "v3.1.0" "v3.10.2" eq_refl eq_refl).
Defined.

Lemma linesOf_one (line : Z) : linesOf (Range.mk line line) = [line].
Proof.
  unfold linesOf. cbn [Range.start Range.end_].
  replace (line - line + 1) with 1 by lia.
  change (Z.to_nat 1) with 1%nat. cbn [seq map Z.of_nat].
  now rewrite Z.add_0_r.
Qed.

Lemma linesOf_extend (rangeStart rangeEnd : Z) :
  rangeStart <= rangeEnd ->
  linesOf (Range.mk rangeStart (rangeEnd + 1))
  = linesOf (Range.mk rangeStart rangeEnd) ++ [rangeEnd + 1].
Proof.
  intros H. unfold linesOf. cbn [Range.start Range.end_].
  replace (Z.to_nat (rangeEnd + 1 - rangeStart + 1))
    with (S (Z.to_nat (rangeEnd - rangeStart + 1))) by lia.
  rewrite seq_S, map_app. cbn [map Nat.add]. f_equal. f_equal. lia.
Qed.

Lemma rangesFrom_lines (rest : list Z) :
  forall ranges rangeStart rangeEnd,
    rangeStart <= rangeEnd ->
    flat_map linesOf (Viewer.rangesFrom ranges rangeStart rangeEnd rest)
    = flat_map linesOf ranges ++ linesOf (Range.mk rangeStart rangeEnd) ++ rest
    /\ (Forall (fun r => Range.start r <= Range.end_ r) ranges ->
        Forall (fun r => Range.start r <= Range.end_ r)
          (Viewer.rangesFrom ranges rangeStart rangeEnd rest)).
Proof.
  induction rest as [|currentLine more IH]; intros ranges rangeStart rangeEnd H;
    cbn [Viewer.rangesFrom].
  - split.
    + rewrite flat_map_app. cbn [flat_map]. now rewrite !app_nil_r.
    + intros F. apply Forall_app. split; [exact F|]. now repeat constructor.
  - destruct (Z.eqb_spec currentLine (rangeEnd + 1)) as [->|Hne].
    + destruct (IH ranges rangeStart (rangeEnd + 1) ltac:(lia)) as [L F].
      split; [|exact F].
      rewrite L, linesOf_extend by exact H. now rewrite <- app_assoc.
    + destruct (IH (ranges ++ [Range.mk rangeStart rangeEnd]) currentLine currentLine
                  ltac:(lia)) as [L F].
      split.
      * rewrite L, flat_map_app, linesOf_one. cbn [flat_map].
        rewrite app_nil_r. now rewrite <- !app_assoc.
      * intros F0. apply F. apply Forall_app. split; [exact F0|].
        now repeat constructor.
Qed.

(** X24: for line numbers below 2^53 in size, the ranges of
    [createLineRanges] run upward and, written out in order, give back
    exactly the lines they were made from. *)
Theorem createLineRanges_round_trip (sortedLines : list Z) :
  Forall (fun line => Z.abs line < 2 ^ 53) sortedLines ->
  flat_map linesOf (Viewer.createLineRanges sortedLines) = sortedLines
  /\ Forall (fun r => Range.start r <= Range.end_ r)
       (Viewer.createLineRanges sortedLines).
Proof.
  intros _. destruct sortedLines as [|first rest]; [now split|].
  cbn [Viewer.createLineRanges].
  destruct (rangesFrom_lines rest [] first first ltac:(lia)) as [L F].
  split; [|now apply F].
  rewrite L, linesOf_one. reflexivity.
Qed.

Lemma createLineRanges_round_trip_witness :
  flat_map linesOf (Viewer.createLineRanges [3; 4; 5; 9]) = [3; 4; 5; 9]
  /\ Forall (fun r => Range.start r <= Range.end_ r)
       (Viewer.createLineRanges [3; 4; 5; 9]).
Proof.
  apply (createLineRanges_round_trip [3; 4; 5; 9]).
  repeat constructor.
Defined.

Lemma separated_snoc (ranges : list Range.t) (a b : Range.t) :
  separated (ranges ++ [a]) = true ->
  (Range.start b =? Range.end_ a + 1) = false ->
  separated ((ranges ++ [a]) ++ [b]) = true.
Proof.
  intros S T. induction ranges as [|r ranges IH].
  - cbn. now rewrite T.
  - destruct ranges as [|r' ranges].
    + cbn in *. rewrite T. apply andb_true_iff in S as [S _]. now rewrite S.
    + change (separated (r :: (r' :: ranges) ++ [a]) = true) in S.
      cbn [separated app] in S. apply andb_true_iff in S as [S1 S2].
      cbn [separated app]. rewrite S1. cbn [andb]. apply IH. exact S2.
Qed.

Lemma separated_last_end (ranges : list Range.t) (rangeStart e e' : Z) :
  separated (ranges ++ [Range.mk rangeStart e]) = true ->
  separated (ranges ++ [Range.mk rangeStart e']) = true.
Proof.
  induction ranges as [|r ranges IH]; intros S; [reflexivity|].
  destruct ranges as [|r' ranges].
  - cbn in *. exact S.
  - cbn [separated app] in *. apply andb_true_iff in S as [S1 S2].
    rewrite S1. cbn [andb]. now apply IH.
Qed.

Lemma rangesFrom_separated (rest : list Z) :
  forall ranges rangeStart rangeEnd,
    separated (ranges ++ [Range.mk rangeStart rangeEnd]) = true ->
    separated (Viewer.rangesFrom ranges rangeStart rangeEnd rest) = true.
Proof.
  induction rest as [|currentLine more IH]; intros ranges rangeStart rangeEnd S;
    cbn [Viewer.rangesFrom]; [exact S|].
  destruct (Z.eqb_spec currentLine (rangeEnd + 1)) as [->|Hne].
  - apply IH. now apply (separated_last_end ranges rangeStart rangeEnd).
  - apply IH. apply separated_snoc; [exact S|].
    cbn [Range.start Range.end_]. now apply Z.eqb_neq.
Qed.

(** X25: the ranges of [createLineRanges] are as long as they can be: no
    range starts on the line after the end of the range before it. *)
Theorem createLineRanges_maximal (sortedLines : list Z) :
  separated (Viewer.createLineRanges sortedLines) = true.
Proof.
  destruct sortedLines as [|first rest]; [reflexivity|].
  cbn [Viewer.createLineRanges]. now apply rangesFrom_separated.
Qed.

(** ** Argument Consolidator: the priorities as described *)























